(** * Snowboard reader: source normalisation, seed and partial resolution

    A shallow embedding of [packages/snowboard-reader/src/index.js] and the
    properties of its specification.

    JavaScript strings are sequences of UTF-16 code units; a text is a list
    of code units, each an [N].  The regular expressions of the reader are
    embedded as lists of atoms and run by a backtracking matcher that tries
    the alternatives in the order of the ECMAScript semantics (a greedy
    quantifier takes the longest run first and gives characters back one at
    a time). *)

From Stdlib Require Import Ascii String.
From Stdlib Require Import List NArith ZArith Lia Bool Arith DecimalString.
Import ListNotations.
Local Open Scope list_scope.

Set Implicit Arguments.
Set Warnings "-register-all".
Local Open Scope N_scope.
Local Open Scope nat_scope.

(** ** Texts *)

Module Text.

Definition text := list N.

(** The code units of an ASCII literal. *)
Definition str (s : string) : text :=
  map N_of_ascii (list_ascii_of_string s).

(** The same, with each apostrophe of the literal standing for a double
    quote (code unit 34). *)
Definition strq (s : string) : text :=
  map (fun c => if N.eqb c 39 then 34%N else c) (str s).

Definition NL : N := 10.

(** ECMAScript LineTerminator: LF, CR, LS, PS.  The pattern character [.]
    matches every code unit that is not one of them. *)
Definition isLineTerminator (c : N) : bool :=
  (c =? 10)%N || (c =? 13)%N || (c =? 8232)%N || (c =? 8233)%N.

(** The class [\s]: ECMAScript WhiteSpace and LineTerminator. *)
Definition isWhiteSpace (c : N) : bool :=
  ((9 <=? c) && (c <=? 13))%N || (c =? 32)%N || (c =? 160)%N
  || (c =? 5760)%N || ((8192 <=? c) && (c <=? 8202))%N
  || (c =? 8232)%N || (c =? 8233)%N || (c =? 8239)%N || (c =? 8287)%N
  || (c =? 12288)%N || (c =? 65279)%N.

(** The class [[0-9]]. *)
Definition isDigit (c : N) : bool := ((48 <=? c) && (c <=? 57))%N.

Fixpoint text_eqb (a b : text) : bool :=
  match a, b with
  | [], [] => true
  | x :: a', y :: b' => (x =? y)%N && text_eqb a' b'
  | _, _ => false
  end.

End Text.
Export Text.

(** ** Regular expressions *)

Module Regex.

Inductive cls := Dot | Digit.

Definition cls_test (k : cls) (c : N) : bool :=
  match k with
  | Dot => negb (isLineTerminator c)
  | Digit => isDigit c
  end.

(** The atoms the reader's patterns are built from: a literal code unit,
    [\s?], a single [.], and a capturing group [(.+)] or [([0-9]+)]. *)
Inductive atom :=
| Chr (c : N)
| OptSpace
| AnyChar
| Group (k : cls).

Definition regex := list atom.

Definition lit (s : string) : regex := map Chr (str s).
Definition litq (s : string) : regex := map Chr (strq s).

(** A match is the list of captured groups and the number of code units
    consumed. *)
Definition found := (list text * nat)%type.

Definition advance (m : option found) : option found :=
  match m with
  | Some (caps, n) => Some (caps, S n)
  | None => None
  end.

(** Greedy [X+] followed by the continuation [k]: take one more unit when
    that leads to a match, otherwise stop here and run [k]. *)
Fixpoint plus (test : N -> bool) (k : text -> option found) (s : text)
  : option (text * found) :=
  match s with
  | [] => None
  | x :: s' =>
      if test x then
        match plus test k s' with
        | Some (g, (caps, n)) => Some (x :: g, (caps, S n))
        | None =>
            match k s' with
            | Some (caps, n) => Some ([x], (caps, S n))
            | None => None
            end
        end
      else None
  end.

(** [match_seq r s]: the first match of [r] at the start of [s], in
    backtracking order. *)
Fixpoint match_seq (r : regex) (s : text) {struct r} : option found :=
  match r with
  | [] => Some ([], 0)
  | Chr c :: r' =>
      match s with
      | x :: s' => if (x =? c)%N then advance (match_seq r' s') else None
      | [] => None
      end
  | AnyChar :: r' =>
      match s with
      | x :: s' =>
          if cls_test Dot x then advance (match_seq r' s') else None
      | [] => None
      end
  | OptSpace :: r' =>
      match s with
      | x :: s' =>
          if isWhiteSpace x then
            match match_seq r' s' with
            | Some (caps, n) => Some (caps, S n)
            | None => match_seq r' s
            end
          else match_seq r' s
      | [] => match_seq r' s
      end
  | Group k :: r' =>
      match plus (cls_test k) (match_seq r') s with
      | Some (g, (caps, n)) => Some (g :: caps, n)
      | None => None
      end
  end.

(** A replacement string: literal pieces and group references [$n]. *)
Inductive piece := Lit (t : text) | Ref (n : nat).

Definition subst (tpl : list piece) (caps : list text) : text :=
  flat_map (fun p => match p with
                     | Lit t => t
                     | Ref n => nth (pred n) caps []
                     end) tpl.

(** [String.prototype.replace] with a global pattern.  The scan goes
    through the text one unit at a time; [skip] counts the units of the
    last match that are still to be passed over.  Every pattern of the
    reader starts with a literal, so a match is never empty. *)
Fixpoint replace_go (r : regex) (tpl : list piece) (s : text) (skip : nat)
  : text :=
  match s with
  | [] => []
  | c :: s' =>
      match skip with
      | S k => replace_go r tpl s' k
      | O =>
          match match_seq r s with
          | Some (caps, n) => subst tpl caps ++ replace_go r tpl s' (pred n)
          | None => c :: replace_go r tpl s' 0
          end
      end
  end.

Definition replace (r : regex) (tpl : list piece) (s : text) : text :=
  replace_go r tpl s 0.

(** The loop of [matchAll]: [regex.exec] until it returns null, each
    search starting where the last match ended. *)
Fixpoint matchAll_go (r : regex) (s : text) (skip : nat) : list (list text) :=
  match s with
  | [] => []
  | _ :: s' =>
      match skip with
      | S k => matchAll_go r s' k
      | O =>
          match match_seq r s with
          | Some (caps, n) => caps :: matchAll_go r s' (pred n)
          | None => matchAll_go r s' 0
          end
      end
  end.

Definition matchAll (s : text) (r : regex) : list (list text) :=
  matchAll_go r s 0.

(** Does the pattern match somewhere in the text? *)
Fixpoint occurs (r : regex) (s : text) : bool :=
  match s with
  | [] => false
  | _ :: s' =>
      match match_seq r s with
      | Some _ => true
      | None => occurs r s'
      end
  end.

End Regex.
Export Regex.

(** ** The reader's patterns and text functions *)

(** [item[1]] of a match array: the first captured group.  A match is kept
    as the list of its groups, without the matched text [item[0]], which
    the reader never uses. *)
Definition item1 (m : list text) : text := nth 0 m [].

Definition partialRegex : regex := lit "{{> " ++ [Group Dot] ++ lit "}}".
Definition seedRegex : regex := lit "<!-- seed(" ++ [Group Dot] ++ lit ") -->".

Definition re_comment_partial : regex :=
  lit "<!-- partial(" ++ [Group Dot] ++ lit ") -->".
Definition re_comment_include : regex :=
  lit "<!-- include(" ++ [Group Dot] ++ lit ") -->".
Definition re_helper_partial : regex :=
  lit "{{" ++ [OptSpace] ++ litq "partial '" ++ [Group Dot]
      ++ litq "'" ++ [OptSpace] ++ lit "}}".
Definition re_helper_include : regex :=
  lit "{{" ++ [OptSpace] ++ litq "include '" ++ [Group Dot]
      ++ litq "'" ++ [OptSpace] ++ lit "}}".
Definition re_helper_seed : regex :=
  lit "{{" ++ [OptSpace] ++ litq "seed '" ++ [Group Dot]
      ++ litq "'" ++ [OptSpace] ++ lit "}}".

Definition re_with_index : regex :=
  lit "{{with index ." ++ [Group Dot] ++ litq " '" ++ [Group Digit]
      ++ litq "'}}".

Definition re_index2 : regex :=
  re_with_index ++ re_with_index ++ [OptSpace] ++ lit "{{." ++ [Group Dot]
    ++ lit "}}" ++ [OptSpace] ++ lit "{{end}}{{end}}".
Definition re_index1 : regex :=
  re_with_index ++ [OptSpace] ++ lit "{{." ++ [Group Dot] ++ lit "}}"
    ++ [OptSpace] ++ lit "{{end}}".
Definition re_index_join : regex :=
  re_with_index ++ [OptSpace] ++ lit "{{join ." ++ [Group Dot]
    ++ litq " '," ++ [OptSpace] ++ litq "'}}" ++ [OptSpace] ++ lit "{{end}}".
Definition re_join : regex :=
  lit "{{join " ++ [AnyChar; Group Dot] ++ litq " '," ++ [OptSpace]
    ++ litq "'}}".
Definition re_upcase : regex :=
  lit "{{." ++ [Group Dot] ++ lit " | upcase}}".
Definition re_dot : regex := lit "{{.".

Definition replacement : list piece := [Lit (str "{{> "); Ref 1; Lit (str "}}")].
Definition tpl_seed : list piece :=
  [Lit (str "<!-- seed("); Ref 1; Lit (str ") -->")].
Definition tpl_path5 : list piece :=
  [Lit (str "{{"); Ref 1; Lit (str "."); Ref 2; Lit (str "."); Ref 3;
   Lit (str "."); Ref 4; Lit (str "."); Ref 5; Lit (str "}}")].
Definition tpl_path3 : list piece :=
  [Lit (str "{{"); Ref 1; Lit (str "."); Ref 2; Lit (str "."); Ref 3;
   Lit (str "}}")].
Definition tpl_join : list piece := [Lit (str "{{join "); Ref 1; Lit (str "}}")].
Definition tpl_upcase : list piece :=
  [Lit (str "{{upcase "); Ref 1; Lit (str "}}")].
Definition tpl_open : list piece := [Lit (str "{{")].

(** The rewriting rules of [rewriteSource], in the order they are applied. *)
Definition rules : list (regex * list piece) :=
  [ (re_comment_partial, replacement);
    (re_comment_include, replacement);
    (re_helper_partial, replacement);
    (re_helper_include, replacement);
    (re_helper_seed, tpl_seed);
    (re_index2, tpl_path5);
    (re_index1, tpl_path3);
    (re_index_join, tpl_path3);
    (re_join, tpl_join);
    (re_upcase, tpl_upcase);
    (re_dot, tpl_open) ].

Definition apply_rule (data : text) (rule : regex * list piece) : text :=
  replace (fst rule) (snd rule) data.

Definition rewriteSource (source : text) : text :=
  let data := source ++ [NL] in
  fold_left apply_rule rules data.

(** The chain of replacements of [rewriteSource], run on a text as it is,
    without the newline that [rewriteSource] appends first. *)
Definition rewriteRules (data : text) : text :=
  fold_left apply_rule rules data.

(** The number of capturing groups of a pattern. *)
Fixpoint groups (r : regex) : nat :=
  match r with
  | [] => 0
  | Group _ :: r' => S (groups r')
  | _ :: r' => groups r'
  end.

Definition cleanupSource (source : text) : text :=
  replace seedRegex [] source.

Definition extractPartials (source : text) : list (list text) :=
  matchAll source partialRegex.

Definition extractSeeds (source : text) : list (list text) :=
  rev (matchAll source seedRegex).

(** The spellings of the directives, as texts. *)
Definition seedMarker (ref : text) : text :=
  str "<!-- seed(" ++ ref ++ str ") -->".
Definition canonicalPartial (ref : text) : text :=
  str "{{> " ++ ref ++ str "}}".
Definition commentPartial (ref : text) : text :=
  str "<!-- partial(" ++ ref ++ str ") -->".
Definition commentInclude (ref : text) : text :=
  str "<!-- include(" ++ ref ++ str ") -->".
Definition helperPartial (ref : text) : text :=
  strq "{{partial '" ++ ref ++ strq "'}}".
Definition helperInclude (ref : text) : text :=
  strq "{{include '" ++ ref ++ strq "'}}".

(** A reference string that holds no directive markup of its own: not
    empty, on one line, and without the units [<] and [{] that open the
    directives. *)
Definition plainUnit (c : N) : bool :=
  negb (isLineTerminator c) && negb (c =? 60)%N && negb (c =? 123)%N.

Definition plainRef (ref : text) : bool :=
  match ref with
  | [] => false
  | _ :: _ => forallb plainUnit ref
  end.

(** Patterns that end in a literal other than the newline: a match never
    reaches a final newline, and does not depend on it. *)
Fixpoint ends_lit (r : regex) : bool :=
  match r with
  | [] => false
  | a :: r' =>
      match r' with
      | [] => match a with Chr c => negb (c =? NL)%N | _ => false end
      | _ :: _ => ends_lit r'
      end
  end.


(** Patterns that stay on one line: literals other than line terminators,
    [.] and groups, and no [\s?]. *)
Fixpoint oneLine (r : regex) : bool :=
  match r with
  | [] => true
  | Chr c :: r' => negb (isLineTerminator c) && oneLine r'
  | OptSpace :: _ => false
  | _ :: r' => oneLine r'
  end.

(** ** Objects and JSON values *)

(** A JavaScript object used as a map from string keys to values: an
    association list in insertion order.  Assigning to an existing key keeps
    its position, assigning to a new key appends it.  (JavaScript lists
    integer-like keys first, in ascending order; no key of the examples is
    of that kind.) *)
Definition protoName : text := str "__proto__".

Module Obj.

Definition t (A : Type) := list (text * A).

Fixpoint get {A} (k : text) (o : t A) : option A :=
  match o with
  | [] => None
  | (k', v) :: o' => if text_eqb k k' then Some v else get k o'
  end.

Fixpoint set {A} (k : text) (v : A) (o : t A) : t A :=
  match o with
  | [] => [(k, v)]
  | (k', v') :: o' =>
      if text_eqb k k' then (k, v) :: o' else (k', v') :: set k v o'
  end.

(** The assignment [o[k] = v] of a primitive [v] (a string, here) to a
    plain object.  The name [__proto__] is not a property of the object
    but the accessor that it inherits from [Object.prototype]: assigning a
    primitive to it changes nothing and makes no property. *)
Definition assign {A} (k : text) (v : A) (o : t A) : t A :=
  if text_eqb k protoName then o else set k v o.

Definition keys {A} (o : t A) : list text := map fst o.

Definition has {A} (k : text) (o : t A) : bool :=
  match get k o with Some _ => true | None => false end.

End Obj.

Inductive json :=
| JNull
| JBool (b : bool)
| JNum (z : Z)
| JStr (s : text)
| JArr (items : list json)
| JObj (fields : Obj.t json).

Definition fields := Obj.t json.

(** The primitive values: everything lodash's [isObject] rejects. *)
Definition scalar (v : json) : bool :=
  match v with
  | JArr _ | JObj _ => false
  | _ => true
  end.

(** Decimal digits of a number, for array indices used as keys and for
    printing. *)
Definition dec (n : N) : text := str (NilZero.string_of_uint (N.to_uint n)).

(** *** lodash [merge]

    [merge] is imported from lodash; the model follows [baseMerge],
    [baseMergeDeep], [safeGet] and [assignMergeValue] (lodash 4.17.21) on
    JSON values.  For each key of the source:
    - a source value that is an array or a plain object under the key
      [__proto__] is passed over ([safeGet] hides it, and nothing is
      assigned);
    - a source value that is a plain object is merged recursively into the
      destination value when that one is a plain object, and into a fresh
      object (a deep copy) when it is a primitive or absent;
    - a source value that is an array is merged index by index into the
      destination value when that one is an array, and into a fresh array
      otherwise;
    - every other source value is assigned.

    Two cases lead out of the JSON values, and [fits] below is [false] for
    them.  A source object over a destination array: lodash keeps the array
    and sets the keys of the source on it, as properties of the array
    object (or as its items, or as its length); the model keeps the array
    as it is.  A source array over a destination object that is array-like
    (a [length] that is a whole number from 0 up): lodash starts from a
    copy of that object as an array, holes included; the model starts from
    a fresh array. *)

(** The keys that [baseMerge] passes over. *)
Definition skipped (key : text) (srcValue : json) : bool :=
  text_eqb key protoName && negb (scalar srcValue).

(** lodash [isArrayLike] on an object that [JSON.parse] built. *)
Definition arrayLike (object : fields) : bool :=
  match Obj.get (str "length") object with
  | Some (JNum z) => ((0 <=? z) && (z <=? 9007199254740991))%Z
  | _ => false
  end.

Fixpoint mergeValue (srcValue : json) (objValue : option json) {struct srcValue}
  : json :=
  match srcValue with
  | JObj sf =>
      let fix each (sf : Obj.t json) (object : fields) : fields :=
        match sf with
        | [] => object
        | (key, v) :: sf' =>
            each sf'
              (if skipped key v then object
               else Obj.set key (mergeValue v (Obj.get key object)) object)
        end in
      match objValue with
      | Some (JObj object) => JObj (each sf object)
      | Some (JArr object) => JArr object
      | _ => JObj (each sf [])
      end
  | JArr si =>
      let fix each (si : list json) (object : list json) : list json :=
        match si with
        | [] => object
        | v :: si' =>
            match object with
            | o :: object' => mergeValue v (Some o) :: each si' object'
            | [] => mergeValue v None :: each si' []
            end
        end in
      match objValue with
      | Some (JArr object) => JArr (each si object)
      | _ => JArr (each si [])
      end
  | _ => srcValue
  end.

(** [baseMerge] over the keys of the source, in order. *)
Fixpoint mergeEach (source : Obj.t json) (object : fields) : fields :=
  match source with
  | [] => object
  | (key, v) :: source' =>
      mergeEach source'
        (if skipped key v then object
         else Obj.set key (mergeValue v (Obj.get key object)) object)
  end.

Fixpoint indexed {A} (i : N) (l : list A) : Obj.t A :=
  match l with
  | [] => []
  | x :: l' => (dec i, x) :: indexed (N.succ i) l'
  end.

(** The enumerable keys of a source ([keysIn]): the fields of an object,
    the indices of an array or of a string; a number or a boolean has
    none, and [merge] skips a falsy source. *)
Definition entries (source : json) : Obj.t json :=
  match source with
  | JObj sf => sf
  | JArr items => indexed 0 items
  | JStr s => indexed 0 (map (fun c => JStr [c]) s)
  | _ => []
  end.

(** [merge(object, source)]: [object] is mutated in the program; the model
    returns its new value. *)
Definition merge (object : fields) (source : json) : fields :=
  mergeEach (entries source) object.

(** Does the merge of [srcValue] into [objValue] stay among the JSON
    values, so that [mergeValue] is the value lodash builds?  The walk is
    the walk of [mergeValue]. *)
Fixpoint fits (srcValue : json) (objValue : option json) {struct srcValue}
  : bool :=
  match srcValue with
  | JObj sf =>
      let fix each (sf : Obj.t json) (object : fields) : bool :=
        match sf with
        | [] => true
        | (key, v) :: sf' =>
            if skipped key v then each sf' object
            else fits v (Obj.get key object)
                 && each sf'
                      (Obj.set key (mergeValue v (Obj.get key object)) object)
        end in
      match objValue with
      | Some (JObj object) => each sf object
      | Some (JArr _) => false
      | _ => each sf []
      end
  | JArr si =>
      let fix each (si : list json) (object : list json) : bool :=
        match si with
        | [] => true
        | v :: si' =>
            match object with
            | o :: object' => fits v (Some o) && each si' object'
            | [] => fits v None && each si' []
            end
        end in
      match objValue with
      | Some (JArr object) => each si object
      | Some (JObj object) => negb (arrayLike object) && each si []
      | _ => each si []
      end
  | _ => true
  end.

Fixpoint fitsEach (source : Obj.t json) (object : fields) : bool :=
  match source with
  | [] => true
  | (key, v) :: source' =>
      if skipped key v then fitsEach source' object
      else fits v (Obj.get key object)
           && fitsEach source'
                (Obj.set key (mergeValue v (Obj.get key object)) object)
  end.

Definition mergeFits (object : fields) (source : json) : bool :=
  fitsEach (entries source) object.

(** The object that [loadSeeds] builds from the data of the seed files of
    one text, given in the order of the document: the data of the last
    directive is merged first, the data of the first directive last. *)
Definition mergeSeeds (datas : list json) : fields :=
  fold_right (fun data seeds => merge seeds data) [] datas.

Fixpoint seedsFit (datas : list json) : bool :=
  match datas with
  | [] => true
  | data :: rest => seedsFit rest && mergeFits (mergeSeeds rest) data
  end.

(** ** The host: file system, paths, [JSON.parse], the template engine *)

Inductive error :=
| NotFound (path : text)     (* fs.readFileSync: ENOENT *)
| ParseError                 (* JSON.parse: SyntaxError *)
| TemplateError.             (* Handlebars: compile or render error *)

(** What a call comes to: a value, a thrown error, or [OutOfFuel] when the
    recursion of a walk goes deeper than the bound it was given.  In the
    running program the bound is the call stack of the engine: a walk that
    uses it up ends with the RangeError of the engine, which passes
    through the callers as every error does (nothing in the reader
    catches). *)
Inductive outcome (A : Type) :=
| Ok (a : A)
| Throw (e : error)
| OutOfFuel.

Arguments Ok {A} a.
Arguments Throw {A} e.
Arguments OutOfFuel {A}.

Definition bind {A B} (m : outcome A) (f : A -> outcome B) : outcome B :=
  match m with
  | Ok a => f a
  | Throw e => Throw e
  | OutOfFuel => OutOfFuel
  end.

Notation "x <- m ;; k" := (bind m (fun x => k))
  (at level 61, m at next level, right associativity).
Notation "' p <- m ;; k" := (bind m (fun x => match x with p => k end))
  (at level 61, p pattern, m at next level, right associativity).

(** [Array.prototype.forEach] with a callback that may throw and that
    updates the state [S]. *)
Fixpoint forEach {A S} (items : list A) (f : A -> S -> outcome S) (s : S)
  : outcome S :=
  match items with
  | [] => Ok s
  | x :: items' => s' <- f x s ;; forEach items' f s'
  end.

(** What the reader takes from Node and from Handlebars. *)
Record Host := {
  (** [path.resolve(a, b)] and [path.resolve(a)] *)
  path_resolve : text -> text -> text;
  path_resolve1 : text -> text;
  path_dirname : text -> text;
  (** [fs.readFileSync(p, "utf8")] and [readFile(p, "utf8")]: [None] when
      the file does not exist *)
  fs_read : text -> option text;
  (** [JSON.parse]: [None] for a SyntaxError *)
  JSON_parse : text -> option json;
  (** [handlebars.compile(source, {noEscape: true})] applied to a context,
      with the partials registered so far: [None] when it throws *)
  hb_render : text -> Obj.t text -> fields -> option text
}.

Section Reader.

Variable h : Host.

Definition readFileSync (p : text) : outcome text :=
  match fs_read h p with
  | Some content => Ok content
  | None => Throw (NotFound p)
  end.

Definition parse (content : text) : outcome json :=
  match JSON_parse h content with
  | Some data => Ok data
  | None => Throw ParseError
  end.

Definition template (source : text) (registered : Obj.t text)
           (context : fields) : outcome text :=
  match hb_render h source registered context with
  | Some out => Ok out
  | None => Throw TemplateError
  end.

Definition loadSeeds (source inputDir : text) : outcome fields :=
  let results := extractSeeds source in
  forEach results
    (fun item seeds =>
       content <- readFileSync (path_resolve h inputDir (item1 item)) ;;
       data <- parse content ;;
       Ok (merge seeds data))
    [].

(** The state of one resolve operation: the seed object that
    [loadPartials] receives and mutates, and the files whose template has
    been run, in order (kept for the proofs; the program has no such
    list). *)
Record walk := {
  w_seeds : fields;
  w_rendered : list text
}.

(** The local variables of one call of [loadPartials]: the [partials]
    object and the partials registered with its Handlebars instance. *)
Record frame := {
  f_partials : Obj.t text;
  f_registered : Obj.t text
}.

Definition registerAll (children : Obj.t text) (fr : frame) : frame :=
  fold_left
    (fun fr kv =>
       {| f_partials := Obj.assign (fst kv) (snd kv) (f_partials fr);
          f_registered := Obj.set (fst kv) (snd kv) (f_registered fr) |})
    children fr.

Fixpoint loadPartials (fuel : nat) (source : text) (w : walk)
         (inputDir : text) : outcome (Obj.t text * walk) :=
  match fuel with
  | O => OutOfFuel
  | S fuel' =>
      let results := extractPartials source in
      ' (fr, w') <-
        forEach results
          (fun item st =>
             let '(fr, w) := st in
             let inputFile := path_resolve h inputDir (item1 item) in
             source <- readFileSync inputFile ;;
             let sourceDir := path_dirname h inputFile in
             let data := rewriteSource source in
             childrenSeeds <- loadSeeds source sourceDir ;;
             ' (childrenPartials, w1) <-
               loadPartials fuel' data w sourceDir ;;
             let fr1 := registerAll childrenPartials fr in
             let seeds := merge (w_seeds w1) (JObj childrenSeeds) in
             out <- template (cleanupSource data) (f_registered fr1) seeds ;;
             Ok ({| f_partials := Obj.assign (item1 item) out (f_partials fr1);
                    f_registered := f_registered fr1 |},
                 {| w_seeds := seeds;
                    w_rendered := w_rendered w1 ++ [inputFile] |}))
          ({| f_partials := []; f_registered := [] |}, w) ;;
      Ok (f_partials fr, w')
  end.

(** The first half of [rewriteInput]: the seeds and the partials that the
    root template is rendered with. *)
Definition resolveInput (fuel : nat) (source inputDir : text)
  : outcome (text * Obj.t text * walk) :=
  let data := rewriteSource source in
  seeds <- loadSeeds data inputDir ;;
  ' (partials, w) <-
    loadPartials fuel data {| w_seeds := seeds; w_rendered := [] |}
      inputDir ;;
  Ok (data, partials, w).

Definition rewriteInput (fuel : nat) (source inputDir : text)
  : outcome text :=
  ' (data, partials, w) <- resolveInput fuel source inputDir ;;
  let registered :=
    fold_left (fun reg kv => Obj.set (fst kv) (snd kv) reg) partials [] in
  template (cleanupSource data) registered (w_seeds w).

Definition resolveFile (input basedir : text) : outcome (text * text) :=
  let inputFile := path_resolve h basedir input in
  let inputDir := path_dirname h inputFile in
  content <- readFileSync inputFile ;;
  Ok (rewriteSource content, inputDir).

Fixpoint extractChildren (fuel : nat) (source inputDir : text)
         (children : list text) : outcome (list text) :=
  match fuel with
  | O => OutOfFuel
  | S fuel' =>
      let sourceClean := rewriteSource source in
      let partials := extractPartials sourceClean in
      let seeds := extractSeeds sourceClean in
      children <-
        forEach partials
          (fun partial children =>
             ' (partialSource, partialDir) <-
               resolveFile (item1 partial) inputDir ;;
             extractChildren fuel' partialSource partialDir children)
          children ;;
      let children :=
        children
          ++ map (fun item => path_resolve h inputDir (item1 item)) partials in
      Ok (children
            ++ map (fun item => path_resolve h inputDir (item1 item)) seeds)
  end.

Definition readInput (input : text) : outcome (text * text) :=
  source <- readFileSync input ;;
  Ok (source, path_dirname h input).

Definition read (fuel : nat) (input : text) : outcome text :=
  ' (source, inputDir) <- readInput input ;;
  rewriteInput fuel source inputDir.

Definition extractPaths (fuel : nat) (input : text) : outcome (list text) :=
  let children := [path_resolve1 h input] in
  ' (source, inputDir) <- readInput input ;;
  extractChildren fuel source inputDir children.

End Reader.

(** ** A concrete host

    The examples run on a host put together from models of the library
    functions: POSIX [path.resolve] and [path.dirname], a file system given
    as a table from absolute paths to contents, [JSON.parse] on the JSON
    texts without string escapes whose numbers are integers, and the
    Handlebars expressions [{{path}}] and [{{> name}}] in literal text
    (without the whitespace control of stand-alone lines). *)

Module Posix.

Definition slash : N := 47.

Fixpoint split (s : text) : list text :=
  match s with
  | [] => [[]]
  | c :: s' =>
      if (c =? slash)%N then [] :: split s'
      else match split s' with
           | seg :: segs => (c :: seg) :: segs
           | [] => [[c]]
           end
  end.

(** [normalizeString] for an absolute path: empty segments and [.] are
    dropped, [..] removes the segment before it. *)
Definition normalize (segs : list text) : list text :=
  fold_left
    (fun acc seg =>
       if text_eqb seg [] || text_eqb seg (str ".") then acc
       else if text_eqb seg (str "..") then removelast acc
       else acc ++ [seg])
    segs [].

Definition join (segs : list text) : text :=
  match segs with
  | [] => [slash]
  | _ => flat_map (fun seg => slash :: seg) segs
  end.

Definition isAbsolute (p : text) : bool :=
  match p with
  | c :: _ => (c =? slash)%N
  | [] => false
  end.

(** [path.resolve(a, b)] in the working directory [cwd], itself absolute:
    the arguments are taken from the right until the path is absolute. *)
Definition resolve (cwd a b : text) : text :=
  let p :=
    if isAbsolute b then b
    else if isAbsolute a then a ++ [slash] ++ b
    else cwd ++ [slash] ++ a ++ [slash] ++ b in
  join (normalize (split p)).

Definition resolve1 (cwd a : text) : text := resolve cwd a [].

Fixpoint dropSlashes (r : text) : text :=
  match r with
  | c :: r' => if (c =? slash)%N then dropSlashes r' else r
  | [] => []
  end.

Fixpoint dropSegment (r : text) : text :=
  match r with
  | c :: r' => if (c =? slash)%N then r else dropSegment r'
  | [] => []
  end.

(** [path.dirname]: the scan runs from the end of the path down to its
    second unit, over the trailing slashes and the last segment, and
    stops at the slash before it. *)
Definition dirname (p : text) : text :=
  match p with
  | [] => str "."
  | c :: p' =>
      match dropSegment (dropSlashes (rev p')) with
      | [] => if (c =? slash)%N then [slash] else str "."
      | _ :: rest =>
          match rest with
          | [] => if (c =? slash)%N then [slash; slash] else [c]
          | _ => c :: rev rest
          end
      end
  end.

End Posix.

Module MiniJson.

Definition isSpace (c : N) : bool :=
  ((c =? 32) || (c =? 9) || (c =? 10) || (c =? 13))%N.

Fixpoint skipSpace (s : text) : text :=
  match s with
  | c :: s' => if isSpace c then skipSpace s' else s
  | [] => []
  end.

(** [strip p s]: what follows [p] when [s] starts with [p]. *)
Fixpoint strip (p s : text) : option text :=
  match p, s with
  | [], _ => Some s
  | a :: p', b :: s' => if (a =? b)%N then strip p' s' else None
  | _ :: _, [] => None
  end.

(** The units of a string up to its closing quote; escapes and control
    characters are not in the fragment. *)
Fixpoint stringBody (s : text) : option (text * text) :=
  match s with
  | [] => None
  | c :: s' =>
      if (c =? 34)%N then Some ([], s')
      else if ((c =? 92) || (c <? 32))%N then None
      else match stringBody s' with
           | Some (b, rest) => Some (c :: b, rest)
           | None => None
           end
  end.

Fixpoint digits (s : text) (acc : N) : N * text :=
  match s with
  | c :: s' => if isDigit c then digits s' (acc * 10 + (c - 48))%N else (acc, s)
  | [] => (acc, [])
  end.

(** An integer literal: no leading zero, no fraction, no exponent. *)
Definition natural (s : text) : option (N * text) :=
  match s with
  | c :: s' =>
      if isDigit c then
        let '(n, rest) := digits s 0 in
        match rest with
        | d :: _ =>
            if ((d =? 46) || (d =? 101) || (d =? 69))%N then None
            else if (c =? 48)%N && negb (length rest =? length s')
                 then None
                 else Some (n, rest)
        | [] =>
            if (c =? 48)%N && negb (length rest =? length s')
            then None else Some (n, rest)
        end
      else None
  | [] => None
  end.

Definition number (s : text) : option (json * text) :=
  match s with
  | c :: s' =>
      if (c =? 45)%N then
        match natural s' with
        | Some (n, rest) => Some (JNum (- Z.of_N n), rest)
        | None => None
        end
      else
        match natural s with
        | Some (n, rest) => Some (JNum (Z.of_N n), rest)
        | None => None
        end
  | [] => None
  end.

(** Values separated by commas, up to the closing bracket. *)
Fixpoint elements (value : text -> option (json * text)) (n : nat)
         (s : text) : option (list json * text) :=
  match n with
  | O => None
  | S n' =>
      match value s with
      | Some (v, rest) =>
          match skipSpace rest with
          | c :: rest' =>
              if (c =? 44)%N then
                match elements value n' rest' with
                | Some (vs, r) => Some (v :: vs, r)
                | None => None
                end
              else if (c =? 93)%N then Some ([v], rest')
              else None
          | [] => None
          end
      | None => None
      end
  end.

(** Members separated by commas, up to the closing brace; a repeated key
    keeps its last value. *)
Fixpoint members (value : text -> option (json * text)) (n : nat)
         (s : text) (acc : fields) : option (fields * text) :=
  match n with
  | O => None
  | S n' =>
      match skipSpace s with
      | q :: s1 =>
          if (q =? 34)%N then
            match stringBody s1 with
            | Some (key, s2) =>
                match skipSpace s2 with
                | colon :: s3 =>
                    if (colon =? 58)%N then
                      match value s3 with
                      | Some (v, rest) =>
                          match skipSpace rest with
                          | c :: rest' =>
                              if (c =? 44)%N then
                                members value n' rest' (Obj.set key v acc)
                              else if (c =? 125)%N then
                                Some (Obj.set key v acc, rest')
                              else None
                          | [] => None
                          end
                      | None => None
                      end
                    else None
                | [] => None
                end
            | None => None
            end
          else None
      | [] => None
      end
  end.

Fixpoint value (fuel : nat) (s : text) : option (json * text) :=
  match fuel with
  | O => None
  | S fuel' =>
      match skipSpace s with
      | [] => None
      | c :: rest =>
          if (c =? 34)%N then
            match stringBody rest with
            | Some (b, r) => Some (JStr b, r)
            | None => None
            end
          else if (c =? 91)%N then
            match skipSpace rest with
            | d :: r =>
                if (d =? 93)%N then Some (JArr [], r)
                else match elements (value fuel') (length rest) rest with
                     | Some (vs, r') => Some (JArr vs, r')
                     | None => None
                     end
            | [] => None
            end
          else if (c =? 123)%N then
            match skipSpace rest with
            | d :: r =>
                if (d =? 125)%N then Some (JObj [], r)
                else match members (value fuel') (length rest) rest [] with
                     | Some (fs, r') => Some (JObj fs, r')
                     | None => None
                     end
            | [] => None
            end
          else
            match strip (str "null") (c :: rest) with
            | Some r => Some (JNull, r)
            | None =>
                match strip (str "true") (c :: rest) with
                | Some r => Some (JBool true, r)
                | None =>
                    match strip (str "false") (c :: rest) with
                    | Some r => Some (JBool false, r)
                    | None => number (c :: rest)
                    end
                end
            end
      end
  end.

Definition parse (s : text) : option json :=
  match value (S (length s)) s with
  | Some (v, rest) =>
      match skipSpace rest with
      | [] => Some v
      | _ :: _ => None
      end
  | None => None
  end.

End MiniJson.

Module MiniHandlebars.

Fixpoint trimLeft (s : text) : text :=
  match s with
  | c :: s' => if (c =? 32)%N then trimLeft s' else s
  | [] => []
  end.

Definition trim (s : text) : text := rev (trimLeft (rev (trimLeft s))).

(** The tag up to the closing braces, and the number of units taken,
    closing braces included. *)
Fixpoint closeTag (s : text) : option (text * nat) :=
  match s with
  | [] => None
  | c :: s' =>
      match s' with
      | d :: _ =>
          if ((c =? 125) && (d =? 125))%N then Some ([], 2)
          else match closeTag s' with
               | Some (tag, n) => Some (c :: tag, S n)
               | None => None
               end
      | [] => None
      end
  end.

Fixpoint splitDot (s : text) : list text :=
  match s with
  | [] => [[]]
  | c :: s' =>
      if (c =? 46)%N then [] :: splitDot s'
      else match splitDot s' with
           | seg :: segs => (c :: seg) :: segs
           | [] => [[c]]
           end
  end.

Fixpoint lookup (path : list text) (v : json) : option json :=
  match path with
  | [] => Some v
  | seg :: path' =>
      match v with
      | JObj fs =>
          match Obj.get seg fs with
          | Some v' => lookup path' v'
          | None => None
          end
      | _ => None
      end
  end.

Definition decZ (z : Z) : text :=
  match z with
  | Zneg p => 45%N :: dec (Npos p)
  | _ => dec (Z.to_N z)
  end.

(** String conversion of a value written to the output. *)
Fixpoint toText (v : json) : text :=
  match v with
  | JNull => []
  | JBool true => str "true"
  | JBool false => str "false"
  | JNum z => decZ z
  | JStr s => s
  | JArr items =>
      (fix commas (l : list json) : text :=
         match l with
         | [] => []
         | [x] => toText x
         | x :: l' => toText x ++ 44%N :: commas l'
         end) items
  | JObj _ => str "[object Object]"
  end.

(** The helpers registered by [createHandlebars]. *)
Fixpoint joinItems (items : list json) : text :=
  match items with
  | [] => []
  | [x] => toText x
  | x :: items' => toText x ++ str ", " ++ joinItems items'
  end.

Definition upcase (s : text) : text :=
  map (fun c => if ((97 <=? c) && (c <=? 122))%N then (c - 32)%N else c) s.

Definition evalTag (partial : text -> option text) (ctx : fields)
           (partials : Obj.t text) (tag : text) : option text :=
  let tag := trim tag in
  match tag with
  | c :: rest =>
      if (c =? 62)%N then
        match Obj.get (trim rest) partials with
        | Some body => partial body
        | None => None
        end
      else
        match MiniJson.strip (str "join ") tag with
        | Some arg =>
            match lookup (splitDot (trim arg)) (JObj ctx) with
            | Some (JArr items) => Some (joinItems items)
            | _ => None
            end
        | None =>
            match MiniJson.strip (str "upcase ") tag with
            | Some arg =>
                match lookup (splitDot (trim arg)) (JObj ctx) with
                | Some (JStr s) => Some (upcase s)
                | _ => None
                end
            | None =>
                match lookup (splitDot tag) (JObj ctx) with
                | Some v => Some (toText v)
                | None => Some []
                end
            end
        end
  | [] => None
  end.

(** Rendering: [depth] bounds the nesting of partials. *)
Fixpoint render (depth : nat) (source : text) (partials : Obj.t text)
         (ctx : fields) {struct depth} : option text :=
  match depth with
  | O => None
  | S depth' =>
      (fix scan (s : text) (skip : nat) {struct s} : option text :=
         match s with
         | [] => Some []
         | c :: s' =>
             match skip with
             | S k => scan s' k
             | O =>
                 match MiniJson.strip (str "{{") s with
                 | Some body =>
                     match closeTag body with
                     | Some (tag, n) =>
                         match evalTag
                                 (fun b => render depth' b partials ctx)
                                 ctx partials tag with
                         | Some out =>
                             match scan s' (S n) with
                             | Some rest => Some (out ++ rest)
                             | None => None
                             end
                         | None => None
                         end
                     | None => None
                     end
                 | None =>
                     match scan s' 0 with
                     | Some rest => Some (c :: rest)
                     | None => None
                     end
                 end
             end
         end) source 0
  end.

End MiniHandlebars.

(** The host with working directory [cwd] and the files of the table
    [files], keyed by absolute path. *)
Definition host (cwd : text) (files : Obj.t text) : Host :=
  {| path_resolve := Posix.resolve cwd;
     path_resolve1 := Posix.resolve1 cwd;
     path_dirname := Posix.dirname;
     fs_read := fun p => Obj.get (Posix.resolve1 cwd p) files;
     JSON_parse := MiniJson.parse;
     hb_render := MiniHandlebars.render 64 |}.

(** ** The walks, told from the outside

    What the specification says of the walks is stated on a tree of files
    given as data.  A node stands for one partial directive: its reference
    string, the path of the file it names, the nodes of the partial
    directives of that file, and the paths of the seed directives of that
    file. *)
Inductive tree :=
| Node (ref file : text) (partials : list tree) (seeds : list text).

Definition t_ref (t : tree) : text := let 'Node r _ _ _ := t in r.
Definition t_file (t : tree) : text := let 'Node _ f _ _ := t in f.
Definition t_partials (t : tree) : list tree := let 'Node _ _ ps _ := t in ps.

(** The depth of the nesting of partials. *)
Fixpoint depth (t : tree) : nat :=
  match t with
  | Node _ _ ps _ => S (list_max (map depth ps))
  end.




(** The files rendered for a partial directive, in order, and the
    reference strings met: those of the partials of its file first. *)
Fixpoint rendered (t : tree) : list text :=
  match t with
  | Node _ f ps _ => flat_map rendered ps ++ [f]
  end.

Fixpoint refsOf (t : tree) : list text :=
  match t with
  | Node r _ ps _ => flat_map refsOf ps ++ [r]
  end.

Section Walks.

Variable h : Host.


(** [renderOf data dir ps]: for the rendering walk, the normalized text
    [data] in the directory [dir] has the partial directives [ps], every
    file of the tree can be read and its seeds can be loaded, and so on
    below.  (The seeds of the nodes play no part here.) *)
Inductive renderOf : text -> text -> list tree -> Prop :=
| renderOf_intro (data dir : text) (ps : list tree) :
    Forall2
      (fun item p =>
         t_ref p = item1 item
         /\ t_file p = path_resolve h dir (item1 item)
         /\ exists content seeds,
              fs_read h (t_file p) = Some content
              /\ loadSeeds h content (path_dirname h (t_file p)) = Ok seeds
              /\ renderOf (rewriteSource content) (path_dirname h (t_file p))
                   (t_partials p))
      (extractPartials data) ps ->
    renderOf data dir ps.

(** The partial files that the rendering walk of a text comes to, each
    with its directory. *)
Inductive reaches : text -> text -> text -> text -> Prop :=
| reaches_direct (data dir : text) (item : list text) (content : text) :
    In item (extractPartials data) ->
    fs_read h (path_resolve h dir (item1 item)) = Some content ->
    reaches data dir content
      (path_dirname h (path_resolve h dir (item1 item)))
| reaches_below (data dir content1 dir1 content2 dir2 : text) :
    reaches data dir content1 dir1 ->
    reaches (rewriteSource content1) dir1 content2 dir2 ->
    reaches data dir content2 dir2.

(** The partials of a text are nested at most [d] deep: a file that can
    be read holds partials nested at most [d - 1] deep. *)
Fixpoint nested (d : nat) (data dir : text) {struct d} : Prop :=
  forall item content,
    In item (extractPartials data) ->
    fs_read h (path_resolve h dir (item1 item)) = Some content ->
    match d with
    | O => False
    | S d' =>
        nested d' (rewriteSource content)
          (path_dirname h (path_resolve h dir (item1 item)))
    end.

(** A seed directive whose file is read and parsed. *)
Definition seedLoads (inputDir : text) (item : list text) : Prop :=
  exists content data,
    fs_read h (path_resolve h inputDir (item1 item)) = Some content
    /\ JSON_parse h content = Some data.

End Walks.

(** ** Example file trees *)

Module Scenario.

(** The scenario of the specification: the root declares the seed
    [a.json] and includes [child.txt], which declares the seed [b.json]. *)
Definition files : Obj.t text :=
  [ (str "/doc/root.txt",
     str "<!-- seed(a.json) -->" ++ [NL] ++ str "{{> child.txt}}");
    (str "/doc/a.json", strq "{'x':1,'y':1}");
    (str "/doc/child.txt", str "<!-- seed(b.json) -->Hello {{x}}");
    (str "/doc/b.json", strq "{'x':2,'z':2}") ].

Definition h : Host := host (str "/doc") files.

Definition root : text :=
  str "<!-- seed(a.json) -->" ++ [NL] ++ str "{{> child.txt}}".

(** Two seeds in one file, with the keys [x] and [o] in common. *)
Definition seedFiles : Obj.t text :=
  [ (str "/doc/a.json", strq "{'x':1,'y':1,'o':{'p':1,'q':1}}");
    (str "/doc/b.json", strq "{'x':2,'z':2,'o':{'q':2,'r':2}}");
    (str "/doc/bad.json", strq "{'x':");
    (str "/doc/ta.json", strq "{'t':[1]}");
    (str "/doc/tb.json", strq "{'t':[7,8,9]}") ].

Definition hs : Host := host (str "/doc") seedFiles.

Definition twoSeeds : text :=
  str "<!-- seed(a.json) -->" ++ [NL] ++ str "<!-- seed(b.json) -->".

Definition seedA : fields :=
  [ (str "x", JNum 1); (str "y", JNum 1);
    (str "o", JObj [(str "p", JNum 1); (str "q", JNum 1)]) ].

Definition seedB : fields :=
  [ (str "x", JNum 2); (str "z", JNum 2);
    (str "o", JObj [(str "q", JNum 2); (str "r", JNum 2)]) ].

(** Two seeds that hold an array under the same key. *)
Definition arraySeeds : text :=
  str "<!-- seed(ta.json) -->" ++ [NL] ++ str "<!-- seed(tb.json) -->".

Definition missingSeed : text :=
  str "<!-- seed(a.json) -->" ++ [NL] ++ str "<!-- seed(missing.json) -->".

Definition badSeed : text :=
  str "<!-- seed(bad.json) -->" ++ [NL] ++ str "<!-- seed(a.json) -->".

(** A root that includes [p.txt] twice and [q.txt], which includes
    [sub/r.txt] and declares a seed that is never read by the
    dependency walk. *)
Definition treeFiles : Obj.t text :=
  [ (str "/doc/root.txt",
     str "{{> p.txt}}" ++ [NL] ++ str "{{> q.txt}}" ++ [NL]
         ++ str "{{> p.txt}}");
    (str "/doc/p.txt", str "P");
    (str "/doc/q.txt", str "Q {{> sub/r.txt}} end");
    (str "/doc/sub/r.txt", str "R");
    (str "/doc/leaf.txt", str "no references");
    (str "/doc/one.txt", str "{{> inner.txt}}");
    (str "/doc/inner.txt", str "<!-- seed(data/s.json) -->") ].

Definition ht : Host := host (str "/doc") treeFiles.

Definition treeRoot : text :=
  str "{{> p.txt}}" ++ [NL] ++ str "{{> q.txt}}" ++ [NL] ++ str "{{> p.txt}}".

Definition emptyWalk : walk := {| w_seeds := []; w_rendered := [] |}.

(** A root whose second partial declares a seed that does not exist. *)
Definition listRoot : text :=
  str "{{> fine.txt}}" ++ [NL] ++ str "{{> late.txt}}".

Definition listFiles : Obj.t text :=
  [ (str "/doc/list.txt", listRoot);
    (str "/doc/fine.txt", str "fine");
    (str "/doc/late.txt", str "<!-- seed(none.json) -->late") ].

Definition hf : Host := host (str "/doc") listFiles.

(** A root whose partial declares, with the quoted-helper spelling, a
    seed file that does not exist. *)
Definition helperFiles : Obj.t text :=
  [ (str "/doc/top.txt", str "{{> part.txt}}");
    (str "/doc/part.txt", strq "{{seed 'missing.json'}}Hello") ].

Definition hm : Host := host (str "/doc") helperFiles.






(** The tree of the partial directives of [treeRoot]. *)
Definition nodeP : tree := Node (str "p.txt") (str "/doc/p.txt") [] [].
Definition nodeR : tree := Node (str "sub/r.txt") (str "/doc/sub/r.txt") [] [].
Definition nodeQ : tree := Node (str "q.txt") (str "/doc/q.txt") [nodeR] [].
Definition treeNodes : list tree := [nodeP; nodeQ; nodeP].

Definition treePartials : Obj.t text :=
  [ (str "p.txt", str "P" ++ [NL]);
    (str "sub/r.txt", str "R" ++ [NL]);
    (str "q.txt", str "Q R" ++ [NL] ++ str " end" ++ [NL]) ].

Definition treeWalk : walk :=
  {| w_seeds := [];
     w_rendered :=
       [ str "/doc/p.txt"; str "/doc/sub/r.txt"; str "/doc/q.txt";
         str "/doc/p.txt" ] |}.

End Scenario.

(** The quoted-helper spelling of a seed directive. *)
Definition helperSeed (ref : text) : text :=
  strq "{{seed '" ++ ref ++ strq "'}}".

(** A reference on one line: not empty, without line terminators. *)
Definition lineRef (ref : text) : bool :=
  match ref with
  | [] => false
  | _ :: _ => forallb (fun c => negb (isLineTerminator c)) ref
  end.

Module Loop.

(** A file that includes itself. *)
Definition files : Obj.t text :=
  [ (str "/doc/loop.txt", str "again {{> loop.txt}}");
    (str "/doc/legacy.txt", strq "{{seed 'a.json'}}Hi {{x}}");
    (str "/doc/a.json", strq "{'x':1}");
    (str "/doc/first.txt", str "<!-- seed(a.json) -->one {{x}}{{y}}");
    (str "/doc/second.txt", str "<!-- seed(b.json) -->two {{x}}{{y}}");
    (str "/doc/b.json", strq "{'y':2}") ].

Definition h : Host := host (str "/doc") files.

End Loop.

(** ** The helpers of the winter template ([templates/winter/util.js]) *)

Module Winter.

(** An action, as far as the helpers look at it: the three texts that the
    filter reads, and the rest of the object. *)
Record action := {
  act_path : text;
  act_method : text;
  act_title : text;
  act_rest : json
}.

Record child := { child_title : text; child_actions : list action }.

Record tag := { tag_title : text; tag_children : list child }.

(** [x.match(regex)] is used for its truth value only; [matches] is that
    truth value for the regular expression given by the caller. *)
Definition actionFilter (matches : text -> bool) (act : action) : bool :=
  matches (act_path act) || matches (act_method act)
  || matches (act_title act).

(** [filteredItem]: [false] for an empty list, a new object with the
    title and the items otherwise. *)
Definition filteredItem {A B} (make : text -> list A -> B) (title : text)
           (items : list A) : option B :=
  match items with
  | [] => None
  | _ :: _ => Some (make title items)
  end.

(** [.filter(Boolean)] on a list of objects and [false]s. *)
Definition compact {A} (l : list (option A)) : list A :=
  flat_map (fun o => match o with Some x => [x] | None => [] end) l.

(** The two callbacks of [filterActions]: for a child, its actions that
    pass the filter; for a tag, its children that are left. *)
Definition keepChild (matches : text -> bool) (c : child) : option child :=
  let actions := filter (actionFilter matches) (child_actions c) in
  filteredItem Build_child (child_title c) actions.

Definition keepTag (matches : text -> bool) (t : tag) : option tag :=
  let children := map (keepChild matches) (tag_children t) in
  filteredItem Build_tag (tag_title t) (compact children).

Definition filterActions (tagActions : list tag) (matches : text -> bool)
  : list tag :=
  compact (map (keepTag matches) tagActions).

(** [String.prototype.endsWith]. *)
Definition endsWith (s suffix : text) : bool :=
  match MiniJson.strip (rev suffix) (rev s) with
  | Some _ => true
  | None => false
  end.

(** [basePath], on the [basePath] field of the configuration. *)
Definition basePath (configBasePath : text) : text :=
  if endsWith configBasePath (str "/") then configBasePath
  else configBasePath ++ str "/".

(** [alias]: [None] stands for an undefined or null argument; the
    string pattern of [match] is searched anywhere in the text. *)
Definition alias (s : option text) : text :=
  match s with
  | Some (c :: t) =>
      if occurs (lit "json") (c :: t) then str "json" else str "markup"
  | _ => str "markup"
  end.

(** An entry of the header and parameter lists of the playground. *)
Record entry (V : Type) := {
  used : bool;
  name : text;
  value : V
}.

Arguments used {V} e.
Arguments name {V} e.
Arguments value {V} e.

(** [populate]: the assignments [prev[cur.name] = cur.value] of the
    entries in use.  (An entry named [__proto__] makes no property; when
    its value is an object or null it replaces the prototype of the
    result, which the model does not follow.) *)
Definition populate {V} (arr : list (entry V)) : Obj.t V :=
  fold_left (fun prev cur => Obj.assign (name cur) (value cur) prev)
            (filter used arr) [].

(** A token of [marked.lexer], as far as [toc] reads it. *)
Record token := {
  tok_type : text;
  tok_text : text;
  tok_depth : Z
}.

Record heading := { head_text : text; head_level : Z }.

(** [Math.min] of the depths; of no depth at all it is [Infinity], which
    [toc] never uses, having no heading to map then. *)
Fixpoint minDepth (depths : list Z) : option Z :=
  match depths with
  | [] => None
  | d :: depths' =>
      match minDepth depths' with
      | Some m => Some (Z.min d m)
      | None => Some d
      end
  end.

Definition toc (lexer : text -> list token) (source : option text)
  : list heading :=
  match source with
  | Some (c :: s) =>
      let tokens := lexer (c :: s) in
      let headings :=
        filter (fun elem => text_eqb (tok_type elem) (str "heading")) tokens in
      let depths := map tok_depth headings in
      match minDepth depths with
      | Some m =>
          map (fun head => {| head_text := tok_text head;
                              head_level := tok_depth head - m |}) headings
      | None => []
      end
  | _ => []
  end.

End Winter.

(** [htmlBasePath] of the HTML packer, on the [basePath] field. *)
Definition htmlBasePath (configBasePath : text) : text :=
  if Winter.endsWith configBasePath (str "/") then configBasePath
  else configBasePath ++ str "/".

Module WinterExample.

Import Winter.

Definition getUsers : action :=
  {| act_path := str "/users"; act_method := str "get";
     act_title := str "List users"; act_rest := JNull |}.

Definition postOrder : action :=
  {| act_path := str "/orders"; act_method := str "post";
     act_title := str "Create order"; act_rest := JNull |}.

Definition tags : list tag :=
  [ {| tag_title := str "Accounts";
       tag_children :=
         [ {| child_title := str "Users"; child_actions := [getUsers] |};
           {| child_title := str "Orders"; child_actions := [postOrder] |} ] |};
    {| tag_title := str "Shop";
       tag_children :=
         [ {| child_title := str "Orders"; child_actions := [postOrder] |} ] |} ].

(** The truth value of [x.match(/user/)]. *)
Definition user (t : text) : bool := occurs (lit "user") t.

Definition headers : list (entry text) :=
  [ {| used := true; name := str "Accept"; value := str "text/html" |};
    {| used := false; name := str "X-Debug"; value := str "1" |};
    {| used := true; name := str "Accept"; value := str "application/json" |} ].

(** A lexer result: two headings around a paragraph. *)
Definition lexer (source : text) : list token :=
  [ {| tok_type := str "heading"; tok_text := str "API"; tok_depth := 2 |};
    {| tok_type := str "paragraph"; tok_text := str "text"; tok_depth := 0 |};
    {| tok_type := str "heading"; tok_text := str "Users"; tok_depth := 3 |} ].

End WinterExample.

(** ** Legacy template expressions *)

(** A simple field name: not empty, without white space and without the
    units [<], [{], not starting with a dot. *)
Definition nameUnit (c : N) : bool :=
  negb (isWhiteSpace c) && negb (c =? 60)%N && negb (c =? 123)%N.

Definition plainName (a : text) : bool :=
  match a with
  | [] => false
  | c :: _ => negb (c =? 46)%N && forallb nameUnit a
  end.

(** A non-empty run of decimal digits. *)
Definition digitRun (n : text) : bool :=
  match n with
  | [] => false
  | _ :: _ => forallb isDigit n
  end.

(** ** Canonical syntax

    The specification calls canonical the one spelling that every legacy
    spelling is rewritten into, and its section on the normalizer lists the
    forms: the partial reference, the seed comment, the dotted path (or
    bare field access), the join call without separator and the upcase
    call.  A canonical text is told here by that list: a sequence of
    ordinary text and of directives in these forms. *)
Inductive segment :=
| Plain (t : text)            (* ordinary text *)
| PartialRef (ref : text)     (* a partial reference *)
| SeedComment (ref : text)    (* a seed comment *)
| Field (path : text)         (* a field access or dotted path *)
| JoinCall (path : text)      (* a join call without separator *)
| UpcaseCall (path : text).   (* an upcase call *)

Definition show (g : segment) : text :=
  match g with
  | Plain t => t
  | PartialRef ref => canonicalPartial ref
  | SeedComment ref => seedMarker ref
  | Field path => str "{{" ++ path ++ str "}}"
  | JoinCall path => str "{{join " ++ path ++ str "}}"
  | UpcaseCall path => str "{{upcase " ++ path ++ str "}}"
  end.

Definition showAll (d : list segment) : text := flat_map show d.

(** Ordinary text holds no unit that opens a directive and no double
    quote; a reference is a plain reference and a path a plain name, both
    without double quote. *)
Definition textUnit (c : N) : bool :=
  negb (c =? 60)%N && negb (c =? 123)%N && negb (c =? 34)%N.

Definition wellFormed (g : segment) : bool :=
  match g with
  | Plain t => forallb textUnit t
  | PartialRef ref | SeedComment ref => plainRef ref && forallb textUnit ref
  | Field path | JoinCall path | UpcaseCall path =>
      plainName path && forallb textUnit path
  end.

Definition canonicalText (d : list segment) : bool := forallb wellFormed d.

(** The other reading of canonical, by the glossary of the specification
    alone: a text that the normalizer gives for some input. *)
Definition normalForm (t : text) : Prop :=
  exists s, rewriteSource s = t ++ [NL].

Definition leadingDot (a : text) : text := str "{{." ++ a ++ str "}}".
Definition upcasePipe (a : text) : text := str "{{." ++ a ++ str " | upcase}}".
(** The old join helper, with or without a space after the comma. *)
Definition joinSeparator (a : text) (spaced : bool) : text :=
  str "{{join ." ++ a
      ++ (if spaced then strq " ', '}}" else strq " ','}}").
Definition withIndex (a n c : text) : text :=
  str "{{with index ." ++ a ++ strq " '" ++ n ++ strq "'}}{{." ++ c
      ++ str "}}{{end}}".
Definition joinEnd (spaced : bool) : text :=
  if spaced then strq " ', '}}{{end}}" else strq " ','}}{{end}}".
Definition withIndexJoin (a n c : text) (spaced : bool) : text :=
  str "{{with index ." ++ a ++ strq " '" ++ n ++ strq "'}}{{join ." ++ c
      ++ joinEnd spaced.
Definition withIndex2 (a n b m c : text) : text :=
  str "{{with index ." ++ a ++ strq " '" ++ n
      ++ strq "'}}{{with index ." ++ b ++ strq " '" ++ m ++ strq "'}}{{."
      ++ c ++ str "}}{{end}}{{end}}".

(** The parts of the indexed-lookup patterns that follow their groups, and
    the texts they are matched with. *)
Module Tail.

Definition end1 : regex := lit "}}" ++ OptSpace :: lit "{{end}}".
Definition field1 : regex :=
  litq "'}}" ++ OptSpace :: lit "{{." ++ Group Dot :: end1.
Definition digits1 : regex := litq " '" ++ Group Digit :: field1.

Definition endJoin : regex :=
  litq " '," ++ OptSpace :: litq "'}}" ++ OptSpace :: lit "{{end}}".
Definition fieldJoin : regex :=
  litq "'}}" ++ OptSpace :: lit "{{join ." ++ Group Dot :: endJoin.
Definition digitsJoin : regex := litq " '" ++ Group Digit :: fieldJoin.

Definition end2 : regex := lit "}}" ++ OptSpace :: lit "{{end}}{{end}}".
Definition field2 : regex :=
  litq "'}}" ++ OptSpace :: lit "{{." ++ Group Dot :: end2.
Definition digits2 : regex := litq " '" ++ Group Digit :: field2.
Definition second2 : regex :=
  litq "'}}{{with index ." ++ Group Dot :: digits2.
Definition first2 : regex := litq " '" ++ Group Digit :: second2.

End Tail.
(** ** Lemmas on matching and replacing *)

#[local] Arguments N.eqb : simpl never.
#[local] Arguments N.leb : simpl never.
#[local] Arguments isWhiteSpace : simpl never.
#[local] Arguments isLineTerminator : simpl never.
#[local] Arguments isDigit : simpl never.

Section ReplaceFacts.

Variable r : regex.
Variable tpl : list piece.

Lemma replace_go_skip (p s : text) :
  replace_go r tpl (p ++ s) (length p) = replace_go r tpl s 0.
Proof.
  induction p as [|c p IH]; simpl; auto.
Qed.

Lemma replace_nil : replace r tpl [] = [].
Proof. reflexivity. Qed.

Lemma replace_nomatch_cons (c : N) (s : text) :
  match_seq r (c :: s) = None ->
  replace r tpl (c :: s) = c :: replace r tpl s.
Proof.
  intros H. unfold replace. simpl replace_go. rewrite H. reflexivity.
Qed.

Lemma replace_match (m s : text) (caps : list text) :
  m <> [] ->
  match_seq r (m ++ s) = Some (caps, length m) ->
  replace r tpl (m ++ s) = subst tpl caps ++ replace r tpl s.
Proof.
  intros Hm H. destruct m as [|c m]; [congruence|].
  unfold replace. simpl app in *. simpl replace_go. rewrite H.
  simpl length. simpl pred. now rewrite replace_go_skip.
Qed.

Lemma replace_no_occurrence (s : text) :
  occurs r s = false -> replace r tpl s = s.
Proof.
  induction s as [|c s IH]; intros H; [reflexivity|].
  simpl in H. destruct (match_seq r (c :: s)) eqn:E; [discriminate|].
  rewrite replace_nomatch_cons by assumption. now rewrite IH.
Qed.

Lemma matchAll_no_occurrence (s : text) :
  occurs r s = false -> matchAll s r = [].
Proof.
  unfold matchAll.
  induction s as [|c s IH]; intros H; [reflexivity|].
  simpl in H. simpl matchAll_go.
  destruct (match_seq r (c :: s)) eqn:E; [discriminate|]. auto.
Qed.

(** A pattern whose first atom is the literal [c0] cannot match at a unit
    other than [c0]. *)
Variable c0 : N.
Hypothesis r_head : hd_error r = Some (Chr c0).

Lemma match_head_ne (x : N) (s : text) :
  x <> c0 -> match_seq r (x :: s) = None.
Proof.
  intros Hx. destruct r as [|a r']; [discriminate|].
  simpl in r_head. injection r_head as ->. simpl.
  destruct (N.eqb_spec x c0); [contradiction|reflexivity].
Qed.

Lemma match_head_nil : match_seq r [] = None.
Proof.
  destruct r as [|a r']; [discriminate|].
  simpl in r_head. injection r_head as ->. reflexivity.
Qed.

Lemma replace_plain_app (p s : text) :
  Forall (fun x => x <> c0) p ->
  replace r tpl (p ++ s) = p ++ replace r tpl s.
Proof.
  induction 1 as [|x p Hx _ IH]; [reflexivity|].
  simpl app. rewrite replace_nomatch_cons by now apply match_head_ne.
  now rewrite IH.
Qed.

Lemma occurs_plain (p : text) :
  Forall (fun x => x <> c0) p -> occurs r p = false.
Proof.
  induction 1 as [|x p Hx _ IH]; [reflexivity|].
  simpl. now rewrite match_head_ne.
Qed.

End ReplaceFacts.

(** Greedy groups. *)
Section PlusFacts.

Variable test : N -> bool.
Variable k : text -> option found.

(** The group takes exactly [g] when every unit of [g] is in the class,
    no longer run leads to a match, and the continuation matches right
    after [g]. *)
Lemma plus_stop (g t : text) (caps : list text) (n : nat) :
  g <> [] ->
  Forall (fun c => test c = true) g ->
  plus test k t = None ->
  k t = Some (caps, n) ->
  plus test k (g ++ t) = Some (g, (caps, length g + n)).
Proof.
  intros Hg Hall Ht Hk. induction Hall as [|x g Hx Hall IH]; [congruence|].
  simpl. rewrite Hx. destruct g as [|y g].
  - simpl. rewrite Ht, Hk. reflexivity.
  - rewrite IH by discriminate. reflexivity.
Qed.

(** The group fails when the continuation fails after every non-empty
    prefix. *)
Lemma plus_none (t : text) :
  (forall i, 0 < i -> k (skipn i t) = None) ->
  plus test k t = None.
Proof.
  induction t as [|x t IH]; intros H; [reflexivity|].
  simpl. destruct (test x); [|reflexivity].
  rewrite IH.
  - specialize (H 1). simpl in H. now rewrite H by lia.
  - intros i Hi. specialize (H (S i)). simpl in H. apply H. lia.
Qed.

(** A successful group ends where its continuation matched. *)
Lemma plus_some (s g : text) (caps : list text) (n : nat) :
  plus test k s = Some (g, (caps, n)) ->
  exists i m, 0 < i /\ k (skipn i s) = Some (caps, m) /\ n = i + m.
Proof.
  revert g n. induction s as [|x s IH]; intros g n; [discriminate|].
  simpl. destruct (test x); [|discriminate].
  destruct (plus test k s) as [[g' [caps' n']]|] eqn:E.
  - intros [= _ <- <-]. destruct (IH _ _ eq_refl) as (i & m & Hi & Hk & ->).
    exists (S i), m. simpl. repeat split; auto; lia.
  - destruct (k s) as [[caps' n']|] eqn:Ek; [|discriminate].
    intros [= _ <- <-]. exists 1, n'. simpl. repeat split; auto.
Qed.

Lemma plus_within (s g : text) (caps : list text) (n : nat) :
  plus test k s = Some (g, (caps, n)) ->
  exists i m,
    0 < i <= length s /\ k (skipn i s) = Some (caps, m) /\ n = i + m.
Proof.
  revert g n. induction s as [|x s IH]; intros g n; [discriminate|].
  simpl. destruct (test x); [|discriminate].
  destruct (plus test k s) as [[g' [caps' n']]|] eqn:E.
  - intros [= _ <- <-].
    destruct (IH _ _ eq_refl) as (i & m & Hi & Hk & ->).
    exists (S i), m. simpl. repeat split; auto; lia.
  - destruct (k s) as [[caps' n']|] eqn:Ek; [|discriminate].
    intros [= _ <- <-]. exists 1, n'. simpl. repeat split; auto; lia.
Qed.

End PlusFacts.

Lemma ends_lit_cons (a : atom) (r : regex) :
  ends_lit (a :: r) = true ->
  (r = [] /\ exists c, a = Chr c /\ c <> NL) \/ ends_lit r = true.
Proof.
  simpl. destruct r as [|b r]; [|now right].
  destruct a; try discriminate. intros H. left. split; [reflexivity|].
  exists c. split; [reflexivity|].
  destruct (N.eqb_spec c NL); [discriminate|assumption].
Qed.

Lemma cls_test_NL (k : cls) : cls_test k NL = false.
Proof. destruct k; reflexivity. Qed.

Lemma ends_lit_nil (r : regex) : ends_lit r = true -> match_seq r [] = None.
Proof.
  induction r as [|a r IH]; [discriminate|].
  intros H. destruct (ends_lit_cons _ _ H) as [(-> & c & -> & _)|H'].
  - reflexivity.
  - destruct a; simpl; auto.
Qed.

Lemma match_before_nl (r : regex) :
  ends_lit r = true ->
  forall u caps n, match_seq r (u ++ [NL]) = Some (caps, n) -> n <= length u.
Proof.
  induction r as [|a r IH]; [discriminate|].
  intros H. destruct (ends_lit_cons _ _ H) as [(-> & c & -> & Hc)|H'].
  - intros [|x u] caps n; simpl.
    + destruct (N.eqb_spec NL c); [congruence|discriminate].
    + destruct (x =? c)%N; [|discriminate]. intros [= _ <-]. lia.
  - specialize (IH H'). pose proof (ends_lit_nil _ H') as Hnil.
    destruct a as [c| | |k]; intros u caps n.
    + destruct u as [|x u]; simpl.
      * destruct (NL =? c)%N; [|discriminate]. now rewrite Hnil.
      * destruct (x =? c)%N; [|discriminate].
        destruct (match_seq r (u ++ [NL])) as [[caps' n']|] eqn:E;
          [|discriminate].
        simpl. intros [= _ <-]. apply IH in E. lia.
    + destruct u as [|x u]; simpl.
      * rewrite Hnil. change (isWhiteSpace NL) with true. cbv iota.
        intros E. apply (IH []) in E. exact E.
      * destruct (isWhiteSpace x).
        -- destruct (match_seq r (u ++ [NL])) as [[caps' n']|] eqn:E.
           ++ intros [= _ <-]. apply IH in E. lia.
           ++ intros E'. apply (IH (x :: u)) in E'. exact E'.
        -- intros E'. apply (IH (x :: u)) in E'. exact E'.
    + destruct u as [|x u]; simpl.
      * discriminate.
      * destruct (negb (isLineTerminator x)); [|discriminate].
        destruct (match_seq r (u ++ [NL])) as [[caps' n']|] eqn:E;
          [|discriminate].
        simpl. intros [= _ <-]. apply IH in E. lia.
    + simpl.
      destruct (plus (cls_test k) (match_seq r) (u ++ [NL]))
        as [[g [caps' n']]|] eqn:E; [|discriminate].
      intros [= _ <-]. clear caps. revert g caps' n' E.
      induction u as [|x u IHu]; intros g caps' n'; simpl.
      * now rewrite cls_test_NL.
      * destruct (cls_test k x); [|discriminate].
        destruct (plus (cls_test k) (match_seq r) (u ++ [NL]))
          as [[g1 [caps1 n1]]|] eqn:E1.
        -- intros [= _ _ <-]. specialize (IHu _ _ _ eq_refl). lia.
        -- destruct (match_seq r (u ++ [NL])) as [[caps1 n1]|] eqn:E2;
             [|discriminate].
           intros [= _ _ <-]. apply IH in E2. lia.
Qed.

(** Literal prefixes. *)
Lemma match_lit_app (l : text) (r : regex) (s : text) :
  match_seq (map Chr l ++ r) (l ++ s) =
  match match_seq r s with
  | Some (caps, n) => Some (caps, length l + n)
  | None => None
  end.
Proof.
  induction l as [|c l IH]; simpl.
  - now destruct (match_seq r s) as [[caps n]|].
  - rewrite N.eqb_refl, IH. now destruct (match_seq r s) as [[caps n]|].
Qed.

Lemma match_lit_inv (l : text) (r : regex) (u : text) caps n :
  match_seq (map Chr l ++ r) u = Some (caps, n) ->
  exists m, match_seq r (skipn (length l) u) = Some (caps, m).
Proof.
  revert u n. induction l as [|c l IH]; intros u n; simpl.
  - intros H. now exists n.
  - destruct u as [|x u]; [discriminate|].
    destruct (x =? c)%N; [|discriminate].
    destruct (match_seq (map Chr l ++ r) u) as [[caps' n']|] eqn:E;
      [|discriminate].
    simpl. intros [= <- _]. exact (IH _ _ E).
Qed.

(** A literal that fails inside [p] still fails when [p] is followed by a
    unit that the rest of the literal does not contain. *)
Lemma lit_fail_ext (l : text) (r : regex) (c0 : N) :
  Forall (fun c => c <> c0) l ->
  forall p rest,
    match_seq (map Chr l) p = None ->
    match_seq (map Chr l ++ r) (p ++ c0 :: rest) = None.
Proof.
  induction 1 as [|c l Hc _ IH]; intros p rest; simpl; [discriminate|].
  destruct p as [|x p]; simpl.
  - destruct (N.eqb_spec c0 c); [congruence|reflexivity].
  - destruct (x =? c)%N; [|reflexivity].
    destruct (match_seq (map Chr l) p) as [[caps n]|] eqn:E; [discriminate|].
    intros _. now rewrite IH.
Qed.

Lemma occurs_cons (r : regex) (x : N) (s : text) :
  occurs r (x :: s) = false ->
  match_seq r (x :: s) = None /\ occurs r s = false.
Proof.
  simpl. destruct (match_seq r (x :: s)); [discriminate|auto].
Qed.

Lemma replace_before_opening (c0 : N) (l : text) (r : regex)
      (tpl : list piece) (pre rest : text) :
  Forall (fun c => c <> c0) l ->
  occurs (map Chr (c0 :: l)) pre = false ->
  replace (map Chr (c0 :: l) ++ r) tpl (pre ++ c0 :: rest) =
  pre ++ replace (map Chr (c0 :: l) ++ r) tpl (c0 :: rest).
Proof.
  intros Hl. induction pre as [|x pre IH]; [reflexivity|].
  intros Hpre. apply occurs_cons in Hpre. destruct Hpre as [E Hpre].
  simpl app. rewrite replace_nomatch_cons.
  - f_equal. exact (IH Hpre).
  - simpl in *. destruct (x =? c0)%N; [|reflexivity].
    destruct (match_seq (map Chr l) pre) as [[caps n]|] eqn:E';
      [discriminate|].
    now rewrite lit_fail_ext.
Qed.

Lemma occurs_none_all (r : regex) (c0 : N) (s : text) :
  hd_error r = Some (Chr c0) ->
  occurs r s = false -> forall i, match_seq r (skipn i s) = None.
Proof.
  intros Hh. induction s as [|x s IH]; intros H i.
  - destruct i; simpl; eapply match_head_nil; eauto.
  - simpl in H. destruct (match_seq r (x :: s)) eqn:E; [discriminate|].
    destruct i; simpl; auto.
Qed.

Lemma no_occurs_all (r : regex) (s : text) :
  (forall i, match_seq r (skipn i s) = None) -> occurs r s = false.
Proof.
  induction s as [|x s IH]; intros H; [reflexivity|].
  pose proof (H 0) as H0. simpl in H0. simpl. rewrite H0.
  apply IH. intros i. exact (H (S i)).
Qed.

(** The rules of [rewriteSource] all start and end with a literal. *)
Lemma rules_ends_lit : forallb (fun rule => ends_lit (fst rule)) rules = true.
Proof. reflexivity. Qed.

Lemma rules_head :
  forall rule, In rule rules ->
    hd_error (fst rule) = Some (Chr 60) \/ hd_error (fst rule) = Some (Chr 123).
Proof.
  intros rule H. simpl in H.
  repeat (destruct H as [<-|H]; [(now left) || (now right)|]).
  contradiction.
Qed.

(** *** The appended newline *)

(** A pattern that ends in a literal matches before a final newline as it
    matches without it. *)
Lemma plus_with_nl (k : cls) (r : regex) :
  (forall u, match_seq r (u ++ [NL]) = match_seq r u) ->
  forall u, plus (cls_test k) (match_seq r) (u ++ [NL])
            = plus (cls_test k) (match_seq r) u.
Proof.
  intros H. induction u as [|x u IH]; simpl.
  - now rewrite cls_test_NL.
  - now rewrite IH, H.
Qed.

Lemma match_with_nl (r : regex) :
  ends_lit r = true ->
  forall u, match_seq r (u ++ [NL]) = match_seq r u.
Proof.
  induction r as [|a r IH]; [discriminate|].
  intros H. destruct (ends_lit_cons _ _ H) as [(-> & c & -> & Hc)|H'].
  - intros [|x u]; simpl; [|reflexivity].
    destruct (N.eqb_spec NL c); [congruence|reflexivity].
  - specialize (IH H'). pose proof (ends_lit_nil _ H') as Hnil.
    destruct a as [c| | |k]; intros u.
    + destruct u as [|x u]; simpl.
      * destruct (NL =? c)%N; [|reflexivity]. now rewrite Hnil.
      * now rewrite IH.
    + destruct u as [|x u]; simpl.
      * rewrite Hnil. change (isWhiteSpace NL) with true. cbv iota.
        pose proof (IH []) as E. simpl in E. now rewrite E.
      * rewrite IH. pose proof (IH (x :: u)) as E. simpl in E.
        now rewrite E.
    + destruct u as [|x u]; simpl; [reflexivity|]. now rewrite IH.
    + simpl. now rewrite plus_with_nl.
Qed.

Lemma replace_with_nl (r : regex) (tpl : list piece) (c0 : N) :
  hd_error r = Some (Chr c0) -> ends_lit r = true ->
  forall u, replace r tpl (u ++ [NL]) = replace r tpl u ++ [NL].
Proof.
  intros Hh He. unfold replace.
  assert (G : forall u skip, skip <= length u ->
            replace_go r tpl (u ++ [NL]) skip
            = replace_go r tpl u skip ++ [NL]).
  { induction u as [|x u IH]; intros skip Hs; simpl in *.
    - assert (skip = 0) as -> by lia.
      pose proof (match_with_nl r He []) as E. simpl in E. rewrite E.
      now rewrite (ends_lit_nil _ He).
    - destruct skip as [|k]; [|apply IH; lia].
      pose proof (match_with_nl r He (x :: u)) as E. simpl in E.
      destruct (match_seq r (x :: u ++ [NL])) as [[caps n]|] eqn:M.
      + rewrite <- E.
        pose proof (@match_before_nl r He (x :: u) caps n M) as Hn.
        simpl in Hn. rewrite IH by lia. now rewrite app_assoc.
      + rewrite <- E. now rewrite IH by lia. }
  intros u. apply G. lia.
Qed.

Lemma fold_rules_with_nl (rs : list (regex * list piece)) :
  (forall rule, In rule rs ->
     ends_lit (fst rule) = true
     /\ exists c0, hd_error (fst rule) = Some (Chr c0)) ->
  forall u, fold_left apply_rule rs (u ++ [NL])
            = fold_left apply_rule rs u ++ [NL].
Proof.
  induction rs as [|rule rs IH]; intros H u; [reflexivity|].
  simpl. destruct (H rule (or_introl eq_refl)) as [He [c0 Hh]].
  unfold apply_rule at 2 4. rewrite (replace_with_nl _ _ Hh He).
  apply IH. intros rule' Hin. apply H. now right.
Qed.

(** *** What a replacement keeps *)

Lemma match_groups (r : regex) :
  forall u caps n, match_seq r u = Some (caps, n) -> length caps = groups r.
Proof.
  induction r as [|a r IH]; intros u caps n; simpl.
  - now intros [= <- _].
  - destruct a as [c| | |k].
    + destruct u as [|x u]; [discriminate|].
      destruct (x =? c)%N; [|discriminate].
      destruct (match_seq r u) as [[caps' n']|] eqn:E; [|discriminate].
      simpl. intros [= <- _]. eauto.
    + destruct u as [|x u]; [eauto|].
      destruct (isWhiteSpace x); [|eauto].
      destruct (match_seq r u) as [[caps' n']|] eqn:E; [|eauto].
      intros [= <- _]. eauto.
    + destruct u as [|x u]; [discriminate|].
      destruct (negb (isLineTerminator x)); [|discriminate].
      destruct (match_seq r u) as [[caps' n']|] eqn:E; [|discriminate].
      simpl. intros [= <- _]. eauto.
    + destruct (plus (cls_test k) (match_seq r) u) as [[g [caps' n']]|] eqn:E;
        [|discriminate].
      intros [= <- _]. simpl. f_equal.
      apply plus_some in E. destruct E as (j & m & _ & Hk & _). eauto.
Qed.

Lemma replace_nonempty (r : regex) (tpl : list piece) :
  (forall caps, subst tpl caps <> []) ->
  forall s, s <> [] -> replace r tpl s <> [].
Proof.
  intros Ht [|x s] Hs; [congruence|]. unfold replace. simpl.
  destruct (match_seq r (x :: s)) as [[caps n]|]; [|discriminate].
  intros E. apply app_eq_nil in E. now apply (Ht caps).
Qed.

Lemma rules_replacement_nonempty :
  forall rule, In rule rules -> forall caps, subst (snd rule) caps <> [].
Proof.
  intros rule H caps. simpl in H.
  repeat (destruct H as [<-|H]; [discriminate|]). contradiction.
Qed.

Lemma fold_rules_nonempty (rs : list (regex * list piece)) :
  (forall rule, In rule rs -> forall caps, subst (snd rule) caps <> []) ->
  forall s, s <> [] -> fold_left apply_rule rs s <> [].
Proof.
  induction rs as [|rule rs IH]; intros H s Hs; [exact Hs|].
  simpl. apply IH; [intros rule' Hin; apply H; now right|].
  apply replace_nonempty; [apply H; now left|exact Hs].
Qed.

Lemma subst_keeps (tpl : list piece) (caps : list text) (n : nat) :
  In (Ref n) tpl ->
  exists pre post, subst tpl caps = pre ++ nth (pred n) caps [] ++ post.
Proof.
  intros H. apply in_split in H. destruct H as (l1 & l2 & ->).
  unfold subst. rewrite flat_map_app. cbn [flat_map]. eauto.
Qed.

(** The replacement of each rule refers to every group of its pattern. *)
Lemma rules_refer_to_groups :
  forall rule i, In rule rules -> i < groups (fst rule) ->
                 In (Ref (S i)) (snd rule).
Proof.
  intros rule i H Hi. simpl in H.
  repeat (destruct H as [<-|H];
          [ cbn in Hi;
            repeat (destruct i as [|i]; [simpl; tauto|]); lia | ]).
  contradiction.
Qed.

(** C6, as amended: the output of the normalizer is what the rules make of
    the input, followed by the newline that was appended, which no rule
    touches.  Each rule puts a text that is not empty in the place of what
    it matches, with every captured group of the match in it, so a
    directive is rewritten and not removed and no input but the empty one
    is rewritten to nothing.  (The length of the output is not bounded
    below by the length of the input.) *)
Theorem rewriteSource_ends_with_newline (s : text) :
  rewriteSource s = rewriteRules s ++ [NL]
  /\ (s <> [] -> rewriteRules s <> [])
  /\ (forall rule u caps n,
        In rule rules -> match_seq (fst rule) u = Some (caps, n) ->
        subst (snd rule) caps <> []
        /\ forall g, In g caps ->
             exists pre post, subst (snd rule) caps = pre ++ g ++ post)
  /\ 1 <= length (rewriteSource s).
Proof.
  assert (H : rewriteSource s = rewriteRules s ++ [NL]).
  { unfold rewriteSource, rewriteRules. apply fold_rules_with_nl.
    intros rule Hin. split.
    - pose proof rules_ends_lit as He. rewrite forallb_forall in He.
      exact (He rule Hin).
    - destruct (@rules_head rule Hin); eauto. }
  split; [exact H|]. split; [|split].
  - apply fold_rules_nonempty, rules_replacement_nonempty.
  - intros rule u caps n Hin Hm.
    split; [now apply rules_replacement_nonempty|].
    apply match_groups in Hm. intros g Hg.
    destruct (In_nth _ _ [] Hg) as (i & Hi & <-).
    assert (Hi' : i < groups (fst rule)) by (rewrite <- Hm; exact Hi).
    exact (@subst_keeps _ caps (S i) (@rules_refer_to_groups rule i Hin Hi')).
  - rewrite H, length_app. simpl. lia.
Qed.

Lemma rewriteSource_ends_with_newline_witness :
  rewriteSource (str "{{.name}}") = rewriteRules (str "{{.name}}") ++ [NL]
  /\ rewriteRules (str "{{.name}}") <> [].
Proof.
  split.
  - exact (proj1 (rewriteSource_ends_with_newline (str "{{.name}}"))).
  - apply (proj1 (proj2 (rewriteSource_ends_with_newline (str "{{.name}}")))).
    discriminate.
Defined.

(** C6, the claim as stated fails: a comment-style partial marker of 19
    units is rewritten to 7 units, and the output with its newline is
    shorter than the input. *)
Lemma rewriteSource_can_shrink :
  ~ (length (str "<!-- partial(a) -->") + 1
     <= length (rewriteSource (str "<!-- partial(a) -->"))).
Proof. vm_compute. lia. Qed.

(** ** Seed comments *)

Lemma seedRegex_shape :
  seedRegex = map Chr (str "<!-- seed(") ++ Group Dot :: map Chr (str ") -->").
Proof. reflexivity. Qed.

Lemma match_lit (l s : text) :
  match_seq (map Chr l) (l ++ s) = Some ([], length l).
Proof.
  pose proof (match_lit_app l [] s) as H. rewrite app_nil_r in H.
  rewrite H. simpl. now rewrite Nat.add_0_r.
Qed.

(** After a closing [) -->] that is the last one of the text, a group
    cannot be extended to a later closing. *)
Lemma no_later_close (post : text) :
  occurs (lit ") -->") post = false ->
  plus (cls_test Dot) (match_seq (map Chr (str ") -->")))
       (str ") -->" ++ post) = None.
Proof.
  intros H. apply plus_none. intros i Hi.
  pose proof (@occurs_none_all (lit ") -->") 41 post eq_refl H) as Hnone.
  destruct i as [|[|[|[|[|i]]]]]; try lia; try reflexivity.
  exact (Hnone i).
Qed.

Lemma seed_match (g post : text) :
  g <> [] ->
  Forall (fun c => isLineTerminator c = false) g ->
  occurs (lit ") -->") post = false ->
  match_seq seedRegex (str "<!-- seed(" ++ g ++ str ") -->" ++ post) =
  Some ([g], length (str "<!-- seed(" ++ g ++ str ") -->")).
Proof.
  intros Hg Hline Hpost. rewrite seedRegex_shape, match_lit_app.
  cbn [match_seq].
  rewrite (@plus_stop (cls_test Dot) _ g (str ") -->" ++ post) [] 5).
  - rewrite !length_app. reflexivity.
  - exact Hg.
  - eapply Forall_impl; [|exact Hline]. intros c Hc. simpl. now rewrite Hc.
  - now apply no_later_close.
  - apply (match_lit (str ") -->")).
Qed.

Lemma seed_needs_close (post : text) :
  occurs (lit ") -->") post = false -> occurs seedRegex post = false.
Proof.
  intros H. apply no_occurs_all. intros i.
  destruct (match_seq seedRegex (skipn i post)) as [[caps n]|] eqn:E;
    [|reflexivity].
  exfalso. rewrite seedRegex_shape in E.
  apply match_lit_inv in E. destruct E as [m E]. cbn [match_seq] in E.
  destruct (plus (cls_test Dot) (match_seq (map Chr (str ") -->")))
                 (skipn (length (str "<!-- seed(")) (skipn i post)))
    as [[g [caps' n']]|] eqn:P; [|discriminate].
  apply plus_some in P. destruct P as (j & m' & _ & Hk & _).
  rewrite !skipn_skipn in Hk.
  pose proof (@occurs_none_all (lit ") -->") 41 post eq_refl H) as Hnone.
  unfold lit in Hnone. rewrite Hnone in Hk. discriminate.
Qed.

Lemma cleanup_before_opening (pre rest : text) :
  occurs (lit "<!-- seed(") pre = false ->
  replace seedRegex [] (pre ++ 60%N :: rest) =
  pre ++ replace seedRegex [] (60%N :: rest).
Proof.
  intros H.
  refine (@replace_before_opening 60 (str "!-- seed(")
            (Group Dot :: map Chr (str ") -->")) [] pre rest _ H).
  repeat constructor; discriminate.
Qed.

(** *** Line by line *)

Lemma match_length (r : regex) :
  forall u caps n, match_seq r u = Some (caps, n) -> n <= length u.
Proof.
  induction r as [|a r IH]; intros u caps n; simpl.
  - intros [= _ <-]. lia.
  - destruct a as [c| | |k].
    + destruct u as [|x u]; [discriminate|].
      destruct (x =? c)%N; [|discriminate].
      destruct (match_seq r u) as [[caps' n']|] eqn:E; [|discriminate].
      simpl. intros [= _ <-]. apply IH in E. lia.
    + destruct u as [|x u]; [apply IH|].
      destruct (isWhiteSpace x); [|apply IH].
      destruct (match_seq r u) as [[caps' n']|] eqn:E; [|apply IH].
      intros [= _ <-]. apply IH in E. simpl. lia.
    + destruct u as [|x u]; [discriminate|].
      destruct (negb (isLineTerminator x)); [|discriminate].
      destruct (match_seq r u) as [[caps' n']|] eqn:E; [|discriminate].
      simpl. intros [= _ <-]. apply IH in E. lia.
    + destruct (plus (cls_test k) (match_seq r) u) as [[g [caps' n']]|] eqn:E;
        [|discriminate].
      intros [= _ <-]. apply plus_within in E.
      destruct E as (j & m & Hj & Hk & ->). apply IH in Hk.
      rewrite length_skipn in Hk. lia.
Qed.

Lemma cls_test_terminator (k : cls) (t : N) :
  isLineTerminator t = true -> cls_test k t = false.
Proof.
  intros H. destruct k; simpl; [now rewrite H|].
  unfold isLineTerminator in H. unfold isDigit.
  repeat (apply orb_prop in H; destruct H as [H|H]);
    apply N.eqb_eq in H; subst; reflexivity.
Qed.

(** A pattern of one line matches before a line terminator as it matches
    at the end of the text. *)
Lemma match_line (r : regex) (t : N) (rest : text) :
  oneLine r = true -> isLineTerminator t = true ->
  forall u, match_seq r (u ++ t :: rest) = match_seq r u.
Proof.
  intros Hr Ht. induction r as [|a r IH]; [reflexivity|].
  destruct a as [c| | |k]; simpl in Hr; try discriminate.
  - apply andb_prop in Hr. destruct Hr as [Hc Hr]. specialize (IH Hr).
    intros [|x u]; simpl; [|now rewrite IH].
    destruct (N.eqb_spec t c) as [->|_]; [|reflexivity].
    rewrite Ht in Hc. discriminate.
  - specialize (IH Hr). intros [|x u]; simpl; [|now rewrite IH].
    now rewrite Ht.
  - specialize (IH Hr). intros u. simpl.
    assert (E : plus (cls_test k) (match_seq r) (u ++ t :: rest)
                = plus (cls_test k) (match_seq r) u).
    { induction u as [|x u IHu]; simpl.
      - now rewrite cls_test_terminator.
      - now rewrite IHu, IH. }
    now rewrite E.
Qed.

Lemma replace_line (r : regex) (tpl : list piece) (c0 t : N) (rest : text) :
  hd_error r = Some (Chr c0) -> oneLine r = true ->
  isLineTerminator t = true ->
  forall u, replace r tpl (u ++ t :: rest)
            = replace r tpl u ++ t :: replace r tpl rest.
Proof.
  intros Hh Hr Ht. unfold replace.
  assert (Hhead : match_seq r (t :: rest) = None).
  { destruct r as [|a r]; [discriminate|]. injection Hh as ->.
    simpl in *. destruct (N.eqb_spec t c0) as [->|_]; [|reflexivity].
    rewrite Ht in Hr. discriminate. }
  assert (G : forall u skip, skip <= length u ->
            replace_go r tpl (u ++ t :: rest) skip
            = replace_go r tpl u skip ++ t :: replace_go r tpl rest 0).
  { induction u as [|x u IH]; intros skip Hs; simpl in *.
    - assert (skip = 0) as -> by lia. now rewrite Hhead.
    - destruct skip as [|k]; [|apply IH; lia].
      pose proof (@match_line r t rest Hr Ht (x :: u)) as E. simpl in E.
      rewrite E.
      destruct (match_seq r (x :: u)) as [[caps n]|] eqn:M.
      + apply match_length in M. simpl in M.
        rewrite IH by lia. now rewrite app_assoc.
      + now rewrite IH by lia. }
  intros u. apply G. lia.
Qed.

(** *** The span that is removed *)

Lemma match_lit_prefix (l s : text) (m : found) :
  match_seq (map Chr l) s = Some m -> exists post, s = l ++ post.
Proof.
  revert s m. induction l as [|c l IH]; intros s m; simpl.
  - intros _. now exists s.
  - destruct s as [|x s]; [discriminate|].
    destruct (N.eqb_spec x c) as [->|]; [|discriminate].
    destruct (match_seq (map Chr l) s) as [[caps n]|] eqn:E; [|discriminate].
    intros _. destruct (IH _ _ E) as [post ->]. now exists post.
Qed.

(** A text either holds a literal nowhere, or splits at the first place
    where the literal stands. *)
Lemma first_occurrence (l p : text) :
  occurs (map Chr l) p = false
  \/ exists p1 p2, p = p1 ++ l ++ p2 /\ occurs (map Chr l) p1 = false.
Proof.
  induction p as [|x p IH]; [now left|].
  destruct (match_seq (map Chr l) (x :: p)) as [m|] eqn:E.
  - right. destruct (match_lit_prefix l _ E) as [post Hp].
    exists [], post. split; [exact Hp|reflexivity].
  - destruct IH as [H|(p1 & p2 & -> & H)].
    + left. simpl. now rewrite E.
    + right. exists (x :: p1), p2. split; [reflexivity|].
      cbn [occurs].
      destruct (match_seq (map Chr l) (x :: p1)) as [m|] eqn:E1; [|exact H].
      exfalso. destruct (match_lit_prefix l _ E1) as [post Hp].
      change (x :: p1 ++ l ++ p2) with ((x :: p1) ++ l ++ p2) in E.
      rewrite Hp, <- app_assoc, match_lit in E. discriminate.
Qed.

(** A text either holds a literal nowhere, or splits at the last place
    where the literal stands. *)
Lemma last_occurrence (c0 : N) (l q : text) :
  occurs (map Chr (c0 :: l)) q = false
  \/ exists q1 q2,
       q = q1 ++ (c0 :: l) ++ q2 /\ occurs (map Chr (c0 :: l)) q2 = false.
Proof.
  induction q as [|x q IH]; [now left|].
  destruct IH as [H|(q1 & q2 & -> & H)].
  - destruct (match_seq (map Chr (c0 :: l)) (x :: q)) as [m|] eqn:E.
    + right. destruct (match_lit_prefix (c0 :: l) _ E) as [post Hp].
      exists [], post. split; [exact Hp|].
      injection Hp as -> ->. apply no_occurs_all. intros i.
      pose proof (@occurs_none_all (map Chr (c0 :: l)) c0 (l ++ post)
                    eq_refl H (length l + i)) as Hn.
      rewrite Nat.add_comm, <- skipn_skipn in Hn.
      rewrite skipn_app, skipn_all, Nat.sub_diag in Hn. exact Hn.
    + left. cbn [occurs]. now rewrite E.
  - right. exists (x :: q1), q2. split; [reflexivity|exact H].
Qed.

(** From the first opening of a line to its last closing. *)
Lemma cleanup_span (pre g post : text) :
  occurs (lit "<!-- seed(") pre = false ->
  g <> [] ->
  Forall (fun c => isLineTerminator c = false) g ->
  occurs (lit ") -->") post = false ->
  cleanupSource (pre ++ str "<!-- seed(" ++ g ++ str ") -->" ++ post)
  = pre ++ post.
Proof.
  intros Hpre Hg Hl Hpost. unfold cleanupSource.
  change (pre ++ str "<!-- seed(" ++ g ++ str ") -->" ++ post)
    with (pre ++ 60%N :: (str "!-- seed(" ++ g ++ str ") -->" ++ post)).
  rewrite cleanup_before_opening by exact Hpre.
  change (60%N :: (str "!-- seed(" ++ g ++ str ") -->" ++ post))
    with (str "<!-- seed(" ++ g ++ str ") -->" ++ post).
  replace (str "<!-- seed(" ++ g ++ str ") -->" ++ post)
    with ((str "<!-- seed(" ++ g ++ str ") -->") ++ post)
    by now rewrite <- !app_assoc.
  rewrite (@replace_match seedRegex [] _ post [g]).
  - simpl subst.
    now rewrite replace_no_occurrence by now apply seed_needs_close.
  - discriminate.
  - rewrite <- !app_assoc. now apply seed_match.
Qed.

(** C10: [cleanupSource] works line by line: what it makes of a text is
    what it makes of the text before a line terminator, the terminator, and
    what it makes of the text after it.  On a line with two seed-comment
    markers it removes everything from the start of the first marker to
    the end of the last one, the text between them included: what is
    left is the text before the markers up to its first opening and the
    text after them from its last closing on, so all of both when the
    first marker opens at the first opening of the line and the last
    marker closes at its last closing.  A line (or a text) in which the
    pattern matches nowhere is returned unchanged. *)
Theorem cleanupSource_spans_markers :
  (forall (line rest : text) (t : N),
      isLineTerminator t = true ->
      cleanupSource (line ++ t :: rest)
      = cleanupSource line ++ t :: cleanupSource rest)
  /\ (forall pre a mid b post : text,
        Forall (fun c => isLineTerminator c = false)
               (pre ++ a ++ mid ++ b ++ post) ->
        exists pre1 pre2 post1 post2,
          pre = pre1 ++ pre2 /\ post = post1 ++ post2
          /\ occurs (lit "<!-- seed(") pre1 = false
          /\ (pre2 = [] \/ exists p, pre2 = str "<!-- seed(" ++ p)
          /\ occurs (lit ") -->") post2 = false
          /\ (post1 = [] \/ exists q, post1 = q ++ str ") -->")
          /\ cleanupSource (pre ++ seedMarker a ++ mid ++ seedMarker b ++ post)
             = pre1 ++ post2)
  /\ (forall pre a mid b post : text,
        occurs (lit "<!-- seed(") pre = false ->
        Forall (fun c => isLineTerminator c = false) (a ++ mid ++ b) ->
        occurs (lit ") -->") post = false ->
        cleanupSource (pre ++ seedMarker a ++ mid ++ seedMarker b ++ post)
        = pre ++ post)
  /\ (forall s : text, occurs seedRegex s = false -> cleanupSource s = s)
  /\ (forall (pre a mid b post rest : text) (t : N),
        occurs (lit "<!-- seed(") pre = false ->
        Forall (fun c => isLineTerminator c = false) (a ++ mid ++ b) ->
        occurs (lit ") -->") post = false ->
        isLineTerminator t = true ->
        cleanupSource
          ((pre ++ seedMarker a ++ mid ++ seedMarker b ++ post) ++ t :: rest)
        = (pre ++ post) ++ t :: cleanupSource rest).
Proof.
  assert (Hline : forall (line rest : text) (t : N),
             isLineTerminator t = true ->
             cleanupSource (line ++ t :: rest)
             = cleanupSource line ++ t :: cleanupSource rest).
  { intros line rest t Ht. unfold cleanupSource.
    now apply (@replace_line seedRegex [] 60). }
  assert (Hlit : forall s : string,
             forallb (fun c => negb (isLineTerminator c)) (str s) = true ->
             Forall (fun c => isLineTerminator c = false) (str s)).
  { intros s H. rewrite forallb_forall in H. apply Forall_forall.
    intros c Hc. specialize (H c Hc).
    now destruct (isLineTerminator c). }
  assert (Hspan : forall pre a mid b post : text,
             occurs (lit "<!-- seed(") pre = false ->
             Forall (fun c => isLineTerminator c = false) (a ++ mid ++ b) ->
             occurs (lit ") -->") post = false ->
             cleanupSource (pre ++ seedMarker a ++ mid ++ seedMarker b ++ post)
             = pre ++ post).
  { intros pre a mid b post Hpre Hl Hpost. unfold seedMarker.
    replace (pre ++ (str "<!-- seed(" ++ a ++ str ") -->") ++ mid
                 ++ (str "<!-- seed(" ++ b ++ str ") -->") ++ post)
      with (pre ++ str "<!-- seed("
                ++ (a ++ str ") -->" ++ mid ++ str "<!-- seed(" ++ b)
                ++ str ") -->" ++ post)
      by now rewrite <- !app_assoc.
    apply cleanup_span; [exact Hpre| | |exact Hpost].
    - destruct a; discriminate.
    - rewrite !Forall_app in *. destruct Hl as (Ha & Hm & Hb).
      repeat split; auto; now apply Hlit. }
  split; [exact Hline|]. split; [|split; [exact Hspan|split]].
  - intros pre a mid b post Hl.
    rewrite !Forall_app in Hl. destruct Hl as (Hp & Ha & Hm & Hb & Hq).
    destruct (first_occurrence (str "<!-- seed(") pre)
      as [Hpre|(p1 & p2 & -> & Hpre)];
      destruct (last_occurrence 41 (str " -->") post)
        as [Hpost|(q1 & q2 & -> & Hpost)];
      change (41%N :: str " -->") with (str ") -->") in *;
      change (map Chr (str ") -->")) with (lit ") -->") in *;
      change (map Chr (str "<!-- seed(")) with (lit "<!-- seed(") in *.
    + exists pre, [], [], post. rewrite app_nil_r.
      repeat split; auto. now apply Hspan; [|rewrite !Forall_app|].
    + exists pre, [], (q1 ++ str ") -->"), q2.
      rewrite app_nil_r, <- app_assoc.
      repeat split; auto; [right; now exists q1|].
      unfold seedMarker.
      replace (pre ++ (str "<!-- seed(" ++ a ++ str ") -->") ++ mid
                   ++ (str "<!-- seed(" ++ b ++ str ") -->")
                   ++ q1 ++ str ") -->" ++ q2)
        with (pre ++ str "<!-- seed("
                  ++ (a ++ str ") -->" ++ mid ++ str "<!-- seed(" ++ b
                        ++ str ") -->" ++ q1)
                  ++ str ") -->" ++ q2)
        by now rewrite <- !app_assoc.
      apply cleanup_span; [exact Hpre| | |exact Hpost].
      * destruct a; discriminate.
      * rewrite !Forall_app in *. destruct Hq as (Hq1 & _ & _).
        repeat split; auto; now apply Hlit.
    + exists p1, (str "<!-- seed(" ++ p2), [], post.
      repeat split; auto; [right; now exists p2|].
      unfold seedMarker.
      replace ((p1 ++ str "<!-- seed(" ++ p2)
                 ++ (str "<!-- seed(" ++ a ++ str ") -->") ++ mid
                 ++ (str "<!-- seed(" ++ b ++ str ") -->") ++ post)
        with (p1 ++ str "<!-- seed("
                 ++ (p2 ++ str "<!-- seed(" ++ a ++ str ") -->" ++ mid
                        ++ str "<!-- seed(" ++ b)
                 ++ str ") -->" ++ post)
        by now rewrite <- !app_assoc.
      apply cleanup_span; [exact Hpre| | |exact Hpost].
      * destruct p2; discriminate.
      * rewrite !Forall_app in *. destruct Hp as (_ & _ & Hp2).
        repeat split; auto; now apply Hlit.
    + exists p1, (str "<!-- seed(" ++ p2), (q1 ++ str ") -->"), q2.
      rewrite <- (app_assoc q1).
      repeat split; auto; [right; now exists p2|right; now exists q1|].
      unfold seedMarker.
      replace ((p1 ++ str "<!-- seed(" ++ p2)
                 ++ (str "<!-- seed(" ++ a ++ str ") -->") ++ mid
                 ++ (str "<!-- seed(" ++ b ++ str ") -->")
                 ++ q1 ++ str ") -->" ++ q2)
        with (p1 ++ str "<!-- seed("
                 ++ (p2 ++ str "<!-- seed(" ++ a ++ str ") -->" ++ mid
                        ++ str "<!-- seed(" ++ b ++ str ") -->" ++ q1)
                 ++ str ") -->" ++ q2)
        by now rewrite <- !app_assoc.
      apply cleanup_span; [exact Hpre| | |exact Hpost].
      * destruct p2; discriminate.
      * rewrite !Forall_app in *.
        destruct Hp as (_ & _ & Hp2). destruct Hq as (Hq1 & _ & _).
        repeat split; auto; now apply Hlit.
  - intros s H. now apply replace_no_occurrence.
  - intros pre a mid b post rest t Hpre Hl Hpost Ht.
    rewrite Hline by exact Ht. now rewrite Hspan.
Qed.

Lemma cleanupSource_spans_markers_witness :
  cleanupSource
    ((str "intro " ++ seedMarker (str "a.json") ++ str " and "
          ++ seedMarker (str "b.json") ++ str " end")
       ++ NL :: str "next <!-- seed(c.json) -->")
  = (str "intro " ++ str " end") ++ NL :: str "next "
  /\ cleanupSource (str "no marker here") = str "no marker here".
Proof.
  split.
  - rewrite (proj2 (proj2 (proj2 (proj2 cleanupSource_spans_markers)))
               (str "intro ") (str "a.json") (str " and ") (str "b.json")
               (str " end") (str "next <!-- seed(c.json) -->") NL);
      [vm_compute; reflexivity|reflexivity|repeat constructor|reflexivity
      |reflexivity].
  - apply (proj1 (proj2 (proj2 (proj2 cleanupSource_spans_markers)))).
    reflexivity.
Defined.

(** ** Rewriting one directive *)

Lemma iter_advance (k : nat) (caps : list text) (n : nat) :
  Nat.iter k advance (Some (caps, n)) = Some (caps, k + n).
Proof.
  induction k as [|k IH]; [reflexivity|]. simpl. now rewrite IH.
Qed.

(** A rule made of an opening [o], the group [(.+)] and a closing [c]:
    on a directive that is followed by a newline the group is the whole
    reference. *)
Lemma bracket_rule (R K : regex) (o c : text) :
  (forall s, match_seq R (o ++ s) =
             Nat.iter (length o) advance (match_seq (Group Dot :: K) s)) ->
  (forall rest, plus (cls_test Dot) (match_seq K) (c ++ NL :: rest) = None) ->
  (forall rest, match_seq K (c ++ NL :: rest) = Some ([], length c)) ->
  forall tpl g rest,
    g <> [] -> Forall (fun x => isLineTerminator x = false) g ->
    replace R tpl (o ++ g ++ c ++ NL :: rest) =
    subst tpl [g] ++ replace R tpl (NL :: rest).
Proof.
  intros Ho Hp Hk tpl g rest Hg Hline.
  replace (o ++ g ++ c ++ NL :: rest) with ((o ++ g ++ c) ++ NL :: rest)
    by now rewrite <- !app_assoc.
  apply replace_match.
  - destruct o; [destruct g; [congruence|discriminate]|discriminate].
  - rewrite <- !app_assoc, Ho. cbn [match_seq].
    rewrite (@plus_stop (cls_test Dot) _ g (c ++ NL :: rest) [] (length c)).
    + rewrite iter_advance, !length_app. reflexivity.
    + exact Hg.
    + eapply Forall_impl; [|exact Hline]. intros x Hx. simpl. now rewrite Hx.
    + apply Hp.
    + apply Hk.
Qed.

Lemma plainRef_spec (ref : text) :
  plainRef ref = true ->
  ref <> [] /\ Forall (fun x => isLineTerminator x = false) ref
  /\ Forall (fun x => x <> 60%N) ref /\ Forall (fun x => x <> 123%N) ref.
Proof.
  destruct ref as [|c ref]; [discriminate|]. unfold plainRef.
  rewrite forallb_forall. intros H. split; [discriminate|].
  repeat split; apply Forall_forall; intros x Hx; specialize (H x Hx);
    unfold plainUnit in H; apply andb_prop in H; destruct H as [H H3];
    apply andb_prop in H; destruct H as [H1 H2].
  - now destruct (isLineTerminator x).
  - destruct (N.eqb_spec x 60); [discriminate|assumption].
  - destruct (N.eqb_spec x 123); [discriminate|assumption].
Qed.

Lemma subst_replacement (g : text) :
  subst replacement [g] = str "{{> " ++ g ++ str "}}".
Proof.
  unfold replacement, subst. cbn [flat_map nth pred].
  now rewrite app_nil_r.
Qed.

(** Texts in the proofs below are brought to the form
    [c1 :: c2 :: ... :: (g ++ d1 :: ...)], and a rule that rewrites nothing
    is passed over them unit by unit. *)
Ltac norm_text :=
  repeat match goal with
         | |- context [str ?s] =>
             let v := eval vm_compute in (str s) in change (str s) with v
         | |- context [strq ?s] =>
             let v := eval vm_compute in (strq s) in change (strq s) with v
         end;
  rewrite <- ?app_assoc; cbn [app].

Ltac innermost t :=
  lazymatch t with
  | context [replace _ _ _] => fail
  | _ => idtac
  end.

Ltac pass_rule :=
  repeat match goal with
         | |- context [replace ?r ?tpl []] => rewrite (replace_nil r tpl)
         | |- context [replace ?r ?tpl (?c :: ?s)] =>
             innermost s;
             rewrite (@replace_nomatch_cons r tpl c s) by reflexivity
         | |- context [replace ?r ?tpl (?g ++ ?s)] =>
             innermost s;
             first
               [ rewrite (@replace_plain_app r tpl 60%N eq_refl g s)
                   by assumption
               | rewrite (@replace_plain_app r tpl 123%N eq_refl g s)
                   by assumption ]
         end.

Lemma rule_comment_partial tpl g rest :
  g <> [] -> Forall (fun x => isLineTerminator x = false) g ->
  replace re_comment_partial tpl (str "<!-- partial(" ++ g ++ str ") -->" ++ NL :: rest)
  = subst tpl [g] ++ replace re_comment_partial tpl (NL :: rest).
Proof.
  apply (@bracket_rule re_comment_partial (lit ") -->")); intros; reflexivity.
Qed.

Lemma rule_comment_include tpl g rest :
  g <> [] -> Forall (fun x => isLineTerminator x = false) g ->
  replace re_comment_include tpl (str "<!-- include(" ++ g ++ str ") -->" ++ NL :: rest)
  = subst tpl [g] ++ replace re_comment_include tpl (NL :: rest).
Proof.
  apply (@bracket_rule re_comment_include (lit ") -->")); intros; reflexivity.
Qed.

Lemma rule_helper_partial tpl g rest :
  g <> [] -> Forall (fun x => isLineTerminator x = false) g ->
  replace re_helper_partial tpl (strq "{{partial '" ++ g ++ strq "'}}" ++ NL :: rest)
  = subst tpl [g] ++ replace re_helper_partial tpl (NL :: rest).
Proof.
  apply (@bracket_rule re_helper_partial (litq "'" ++ OptSpace :: lit "}}"));
    intros; reflexivity.
Qed.

Lemma rule_helper_include tpl g rest :
  g <> [] -> Forall (fun x => isLineTerminator x = false) g ->
  replace re_helper_include tpl (strq "{{include '" ++ g ++ strq "'}}" ++ NL :: rest)
  = subst tpl [g] ++ replace re_helper_include tpl (NL :: rest).
Proof.
  apply (@bracket_rule re_helper_include (litq "'" ++ OptSpace :: lit "}}"));
    intros; reflexivity.
Qed.

Ltac open_rules :=
  unfold rewriteSource, rules; cbn [fold_left]; unfold apply_rule;
  cbn [fst snd].

Lemma canonical_partial_stable (ref : text) :
  plainRef ref = true ->
  rewriteSource (canonicalPartial ref) = canonicalPartial ref ++ [NL].
Proof.
  intros H. destruct (plainRef_spec _ H) as (Hne & Hline & H60 & H123).
  open_rules. unfold canonicalPartial. norm_text. pass_rule. reflexivity.
Qed.

Ltac norm_text_in H :=
  repeat match type of H with
         | context [str ?s] =>
             let v := eval vm_compute in (str s) in change (str s) with v in H
         | context [strq ?s] =>
             let v := eval vm_compute in (strq s) in change (strq s) with v in H
         end;
  rewrite <- ?app_assoc in H; cbn [app] in H.

(** Rewrite with an equation between texts, both sides brought to the
    normal form first. *)
Ltac fire E :=
  let F := fresh "F" in
  pose proof E as F; rewrite ?subst_replacement in F; norm_text_in F;
  rewrite F; clear F.

Lemma comment_partial_rewritten (ref : text) :
  plainRef ref = true ->
  rewriteSource (commentPartial ref) = canonicalPartial ref ++ [NL].
Proof.
  intros H. destruct (plainRef_spec _ H) as (Hne & Hline & H60 & H123).
  open_rules. unfold commentPartial, canonicalPartial. norm_text.
  fire (@rule_comment_partial replacement ref [] Hne Hline).
  pass_rule. reflexivity.
Qed.

Lemma comment_include_rewritten (ref : text) :
  plainRef ref = true ->
  rewriteSource (commentInclude ref) = canonicalPartial ref ++ [NL].
Proof.
  intros H. destruct (plainRef_spec _ H) as (Hne & Hline & H60 & H123).
  open_rules. unfold commentInclude, canonicalPartial. norm_text.
  pass_rule.
  fire (@rule_comment_include replacement ref [] Hne Hline).
  pass_rule. reflexivity.
Qed.

Lemma helper_partial_rewritten (ref : text) :
  plainRef ref = true ->
  rewriteSource (helperPartial ref) = canonicalPartial ref ++ [NL].
Proof.
  intros H. destruct (plainRef_spec _ H) as (Hne & Hline & H60 & H123).
  open_rules. unfold helperPartial, canonicalPartial. norm_text.
  pass_rule.
  fire (@rule_helper_partial replacement ref [] Hne Hline).
  pass_rule. reflexivity.
Qed.

Lemma helper_include_rewritten (ref : text) :
  plainRef ref = true ->
  rewriteSource (helperInclude ref) = canonicalPartial ref ++ [NL].
Proof.
  intros H. destruct (plainRef_spec _ H) as (Hne & Hline & H60 & H123).
  open_rules. unfold helperInclude, canonicalPartial. norm_text.
  pass_rule.
  fire (@rule_helper_include replacement ref [] Hne Hline).
  pass_rule. reflexivity.
Qed.

(** C5, as amended: for a reference string that holds no directive markup
    of its own, each of the four legacy spellings of a partial directive is
    normalized to the same text as the canonical spelling, the canonical
    partial reference followed by the appended newline. *)
Theorem spelling_invariance (ref : text) :
  plainRef ref = true ->
  rewriteSource (commentPartial ref) = rewriteSource (canonicalPartial ref)
  /\ rewriteSource (commentInclude ref) = rewriteSource (canonicalPartial ref)
  /\ rewriteSource (helperPartial ref) = rewriteSource (canonicalPartial ref)
  /\ rewriteSource (helperInclude ref) = rewriteSource (canonicalPartial ref)
  /\ rewriteSource (canonicalPartial ref) = canonicalPartial ref ++ [NL].
Proof.
  intros H. rewrite (canonical_partial_stable _ H).
  repeat split.
  - now apply comment_partial_rewritten.
  - now apply comment_include_rewritten.
  - now apply helper_partial_rewritten.
  - now apply helper_include_rewritten.
Qed.

Lemma spelling_invariance_witness :
  plainRef (str "partials/intro.md") = true
  /\ rewriteSource (helperInclude (str "partials/intro.md"))
     = rewriteSource (canonicalPartial (str "partials/intro.md")).
Proof.
  split; [vm_compute; reflexivity|].
  exact (proj1 (proj2 (proj2 (proj2
           (spelling_invariance (str "partials/intro.md") eq_refl))))).
Defined.

(** C5, the claim as stated fails: when the reference string itself holds
    a comment-style partial marker, the legacy spelling keeps it as it is
    while the canonical spelling has it rewritten. *)
Lemma spelling_invariance_fails_on_markup :
  rewriteSource (commentPartial (str "<!-- partial(x) -->"))
  = str "{{> <!-- partial(x) -->}}" ++ [NL]
  /\ rewriteSource (canonicalPartial (str "<!-- partial(x) -->"))
     = str "{{> {{> x}}}}" ++ [NL]
  /\ rewriteSource (commentPartial (str "<!-- partial(x) -->"))
     <> rewriteSource (canonicalPartial (str "<!-- partial(x) -->")).
Proof.
  repeat split; try (vm_compute; reflexivity). vm_compute. discriminate.
Qed.

(** ** Several markers *)

Lemma plainUnits_spec (mid : text) :
  forallb plainUnit mid = true ->
  Forall (fun x => isLineTerminator x = false) mid
  /\ Forall (fun x => x <> 60%N) mid /\ Forall (fun x => x <> 123%N) mid.
Proof.
  rewrite forallb_forall. intros H.
  repeat split; apply Forall_forall; intros x Hx; specialize (H x Hx);
    unfold plainUnit in H; apply andb_prop in H; destruct H as [H H3];
    apply andb_prop in H; destruct H as [H1 H2].
  - now destruct (isLineTerminator x).
  - destruct (N.eqb_spec x 60); [discriminate|assumption].
  - destruct (N.eqb_spec x 123); [discriminate|assumption].
Qed.

(** C8, as amended: two comment-style partial markers on different lines
    are each rewritten into their own canonical reference; on one line the
    greedy group runs from the first reference to the second, and the two
    markers become a single canonical reference. *)
Theorem markers_by_line (a b mid : text) :
  plainRef a = true -> plainRef b = true -> forallb plainUnit mid = true ->
  rewriteSource (commentPartial a ++ [NL] ++ commentPartial b)
  = canonicalPartial a ++ [NL] ++ canonicalPartial b ++ [NL]
  /\ rewriteSource (commentPartial a ++ mid ++ commentPartial b)
     = canonicalPartial (a ++ str ") -->" ++ mid ++ str "<!-- partial(" ++ b)
         ++ [NL].
Proof.
  intros Ha Hb Hmid.
  destruct (plainRef_spec _ Ha) as (Hane & Haline & Ha60 & Ha123).
  destruct (plainRef_spec _ Hb) as (Hbne & Hbline & Hb60 & Hb123).
  destruct (plainUnits_spec _ Hmid) as (Hmline & Hm60 & Hm123).
  split.
  - open_rules. unfold commentPartial, canonicalPartial. norm_text.
    fire (@rule_comment_partial replacement a
            (str "<!-- partial(" ++ b ++ str ") -->" ++ [NL]) Hane Haline).
    pass_rule.
    fire (@rule_comment_partial replacement b [] Hbne Hbline).
    pass_rule. reflexivity.
  - assert (Hg : a ++ str ") -->" ++ mid ++ str "<!-- partial(" ++ b <> [])
      by (destruct a; [congruence|discriminate]).
    assert (Hgline : Forall (fun x => isLineTerminator x = false)
                       (a ++ str ") -->" ++ mid ++ str "<!-- partial(" ++ b))
      by (repeat (apply Forall_app; split); auto; repeat constructor).
    open_rules. unfold commentPartial, canonicalPartial. norm_text.
    fire (@rule_comment_partial replacement _ [] Hg Hgline).
    pass_rule. reflexivity.
Qed.

Lemma markers_by_line_witness :
  rewriteSource (commentPartial (str "a.md") ++ [NL] ++ commentPartial (str "b.md"))
  = canonicalPartial (str "a.md") ++ [NL] ++ canonicalPartial (str "b.md") ++ [NL]
  /\ rewriteSource (commentPartial (str "a.md") ++ str " " ++ commentPartial (str "b.md"))
     = canonicalPartial (str "a.md) --> <!-- partial(b.md") ++ [NL].
Proof.
  exact (markers_by_line (str "a.md") (str "b.md") (str " ")
           eq_refl eq_refl eq_refl).
Defined.

(** C8, the claim as stated fails: two comment-style partial markers on
    one line yield one canonical reference, not two. *)
Lemma same_line_markers_merge :
  rewriteSource (str "<!-- partial(a.md) --> <!-- partial(b.md) -->")
  = str "{{> a.md) --> <!-- partial(b.md}}" ++ [NL]
  /\ rewriteSource (str "<!-- partial(a.md) --> <!-- partial(b.md) -->")
     <> str "{{> a.md}} {{> b.md}}" ++ [NL]
  /\ map item1
       (extractPartials
          (rewriteSource (str "<!-- partial(a.md) --> <!-- partial(b.md) -->")))
     = [str "a.md) --> <!-- partial(b.md"].
Proof.
  repeat split; try (vm_compute; reflexivity). vm_compute. discriminate.
Qed.

(** ** Objects *)

Lemma text_eqb_spec (a b : text) : reflect (a = b) (text_eqb a b).
Proof.
  revert b. induction a as [|x a IH]; intros [|y b]; simpl;
    try (constructor; congruence).
  destruct (N.eqb_spec x y); simpl.
  - destruct (IH b); constructor; congruence.
  - constructor. congruence.
Qed.

Lemma text_eqb_refl (a : text) : text_eqb a a = true.
Proof. now destruct (text_eqb_spec a a). Qed.

Section ObjFacts.

Context {A : Type}.
Implicit Types (o : Obj.t A) (k : text) (v : A).

Lemma get_set_same k v o : Obj.get k (Obj.set k v o) = Some v.
Proof.
  induction o as [|[k' v'] o IH]; simpl.
  - now rewrite text_eqb_refl.
  - destruct (text_eqb k k') eqn:E; simpl.
    + now rewrite text_eqb_refl.
    + now rewrite E.
Qed.

Lemma get_set_other k k' v o :
  k <> k' -> Obj.get k (Obj.set k' v o) = Obj.get k o.
Proof.
  intros Hk. induction o as [|[k2 v2] o IH]; simpl.
  - destruct (text_eqb_spec k k'); [contradiction|reflexivity].
  - destruct (text_eqb_spec k' k2) as [->|Hne]; simpl.
    + destruct (text_eqb_spec k k2); [contradiction|reflexivity].
    + destruct (text_eqb k k2); [reflexivity|exact IH].
Qed.

Lemma has_set k k' v o :
  Obj.has k (Obj.set k' v o) = text_eqb k k' || Obj.has k o.
Proof.
  unfold Obj.has. destruct (text_eqb_spec k k') as [->|Hne].
  - now rewrite get_set_same.
  - now rewrite get_set_other.
Qed.

Lemma has_assign k k' v o :
  Obj.has k (Obj.assign k' v o) = true
  <-> (k = k' /\ k <> protoName) \/ Obj.has k o = true.
Proof.
  unfold Obj.assign. destruct (text_eqb_spec k' protoName) as [->|Hne].
  - tauto.
  - rewrite has_set, orb_true_iff.
    destruct (text_eqb_spec k k') as [->|Hk]; intuition congruence.
Qed.

Lemma get_none_notin k o : Obj.get k o = None <-> ~ In k (Obj.keys o).
Proof.
  induction o as [|[k' v'] o IH]; simpl; [tauto|].
  destruct (text_eqb_spec k k') as [->|Hne].
  - split; [discriminate|]. intros H. exfalso. apply H. now left.
  - rewrite IH. split; [intros H [E|E]; congruence || auto|tauto].
Qed.

Lemma has_true_in k o : Obj.has k o = true <-> In k (Obj.keys o).
Proof.
  unfold Obj.has. pose proof (get_none_notin k o) as H.
  destruct (Obj.get k o).
  - split; [intros _|reflexivity].
    destruct (in_dec (list_eq_dec N.eq_dec) k (Obj.keys o)) as [Hin|Hn];
      [assumption|]. apply H in Hn. discriminate.
  - split; [discriminate|]. intros Hin. now apply H in Hin.
Qed.

End ObjFacts.

(** ** The error monad *)

Lemma bind_ok {A B} (m : outcome A) (f : A -> outcome B) (b : B) :
  bind m f = Ok b -> exists a, m = Ok a /\ f a = Ok b.
Proof. destruct m; simpl; try discriminate. eauto. Qed.

Lemma bind_throw {A B} (m : outcome A) (f : A -> outcome B) (e : error) :
  m = Throw e -> bind m f = Throw e.
Proof. now intros ->. Qed.

(** ** lodash merge *)

Lemma mergeValue_scalar (v : json) (o : option json) :
  scalar v = true -> mergeValue v o = v.
Proof. destruct v; simpl; congruence. Qed.

Lemma mergeValue_obj (sf : Obj.t json) (o : option json) :
  (forall items, o <> Some (JArr items)) ->
  mergeValue (JObj sf) o =
  JObj (mergeEach sf match o with Some (JObj object) => object | _ => [] end).
Proof.
  intros H. destruct o as [[]|]; try reflexivity. now destruct (H items).
Qed.

Lemma mergeValue_array_fresh (items : list json) :
  forallb scalar items = true -> mergeValue (JArr items) None = JArr items.
Proof.
  intros H. simpl. f_equal. induction items as [|v items IH]; [reflexivity|].
  simpl in H. apply andb_prop in H. destruct H as [Hv H].
  rewrite mergeValue_scalar by assumption. now rewrite IH.
Qed.

Lemma mergeValue_array (a b : list json) :
  forallb scalar a = true ->
  mergeValue (JArr a) (Some (JArr b)) = JArr (a ++ skipn (length a) b).
Proof.
  intros H. simpl mergeValue. f_equal. revert b.
  induction a as [|v a IH]; intros b; [reflexivity|].
  simpl in H. apply andb_prop in H. destruct H as [Hv H].
  destruct b as [|o b]; cbn [length skipn app].
  - rewrite mergeValue_scalar by assumption. f_equal.
    specialize (IH H []). rewrite skipn_nil in IH. exact IH.
  - rewrite mergeValue_scalar by assumption. f_equal. exact (IH H b).
Qed.

Lemma skipped_scalar (k : text) (v : json) :
  scalar v = true -> skipped k v = false.
Proof. intros H. unfold skipped. rewrite H. apply andb_false_r. Qed.

Lemma skipped_other (k : text) (v : json) :
  k <> protoName -> skipped k v = false.
Proof.
  intros H. unfold skipped. now destruct (text_eqb_spec k protoName).
Qed.

(** What [baseMerge] leaves under a key: the merged value when the source
    has the key, the value of the destination otherwise and for the keys
    it passes over. *)
Lemma mergeEach_get (source : Obj.t json) :
  NoDup (Obj.keys source) ->
  forall object k,
    Obj.get k (mergeEach source object) =
    match Obj.get k source with
    | Some v =>
        if skipped k v then Obj.get k object
        else Some (mergeValue v (Obj.get k object))
    | None => Obj.get k object
    end.
Proof.
  induction source as [|[k1 v1] source IH]; intros Hnd object k;
    [reflexivity|].
  simpl in Hnd. inversion Hnd as [|? ? Hnotin Hnd']; subst.
  cbn [mergeEach Obj.get]. rewrite IH by assumption.
  destruct (text_eqb_spec k k1) as [->|Hne].
  - apply get_none_notin in Hnotin. rewrite Hnotin.
    destruct (skipped k1 v1); [reflexivity|]. now rewrite get_set_same.
  - destruct (skipped k1 v1); [reflexivity|].
    rewrite get_set_other by assumption. reflexivity.
Qed.

Lemma mergeSeeds_get (F : fields) (rest : list json) (k : text) :
  NoDup (Obj.keys F) ->
  Obj.get k (mergeSeeds (JObj F :: rest)) =
  match Obj.get k F with
  | Some v =>
      if skipped k v then Obj.get k (mergeSeeds rest)
      else Some (mergeValue v (Obj.get k (mergeSeeds rest)))
  | None => Obj.get k (mergeSeeds rest)
  end.
Proof.
  intros H. cbn [mergeSeeds fold_right]. unfold merge. cbn [entries].
  now apply mergeEach_get.
Qed.

(** The files before the first one that holds a key do not touch it. *)
Lemma mergeSeeds_skip (pre : list fields) (rest : list json) (k : text) :
  Forall (fun G => NoDup (Obj.keys G)) pre ->
  Forall (fun G => Obj.get k G = None) pre ->
  Obj.get k (mergeSeeds (map JObj pre ++ rest)) = Obj.get k (mergeSeeds rest).
Proof.
  induction pre as [|G pre IH]; intros Hnd Hk; [reflexivity|].
  inversion Hnd; inversion Hk; subst. cbn [map app].
  rewrite mergeSeeds_get by assumption.
  replace (Obj.get k G) with (@None json) by congruence. now apply IH.
Qed.

Lemma mergeSeeds_absent (Fs : list fields) (k : text) :
  Forall (fun G => NoDup (Obj.keys G)) Fs ->
  Forall (fun G => Obj.get k G = None) Fs ->
  Obj.get k (mergeSeeds (map JObj Fs)) = None.
Proof.
  intros Hnd Hk.
  pose proof (@mergeSeeds_skip Fs [] k Hnd Hk) as H.
  now rewrite app_nil_r in H.
Qed.

Lemma mergeSeeds_has (Fs : list fields) (k : text) :
  Forall (fun G => NoDup (Obj.keys G)) Fs ->
  Obj.has k (mergeSeeds (map JObj Fs)) = true
  <-> exists F v, In F Fs /\ Obj.get k F = Some v /\ skipped k v = false.
Proof.
  unfold Obj.has. induction Fs as [|G Fs IH]; intros Hnd.
  - cbn. split; [discriminate|]. now intros (F & v & [] & _).
  - inversion Hnd as [|? ? HG Hnd']; subst. cbn [map].
    rewrite mergeSeeds_get by assumption. specialize (IH Hnd').
    destruct (Obj.get k G) as [v|] eqn:E.
    + destruct (skipped k v) eqn:Es.
      * rewrite IH. split.
        -- intros (F & v' & Hin & Hget & Hs). exists F, v'. simpl. auto.
        -- intros (F & v' & [<-|Hin] & Hget & Hs); [congruence|].
           now exists F, v'.
      * split; [|reflexivity]. intros _. exists G, v. simpl. auto.
    + rewrite IH. split.
      * intros (F & v' & Hin & Hget & Hs). exists F, v'. simpl. auto.
      * intros (F & v' & [<-|Hin] & Hget & Hs); [congruence|].
        now exists F, v'.
Qed.

(** ** The seed resolver *)

Lemma forEach_app {A S} (f : A -> S -> outcome S) (l1 l2 : list A) (s : S) :
  forEach (l1 ++ l2) f s = (s' <- forEach l1 f s ;; forEach l2 f s').
Proof.
  revert s. induction l1 as [|x l1 IH]; intros s; [reflexivity|].
  cbn [app forEach]. destruct (f x s); cbn [bind]; auto.
Qed.

Section SeedFacts.

Variable h : Host.

(** The files of the seed directives of a text, in the order of the
    document, are read, parsed and merged from the last to the first. *)
Lemma loadSeeds_all (source inputDir : text) (Fs : list fields) :
  Forall2
    (fun item F =>
       exists content,
         fs_read h (path_resolve h inputDir (item1 item)) = Some content
         /\ JSON_parse h content = Some (JObj F))
    (matchAll source seedRegex) Fs ->
  loadSeeds h source inputDir = Ok (mergeSeeds (map JObj Fs)).
Proof.
  unfold loadSeeds, extractSeeds.
  induction 1 as [|item F items Fs (content & Hf & Hp) _ IH];
    [reflexivity|].
  cbn [rev map]. rewrite forEach_app, IH. cbn [bind forEach].
  unfold readFileSync, parse. rewrite Hf. cbn [bind]. rewrite Hp.
  reflexivity.
Qed.

(** C2, as amended: the seed directives of one file are merged from the
    last to the first, so that an earlier directive is merged after a
    later one.  The first directive that holds a key wins with its
    scalar value; a key is in the result exactly when a file holds it
    (an object or an array under [__proto__] apart, which lodash passes
    over); a key that holds an object in two files holds the merge of the
    two objects, made by the same rule; and a key that holds an array of
    scalars in two files holds the items of the earlier directive
    followed by the items of the later one beyond that length.  The
    seed files are those whose merge stays among the JSON values
    ([seedsFit]: no object meets an array under one key). *)
Theorem seed_precedence (source inputDir : text) (Fs : list fields) :
  Forall2
    (fun item F =>
       exists content,
         fs_read h (path_resolve h inputDir (item1 item)) = Some content
         /\ JSON_parse h content = Some (JObj F))
    (matchAll source seedRegex) Fs ->
  Forall (fun F => NoDup (Obj.keys F)) Fs ->
  seedsFit (map JObj Fs) = true ->
  exists seeds,
    loadSeeds h source inputDir = Ok seeds
    /\ (forall pre F post k v,
          Fs = pre ++ F :: post ->
          Forall (fun G => Obj.get k G = None) pre ->
          Obj.get k F = Some v -> scalar v = true ->
          Obj.get k seeds = Some v)
    /\ (forall k,
          Obj.has k seeds = true
          <-> exists F v,
                In F Fs /\ Obj.get k F = Some v /\ skipped k v = false)
    /\ (forall pre A mid B post k a b,
          Fs = pre ++ A :: mid ++ B :: post ->
          Forall (fun G => Obj.get k G = None) (pre ++ mid ++ post) ->
          k <> protoName ->
          Obj.get k A = Some (JObj a) -> Obj.get k B = Some (JObj b) ->
          Obj.get k seeds
          = Some (JObj (merge (merge [] (JObj b)) (JObj a))))
    /\ (forall pre A mid B post k a b,
          Fs = pre ++ A :: mid ++ B :: post ->
          Forall (fun G => Obj.get k G = None) (pre ++ mid ++ post) ->
          k <> protoName ->
          Obj.get k A = Some (JArr a) -> Obj.get k B = Some (JArr b) ->
          forallb scalar a = true -> forallb scalar b = true ->
          Obj.get k seeds = Some (JArr (a ++ skipn (length a) b))).
Proof.
  intros Hload Hnd _. exists (mergeSeeds (map JObj Fs)).
  split; [now apply loadSeeds_all|].
  assert (Hpair : forall pre A mid B post k va vb,
             Fs = pre ++ A :: mid ++ B :: post ->
             Forall (fun G => Obj.get k G = None) (pre ++ mid ++ post) ->
             k <> protoName ->
             Obj.get k A = Some va -> Obj.get k B = Some vb ->
             Obj.get k (mergeSeeds (map JObj Fs))
             = Some (mergeValue va (Some (mergeValue vb None)))).
  { intros pre A mid B post k va vb -> Hk Hne Ha Hb.
    rewrite !Forall_app in Hk. destruct Hk as (Hpre & Hmid & Hpost).
    rewrite !Forall_app in Hnd. destruct Hnd as (Npre & Hnd).
    inversion Hnd as [|? ? NA Hnd']; subst.
    rewrite Forall_app in Hnd'. destruct Hnd' as (Nmid & Hnd').
    inversion Hnd' as [|? ? NB Npost]; subst.
    rewrite map_app. rewrite mergeSeeds_skip by assumption.
    cbn [map]. rewrite mergeSeeds_get, Ha, skipped_other by assumption.
    rewrite map_app. rewrite mergeSeeds_skip by assumption.
    cbn [map]. rewrite mergeSeeds_get, Hb, skipped_other by assumption.
    now rewrite mergeSeeds_absent. }
  repeat split.
  - intros pre F post k v -> Hpre Hk Hs.
    rewrite Forall_app in Hnd. destruct Hnd as (Npre & Hnd).
    inversion Hnd as [|? ? NF Npost]; subst.
    rewrite map_app. rewrite mergeSeeds_skip by assumption.
    cbn [map]. rewrite mergeSeeds_get, Hk, skipped_scalar by assumption.
    now rewrite mergeValue_scalar.
  - now apply mergeSeeds_has.
  - now apply mergeSeeds_has.
  - intros pre A mid B post k a b HFs Hk Hne Ha Hb.
    rewrite (Hpair _ _ _ _ _ _ _ _ HFs Hk Hne Ha Hb).
    rewrite !mergeValue_obj by (intros; discriminate). reflexivity.
  - intros pre A mid B post k a b HFs Hk Hne Ha Hb Hsa Hsb.
    rewrite (Hpair _ _ _ _ _ _ _ _ HFs Hk Hne Ha Hb).
    rewrite (mergeValue_array_fresh _ Hsb). now rewrite mergeValue_array.
Qed.

(** The resolver throws at the first directive, in the order of
    processing, whose file is missing or is not JSON. *)
Lemma loadSeeds_each_throw (inputDir : text) (item : list text)
      (pre post : list (list text)) (e : error) :
  (forall it, In it pre ->
     exists content data,
       fs_read h (path_resolve h inputDir (item1 it)) = Some content
       /\ JSON_parse h content = Some data) ->
  (content <- readFileSync h (path_resolve h inputDir (item1 item)) ;;
   parse h content) = Throw e ->
  forall seeds,
    forEach (pre ++ item :: post)
      (fun item seeds =>
         content <- readFileSync h (path_resolve h inputDir (item1 item)) ;;
         data <- parse h content ;;
         Ok (merge seeds data)) seeds = Throw e.
Proof.
  intros Hpre He. induction pre as [|it pre IH]; intros seeds.
  - cbn [app forEach].
    destruct (readFileSync h (path_resolve h inputDir (item1 item)))
      as [content|e'|]; cbn [bind] in *; try congruence.
    destruct (parse h content); cbn [bind] in *; congruence.
  - destruct (Hpre it (or_introl eq_refl)) as (content & data & Hf & Hp).
    cbn [app forEach]. unfold readFileSync at 1, parse at 1.
    rewrite Hf. cbn [bind]. rewrite Hp. cbn [bind].
    apply IH. intros it' Hin. apply Hpre. now right.
Qed.

Lemma loadSeeds_ok_all (inputDir : text) (items : list (list text)) :
  forall seeds out,
    forEach items
      (fun item seeds =>
         content <- readFileSync h (path_resolve h inputDir (item1 item)) ;;
         data <- parse h content ;;
         Ok (merge seeds data)) seeds = Ok out ->
    forall it, In it items ->
      exists content data,
        fs_read h (path_resolve h inputDir (item1 it)) = Some content
        /\ JSON_parse h content = Some data.
Proof.
  induction items as [|item items IH]; intros seeds out H it Hin;
    [contradiction|].
  cbn [forEach] in H. apply bind_ok in H. destruct H as (s' & Hstep & H).
  destruct Hin as [<-|Hin]; [|eauto].
  unfold readFileSync, parse in Hstep.
  destruct (fs_read h (path_resolve h inputDir (item1 item)))
    as [content|]; cbn [bind] in Hstep; [|discriminate].
  destruct (JSON_parse h content) as [data|] eqn:E; [|discriminate].
  eauto.
Qed.

End SeedFacts.

Ltac nodup_texts :=
  vm_compute;
  repeat (constructor;
          [ simpl; intros E;
            repeat (destruct E as [E|E]; [discriminate E|]); exact E | ]);
  constructor.

Lemma seed_precedence_witness :
  exists seeds,
    loadSeeds Scenario.hs Scenario.twoSeeds (str "/doc") = Ok seeds
    /\ Obj.get (str "x") seeds = Some (JNum 1)
    /\ Obj.get (str "o") seeds
       = Some (JObj [(str "q", JNum 1); (str "r", JNum 2); (str "p", JNum 1)]).
Proof.
  assert (HA : NoDup (Obj.keys Scenario.seedA)) by nodup_texts.
  assert (HB : NoDup (Obj.keys Scenario.seedB)) by nodup_texts.
  assert (Hload : Forall2
            (fun item F =>
               exists content,
                 fs_read Scenario.hs
                   (path_resolve Scenario.hs (str "/doc") (item1 item))
                 = Some content
                 /\ JSON_parse Scenario.hs content = Some (JObj F))
            (matchAll Scenario.twoSeeds seedRegex)
            [Scenario.seedA; Scenario.seedB]).
  { change (matchAll Scenario.twoSeeds seedRegex)
      with [[str "a.json"]; [str "b.json"]].
    repeat constructor.
    - exists (strq "{'x':1,'y':1,'o':{'p':1,'q':1}}").
      split; vm_compute; reflexivity.
    - exists (strq "{'x':2,'z':2,'o':{'q':2,'r':2}}").
      split; vm_compute; reflexivity. }
  destruct (@seed_precedence Scenario.hs Scenario.twoSeeds (str "/doc")
              [Scenario.seedA; Scenario.seedB] Hload
              (Forall_cons _ HA (Forall_cons _ HB (Forall_nil _))) eq_refl)
    as (seeds & Hseeds & Hscalar & _ & Hobj & _).
  exists seeds. split; [exact Hseeds|]. split.
  - apply (Hscalar [] Scenario.seedA [Scenario.seedB] (str "x") (JNum 1));
      [reflexivity|constructor|reflexivity|reflexivity].
  - rewrite (Hobj [] Scenario.seedA [] Scenario.seedB [] (str "o")
               [(str "p", JNum 1); (str "q", JNum 1)]
               [(str "q", JNum 2); (str "r", JNum 2)]);
      [vm_compute; reflexivity|reflexivity|constructor| |reflexivity
      |reflexivity].
    vm_compute. discriminate.
Defined.

(** C2, the claim as stated fails for arrays, which are not objects in the
    data model of the specification: the array of the earlier directive
    does not replace the array of the later one, the two are merged index
    by index. *)
Lemma array_seeds_merge_by_index :
  exists seeds,
    loadSeeds Scenario.hs Scenario.arraySeeds (str "/doc") = Ok seeds
    /\ Obj.get (str "t") seeds = Some (JArr [JNum 1; JNum 8; JNum 9])
    /\ Obj.get (str "t") seeds <> Some (JArr [JNum 1]).
Proof.
  exists [(str "t", JArr [JNum 1; JNum 8; JNum 9])].
  repeat split; try (vm_compute; reflexivity). vm_compute. discriminate.
Qed.

Lemma forEach_ok_each {A S} (f : A -> S -> outcome S) (items : list A) :
  forall s out,
    forEach items f s = Ok out ->
    forall x, In x items -> exists s0 s1, f x s0 = Ok s1.
Proof.
  induction items as [|y items IH]; intros s out H x Hin; [contradiction|].
  cbn [forEach] in H. apply bind_ok in H. destruct H as (s' & Hf & H).
  destruct Hin as [<-|Hin]; eauto.
Qed.

Lemma forEach_not_out {A S} (f : A -> S -> outcome S) (items : list A) :
  (forall x s, In x items -> f x s <> OutOfFuel) ->
  forall s, forEach items f s <> OutOfFuel.
Proof.
  induction items as [|y items IH]; intros H s; [discriminate|].
  cbn [forEach]. pose proof (H y s (or_introl eq_refl)) as Hy.
  destruct (f y s) as [s'| |]; cbn [bind]; try congruence.
  apply IH. intros x s0 Hin. apply H. now right.
Qed.

Lemma bind_not_out {A B} (m : outcome A) (f : A -> outcome B) :
  m <> OutOfFuel -> (forall a, m = Ok a -> f a <> OutOfFuel) ->
  bind m f <> OutOfFuel.
Proof. destruct m; cbn [bind]; auto; discriminate. Qed.

Section Failure.

Variable h : Host.

Lemma loadSeeds_not_out (source inputDir : text) :
  loadSeeds h source inputDir <> OutOfFuel.
Proof.
  unfold loadSeeds. apply forEach_not_out. intros item seeds _.
  unfold readFileSync, parse.
  destruct (fs_read h (path_resolve h inputDir (item1 item))) as [c|];
    cbn [bind]; [|discriminate].
  destruct (JSON_parse h c); cbn [bind]; discriminate.
Qed.

(** With a bound above the nesting of the partials the walk returns or
    throws. *)
Lemma loadPartials_not_out (d : nat) :
  forall fuel data w inputDir,
    nested h d data inputDir -> d < fuel ->
    loadPartials h fuel data w inputDir <> OutOfFuel.
Proof.
  induction d as [|d IH]; intros fuel data w inputDir Hn Hd;
    (destruct fuel as [|fuel]; [lia|]); cbn [loadPartials];
    (apply bind_not_out; [|intros [fr w'] _; discriminate]);
    apply forEach_not_out; intros item [fr w0] Hin;
    unfold readFileSync;
    destruct (fs_read h (path_resolve h inputDir (item1 item)))
      as [content|] eqn:Hread; cbn [bind]; try discriminate.
  - destruct (Hn item content Hin Hread).
  - apply bind_not_out; [apply loadSeeds_not_out|]. intros sd _.
    apply bind_not_out.
    + apply IH; [|lia]. exact (Hn item content Hin Hread).
    + intros [cp w1] _. unfold template.
      match goal with
      | |- context [hb_render h ?a ?b ?c] => destruct (hb_render h a b c)
      end; cbn [bind]; discriminate.
Qed.

(** A walk that returns has read every partial file on its way and has
    loaded the seeds of each. *)
Lemma loadPartials_ok_item (fuel : nat) (data : text) (w : walk)
      (inputDir : text) (r : Obj.t text * walk) (item : list text) :
  loadPartials h fuel data w inputDir = Ok r ->
  In item (extractPartials data) ->
  exists content seeds fuel' w1 r1,
    fs_read h (path_resolve h inputDir (item1 item)) = Some content
    /\ loadSeeds h content
         (path_dirname h (path_resolve h inputDir (item1 item))) = Ok seeds
    /\ loadPartials h fuel' (rewriteSource content) w1
         (path_dirname h (path_resolve h inputDir (item1 item))) = Ok r1.
Proof.
  destruct fuel as [|fuel]; [discriminate|]. cbn [loadPartials].
  intros H Hin. apply bind_ok in H. destruct H as ([fr w'] & Hloop & _).
  destruct (@forEach_ok_each _ _ _ _ _ _ Hloop _ Hin)
    as ([fr0 w0] & s1 & Hstep).
  apply bind_ok in Hstep. destruct Hstep as (content & Hread & Hstep).
  apply bind_ok in Hstep. destruct Hstep as (sd & Hsd & Hstep).
  apply bind_ok in Hstep. destruct Hstep as (r1 & Hrec & _).
  unfold readFileSync in Hread.
  destruct (fs_read h (path_resolve h inputDir (item1 item))) as [c|];
    [|discriminate].
  injection Hread as ->. exists content, sd, fuel, w0, r1. auto.
Qed.

Lemma loadPartials_ok_reaches (data inputDir content dir : text) :
  reaches h data inputDir content dir ->
  forall fuel w r,
    loadPartials h fuel data w inputDir = Ok r ->
    (exists seeds, loadSeeds h content dir = Ok seeds)
    /\ exists fuel' w' r',
         loadPartials h fuel' (rewriteSource content) w' dir = Ok r'.
Proof.
  induction 1 as [data inputDir item content Hin Hread
                 |data inputDir c1 d1 c2 d2 _ IH1 _ IH2];
    intros fuel w r Hok.
  - destruct (@loadPartials_ok_item fuel data w inputDir r item Hok Hin)
      as (content' & sd & fuel' & w1 & r1 & Hread' & Hsd & Hrec).
    assert (content' = content) as -> by congruence. eauto 6.
  - destruct (IH1 fuel w r Hok) as (_ & fuel' & w' & r' & Hok').
    exact (IH2 fuel' w' r' Hok').
Qed.

(** X20: the seed resolver throws a not-found error for a missing file
    and a parse error for a file that is not JSON, at the first such
    directive in the order of processing; it returns a merged object only
    when every file was read and parsed; its error is the error of the
    whole resolve operation, for the seeds of the root and for the seeds
    of a partial; and the resolve operation returns a result only when
    the seed directives that the resolver is given, in the normalized
    root and in every partial file on its walk as that file is read,
    were all read and parsed: with a bound above the nesting of the
    partials it throws when one of them fails. *)
Theorem seed_failure_aborts :
  (forall source inputDir pre item post,
      extractSeeds source = pre ++ item :: post ->
      (forall it, In it pre ->
         exists content data,
           fs_read h (path_resolve h inputDir (item1 it)) = Some content
           /\ JSON_parse h content = Some data) ->
      (fs_read h (path_resolve h inputDir (item1 item)) = None ->
       loadSeeds h source inputDir
       = Throw (NotFound (path_resolve h inputDir (item1 item))))
      /\ (forall content,
            fs_read h (path_resolve h inputDir (item1 item)) = Some content ->
            JSON_parse h content = None ->
            loadSeeds h source inputDir = Throw ParseError))
  /\ (forall source inputDir seeds,
        loadSeeds h source inputDir = Ok seeds ->
        forall it, In it (extractSeeds source) ->
          exists content data,
            fs_read h (path_resolve h inputDir (item1 it)) = Some content
            /\ JSON_parse h content = Some data)
  /\ (forall fuel source inputDir e,
        loadSeeds h (rewriteSource source) inputDir = Throw e ->
        rewriteInput h fuel source inputDir = Throw e
        /\ forall input,
             fs_read h input = Some source ->
             path_dirname h input = inputDir ->
             read h fuel input = Throw e)
  /\ (forall fuel data w inputDir item rest content e,
        extractPartials data = item :: rest ->
        fs_read h (path_resolve h inputDir (item1 item)) = Some content ->
        loadSeeds h content
          (path_dirname h (path_resolve h inputDir (item1 item))) = Throw e ->
        loadPartials h (S fuel) data w inputDir = Throw e)
  /\ (forall fuel source inputDir out,
        rewriteInput h fuel source inputDir = Ok out ->
        (forall it, In it (extractSeeds (rewriteSource source)) ->
                    seedLoads h inputDir it)
        /\ forall content dir,
             reaches h (rewriteSource source) inputDir content dir ->
             forall it, In it (extractSeeds content) -> seedLoads h dir it)
  /\ (forall fuel d source inputDir content dir it,
        nested h d (rewriteSource source) inputDir -> d < fuel ->
        reaches h (rewriteSource source) inputDir content dir ->
        In it (extractSeeds content) -> ~ seedLoads h dir it ->
        (exists e, rewriteInput h fuel source inputDir = Throw e)
        /\ forall input,
             fs_read h input = Some source ->
             path_dirname h input = inputDir ->
             exists e, read h fuel input = Throw e).
Proof.
  assert (Hok : forall fuel source inputDir out,
             rewriteInput h fuel source inputDir = Ok out ->
             (forall it, In it (extractSeeds (rewriteSource source)) ->
                         seedLoads h inputDir it)
             /\ forall content dir,
                  reaches h (rewriteSource source) inputDir content dir ->
                  forall it, In it (extractSeeds content) ->
                             seedLoads h dir it).
  { intros fuel source inputDir out H.
    unfold rewriteInput, resolveInput in H.
    apply bind_ok in H. destruct H as ([[data partials] w] & H & _).
    apply bind_ok in H. destruct H as (seeds & Hseeds & H).
    apply bind_ok in H. destruct H as ([pm w'] & Hload & _).
    split.
    - intros it Hin. unfold loadSeeds in Hseeds.
      eapply loadSeeds_ok_all; eauto.
    - intros content dir Hreach it Hin.
      destruct (@loadPartials_ok_reaches _ _ _ _ Hreach _ _ _ Hload)
        as ((sd & Hsd) & _).
      unfold loadSeeds in Hsd. eapply loadSeeds_ok_all; eauto. }
  assert (Hnot : forall fuel d source inputDir,
             nested h d (rewriteSource source) inputDir -> d < fuel ->
             rewriteInput h fuel source inputDir <> OutOfFuel).
  { intros fuel d source inputDir Hn Hd. unfold rewriteInput, resolveInput.
    apply bind_not_out.
    - apply bind_not_out; [apply loadSeeds_not_out|]. intros seeds _.
      apply bind_not_out; [now apply (@loadPartials_not_out d)|].
      intros [pm w'] _. discriminate.
    - intros [[data partials] w] _. unfold template.
      match goal with
      | |- context [hb_render h ?a ?b ?c] => destruct (hb_render h a b c)
      end; discriminate. }
  assert (Hthrow : forall fuel d source inputDir content dir it,
             nested h d (rewriteSource source) inputDir -> d < fuel ->
             reaches h (rewriteSource source) inputDir content dir ->
             In it (extractSeeds content) -> ~ seedLoads h dir it ->
             exists e, rewriteInput h fuel source inputDir = Throw e).
  { intros fuel d source inputDir content dir it Hn Hd Hreach Hin Hbad.
    pose proof (Hnot _ _ _ _ Hn Hd) as Hno.
    destruct (rewriteInput h fuel source inputDir) as [out|e|] eqn:E.
    - exfalso. apply Hbad.
      exact (proj2 (Hok _ _ _ _ E) _ _ Hreach _ Hin).
    - now exists e.
    - congruence. }
  repeat split.
  - intros Hnone. unfold loadSeeds. rewrite H.
    apply loadSeeds_each_throw; [assumption|].
    unfold readFileSync. now rewrite Hnone.
  - intros content Hf Hp. unfold loadSeeds. rewrite H.
    apply loadSeeds_each_throw; [assumption|].
    unfold readFileSync, parse. rewrite Hf. cbn [bind]. now rewrite Hp.
  - intros source inputDir seeds H it Hin. unfold loadSeeds in H.
    eapply loadSeeds_ok_all; eauto.
  - unfold rewriteInput, resolveInput. rewrite H. reflexivity.
  - intros input Hf <-. unfold read, readInput, readFileSync.
    rewrite Hf. cbn [bind]. unfold rewriteInput, resolveInput.
    rewrite H. reflexivity.
  - intros fuel data w inputDir item rest content e Hi Hf He.
    cbn [loadPartials]. rewrite Hi. cbn [forEach].
    unfold readFileSync at 1. rewrite Hf. cbn [bind]. rewrite He.
    reflexivity.
  - exact (proj1 (Hok _ _ _ _ H)).
  - exact (proj2 (Hok _ _ _ _ H)).
  - eapply Hthrow; eauto.
  - intros input Hf <-. unfold read, readInput, readFileSync.
    rewrite Hf. cbn [bind]. eapply Hthrow; eauto.
Qed.

End Failure.

Lemma seed_failure_aborts_witness :
  loadSeeds Scenario.hs Scenario.missingSeed (str "/doc")
  = Throw (NotFound (str "/doc/missing.json"))
  /\ loadSeeds Scenario.hs Scenario.badSeed (str "/doc") = Throw ParseError
  /\ exists e, read Scenario.hf 2 (str "list.txt") = Throw e.
Proof.
  split; [|split].
  - refine (proj1 (proj1 (seed_failure_aborts Scenario.hs)
                     Scenario.missingSeed (str "/doc") []
                     [str "missing.json"]
                     [[str "a.json"]] _ _) _).
    + vm_compute. reflexivity.
    + intros it [].
    + vm_compute. reflexivity.
  - refine (proj2 (proj1 (seed_failure_aborts Scenario.hs)
                     Scenario.badSeed (str "/doc")
                     [[str "a.json"]]
                     [str "bad.json"]
                     [] _ _) (strq "{'x':") _ _).
    + vm_compute. reflexivity.
    + intros it [<-|[]]. exists (strq "{'x':1,'y':1,'o':{'p':1,'q':1}}").
      eexists. split; vm_compute; reflexivity.
    + vm_compute. reflexivity.
    + vm_compute. reflexivity.
  - refine (proj2
              (proj2 (proj2 (proj2 (proj2 (proj2
                 (seed_failure_aborts Scenario.hf))))) 2 1
                 Scenario.listRoot (str ".")
                 (str "<!-- seed(none.json) -->late") (str "/doc")
                 [str "none.json"] _ _ _ _ _)
              (str "list.txt") _ _).
    + intros item content Hin Hread.
      change (extractPartials (rewriteSource Scenario.listRoot))
        with [[str "fine.txt"]; [str "late.txt"]] in Hin.
      destruct Hin as [<-|[<-|[]]]; vm_compute in Hread;
        injection Hread as <-; intros item' content' [].
    + lia.
    + apply (@reaches_direct Scenario.hf (rewriteSource Scenario.listRoot)
               (str ".") [str "late.txt"] (str "<!-- seed(none.json) -->late")).
      * vm_compute. auto.
      * vm_compute. reflexivity.
    + vm_compute. auto.
    + intros (content & data & Hread & _). vm_compute in Hread. discriminate.
    + vm_compute. reflexivity.
    + vm_compute. reflexivity.
Defined.

(** C9, where the program departs from the claim: the partial [part.txt]
    declares the seed [missing.json] with the quoted-helper spelling and
    the file does not exist.  [loadPartials] normalizes the text of the
    partial but hands the text as read to [loadSeeds], which finds no
    seed comment in it: nothing is thrown, the partial is rendered and
    the resolve operation returns a result.  The same file resolved as a
    root (where [rewriteInput] hands [loadSeeds] the normalized text)
    fails with the not-found error, and the dependency walk (which reads
    the seeds off the normalized text) lists the seed file. *)
Lemma helper_seed_of_partial_never_read :
  fs_read Scenario.hm (str "/doc/missing.json") = None
  /\ extractSeeds (rewriteSource (strq "{{seed 'missing.json'}}Hello"))
     = [[str "missing.json"]]
  /\ loadPartials Scenario.hm 2 (rewriteSource (str "{{> part.txt}}"))
       Scenario.emptyWalk (str "/doc")
     = Ok ([(str "part.txt", str "Hello" ++ [NL])],
           {| w_seeds := []; w_rendered := [str "/doc/part.txt"] |})
  /\ (exists out, read Scenario.hm 2 (str "top.txt") = Ok out)
  /\ read Scenario.hm 2 (str "part.txt")
     = Throw (NotFound (str "/doc/missing.json"))
  /\ extractPaths Scenario.hm 2 (str "top.txt")
     = Ok [ str "/doc/top.txt"; str "/doc/missing.json";
            str "/doc/part.txt" ].
Proof.
  split; [vm_compute; reflexivity|].
  split; [vm_compute; reflexivity|].
  split; [vm_compute; reflexivity|].
  split; [eexists; vm_compute; reflexivity|].
  split; vm_compute; reflexivity.
Qed.

(** ** The partial resolver *)

Section PartialFacts.

Variable h : Host.

Lemma registerAll_has (children : Obj.t text) :
  forall fr k,
    Obj.has k (f_partials (registerAll children fr)) = true
    <-> (In k (Obj.keys children) /\ k <> protoName)
        \/ Obj.has k (f_partials fr) = true.
Proof.
  unfold registerAll.
  induction children as [|[k' v'] children IH]; intros fr k; simpl.
  - tauto.
  - rewrite IH. simpl. rewrite has_assign. intuition congruence.
Qed.

Lemma depth_node (p : tree) :
  depth p = S (list_max (map depth (t_partials p))).
Proof. now destruct p. Qed.

Lemma rendered_node (p : tree) :
  rendered p = flat_map rendered (t_partials p) ++ [t_file p].
Proof. now destruct p. Qed.

Lemma refsOf_node (p : tree) :
  refsOf p = flat_map refsOf (t_partials p) ++ [t_ref p].
Proof. now destruct p. Qed.

Lemma rendered_counts (ps : list tree) (q : text) :
  length (filter (text_eqb q) (map t_file ps))
  <= length (filter (text_eqb q) (flat_map rendered ps)).
Proof.
  induction ps as [|p ps IH]; simpl; [lia|].
  rewrite filter_app, length_app, rendered_node, filter_app, length_app.
  simpl. destruct (text_eqb q (t_file p)); simpl; lia.
Qed.

(** C3, as amended: on a tree of partial files that can be read and
    whose seeds can be loaded, [loadPartials] with a bound above the
    depth of the tree returns, and unless a template fails it has run
    one template for each partial directive of the tree: the renderings
    for the partials of a file come before the rendering of the file,
    and a file named by several sibling directives is rendered for each
    of them; the map returned is flat and holds exactly the reference
    strings of the tree (but for the name [__proto__], which an
    assignment does not make a property). *)
Theorem render_per_directive (fuel : nat) :
  forall data w inputDir ps,
    renderOf h data inputDir ps -> list_max (map depth ps) < fuel ->
    ((exists pm w',
         loadPartials h fuel data w inputDir = Ok (pm, w')
         /\ w_rendered w' = w_rendered w ++ flat_map rendered ps
         /\ (forall k, Obj.has k pm = true
                       <-> In k (flat_map refsOf ps) /\ k <> protoName))
     \/ (loadPartials h fuel data w inputDir = Throw TemplateError
         /\ exists s r c, hb_render h s r c = None))
    /\ (forall q,
          length (filter (text_eqb q) (map t_file ps))
          <= length (filter (text_eqb q) (flat_map rendered ps))).
Proof.
  induction fuel as [|fuel IH]; intros data w inputDir ps Hr Hd; [lia|].
  split; [|apply rendered_counts].
  inversion Hr as [? ? ? Hall]; subst. clear Hr.
  cbn [loadPartials].
  match goal with |- context [forEach _ ?f _] => set (step := f) end.
  assert (Hloop : forall fr w0,
    (exists fr' w',
        forEach (extractPartials data) step (fr, w0) = Ok (fr', w')
        /\ w_rendered w' = w_rendered w0 ++ flat_map rendered ps
        /\ (forall k, Obj.has k (f_partials fr') = true
                      <-> (In k (flat_map refsOf ps) /\ k <> protoName)
                          \/ Obj.has k (f_partials fr) = true))
    \/ (forEach (extractPartials data) step (fr, w0) = Throw TemplateError
        /\ exists s r c, hb_render h s r c = None)).
  { revert Hd.
    induction Hall
      as [|item p items ps
            (Href & Hfile & content & sd & Hread & Hseeds & Hsub) Hall IHall];
      intros Hd fr w0.
    - left. exists fr, w0. cbn. rewrite app_nil_r.
      split; [reflexivity|]. split; [reflexivity|]. intros k. tauto.
    - cbn [map list_max fold_right] in Hd.
      assert (Hp : list_max (map depth (t_partials p)) < fuel)
        by (rewrite depth_node in Hd; unfold list_max in *; lia).
      assert (Hps : list_max (map depth ps) < S fuel)
        by (unfold list_max in *; lia).
      assert (Hs :
        (exists fr2 w2,
            step item (fr, w0) = Ok (fr2, w2)
            /\ w_rendered w2 = w_rendered w0 ++ rendered p
            /\ (forall k, Obj.has k (f_partials fr2) = true
                          <-> (In k (refsOf p) /\ k <> protoName)
                              \/ Obj.has k (f_partials fr) = true))
        \/ (step item (fr, w0) = Throw TemplateError
            /\ exists s r c, hb_render h s r c = None)).
      { unfold step. rewrite <- Hfile.
        unfold readFileSync. rewrite Hread. cbn [bind].
        rewrite Hseeds. cbn [bind].
        destruct (IH (rewriteSource content) w0 (path_dirname h (t_file p))
                    (t_partials p) Hsub Hp)
          as [[(cp & w1 & Hrec & Hr1 & Hk1)|(Hrec & Hnone)] _].
        - rewrite Hrec. cbn [bind]. unfold template.
          match goal with
          | |- context [hb_render h ?a ?b ?c] =>
              destruct (hb_render h a b c) as [out|] eqn:Ht
          end.
          + cbn [bind]. left. do 2 eexists. split; [reflexivity|].
            cbn [w_rendered f_partials]. split.
            * rewrite Hr1, rendered_node. now rewrite <- !app_assoc.
            * intros k.
              rewrite has_assign, registerAll_has.
              rewrite <- has_true_in, Hk1, refsOf_node, !in_app_iff.
              rewrite Href. simpl. intuition congruence.
          + cbn [bind]. right. split; [reflexivity|eauto].
        - rewrite Hrec. cbn [bind]. right.
          split; [reflexivity|exact Hnone]. }
      cbn [forEach flat_map].
      destruct Hs as [(fr2 & w2 & Hs & Hrw2 & Hk2)|(Hs & Hnone)];
        rewrite Hs; cbn [bind].
      + destruct (IHall Hps fr2 w2)
          as [(fr' & w' & Hf & Hrw & Hk)|(Hf & Hnone)].
        * left. exists fr', w'. split; [exact Hf|]. split.
          -- rewrite Hrw, Hrw2. now rewrite <- !app_assoc.
          -- intros k. rewrite Hk, Hk2, !in_app_iff. tauto.
        * right. split; [exact Hf|exact Hnone].
      + right. split; [reflexivity|exact Hnone]. }
  destruct (Hloop {| f_partials := []; f_registered := [] |} w)
    as [(fr' & w' & Hf & Hrw & Hk)|(Hf & Hnone)].
  - left. exists (f_partials fr'), w'. rewrite Hf. cbn [bind].
    split; [reflexivity|]. split; [exact Hrw|].
    intros k. rewrite Hk. cbn. intuition discriminate.
  - right. rewrite Hf. cbn [bind]. split; [reflexivity|exact Hnone].
Qed.

End PartialFacts.

Lemma render_per_directive_witness :
  exists pm w',
    loadPartials Scenario.ht 3 (rewriteSource Scenario.treeRoot)
      Scenario.emptyWalk (str ".") = Ok (pm, w')
    /\ w_rendered w'
       = [ str "/doc/p.txt"; str "/doc/sub/r.txt"; str "/doc/q.txt";
           str "/doc/p.txt" ].
Proof.
  assert (Hr : renderOf Scenario.ht (rewriteSource Scenario.treeRoot) (str ".")
                 Scenario.treeNodes).
  { constructor.
    change (extractPartials (rewriteSource Scenario.treeRoot))
      with [[str "p.txt"]; [str "q.txt"]; [str "p.txt"]].
    assert (Hp : t_ref Scenario.nodeP = item1 [str "p.txt"]
                 /\ t_file Scenario.nodeP
                    = path_resolve Scenario.ht (str ".") (item1 [str "p.txt"])
                 /\ exists content seeds,
                      fs_read Scenario.ht (t_file Scenario.nodeP) = Some content
                      /\ loadSeeds Scenario.ht content
                           (path_dirname Scenario.ht (t_file Scenario.nodeP))
                         = Ok seeds
                      /\ renderOf Scenario.ht (rewriteSource content)
                           (path_dirname Scenario.ht (t_file Scenario.nodeP))
                           (t_partials Scenario.nodeP)).
    { split; [reflexivity|]. split; [vm_compute; reflexivity|].
      exists (str "P"), []. split; [vm_compute; reflexivity|].
      split; [vm_compute; reflexivity|].
      constructor.
      change (extractPartials (rewriteSource (str "P"))) with (@nil (list text)).
      constructor. }
    constructor; [exact Hp|]. constructor; [|constructor; [exact Hp|constructor]].
    split; [reflexivity|]. split; [vm_compute; reflexivity|].
    exists (str "Q {{> sub/r.txt}} end"), [].
    split; [vm_compute; reflexivity|]. split; [vm_compute; reflexivity|].
    constructor.
    change (extractPartials (rewriteSource (str "Q {{> sub/r.txt}} end")))
      with [[str "sub/r.txt"]].
    constructor; [|constructor].
    split; [reflexivity|]. split; [vm_compute; reflexivity|].
    exists (str "R"), []. split; [vm_compute; reflexivity|].
    split; [vm_compute; reflexivity|].
    constructor.
    change (extractPartials (rewriteSource (str "R"))) with (@nil (list text)).
    constructor. }
  destruct (proj1 (@render_per_directive Scenario.ht 3
                     (rewriteSource Scenario.treeRoot) Scenario.emptyWalk
                     (str ".") Scenario.treeNodes Hr
                     ltac:(vm_compute; lia)))
    as [(pm & w' & Hload & Hrw & _)|(Hthrow & _)].
  - exists pm, w'. split; [exact Hload|]. rewrite Hrw. reflexivity.
  - exfalso. vm_compute in Hthrow. discriminate.
Defined.

(** C3, the claim as stated fails: the root names [p.txt] in two sibling
    directives, and the file is rendered twice in one resolve operation. *)
Lemma same_partial_rendered_twice :
  resolveInput Scenario.ht 3 Scenario.treeRoot (str ".")
  = Ok (rewriteSource Scenario.treeRoot, Scenario.treePartials,
        Scenario.treeWalk)
  /\ length (filter (text_eqb (str "/doc/p.txt"))
               (w_rendered Scenario.treeWalk)) = 2
  /\ length (filter (text_eqb (str "/doc/p.txt"))
               (w_rendered Scenario.treeWalk)) <> 1.
Proof. repeat split; try (vm_compute; reflexivity). vm_compute. discriminate. Qed.

(** ** The scenario of the specification *)

(** C1, as amended: in the scenario the seed of the child is merged after
    the seed of the root, so the merged context is x = 2, y = 1, z = 2, and
    the child is rendered as the text Hello 2 followed by the newline that
    the normalizer appended. *)
Theorem scenario_child_seed_wins (n : nat) :
  readInput Scenario.h (str "root.txt") = Ok (Scenario.root, str ".")
  /\ resolveInput Scenario.h (S (S n)) Scenario.root (str ".")
     = Ok (rewriteSource Scenario.root,
           [(str "child.txt", str "Hello 2" ++ [NL])],
           {| w_seeds := [(str "x", JNum 2); (str "y", JNum 1);
                          (str "z", JNum 2)];
              w_rendered := [str "/doc/child.txt"] |}).
Proof. split; vm_compute; reflexivity. Qed.

(** C1, the claim as stated fails: the context does not hold x = 1 and the
    child is not rendered as Hello 1, with or without the newline. *)
Lemma scenario_root_seed_loses :
  exists data partials w,
    resolveInput Scenario.h 2 Scenario.root (str ".") = Ok (data, partials, w)
    /\ Obj.get (str "x") (w_seeds w) = Some (JNum 2)
    /\ Obj.get (str "x") (w_seeds w) <> Some (JNum 1)
    /\ Obj.get (str "child.txt") partials <> Some (str "Hello 1")
    /\ Obj.get (str "child.txt") partials <> Some (str "Hello 1" ++ [NL]).
Proof.
  exists (rewriteSource Scenario.root),
    [(str "child.txt", str "Hello 2" ++ [NL])],
    {| w_seeds := [(str "x", JNum 2); (str "y", JNum 1); (str "z", JNum 2)];
       w_rendered := [str "/doc/child.txt"] |}.
  repeat split; try (vm_compute; reflexivity); vm_compute; discriminate.
Qed.

(** ** The dependency extractor *)


Section DependencyFacts.

Variable h : Host.




End DependencyFacts.



(** * Further properties of the reader *)

(** ** Extraction *)

Section MatchAllFacts.

Variable r : regex.

Lemma matchAll_go_skip (p s : text) :
  matchAll_go r (p ++ s) (length p) = matchAll_go r s 0.
Proof.
  induction p as [|c p IH]; simpl; auto.
Qed.

Lemma matchAll_nomatch_cons (c : N) (s : text) :
  match_seq r (c :: s) = None ->
  matchAll (c :: s) r = matchAll s r.
Proof.
  intros H. unfold matchAll. simpl matchAll_go. now rewrite H.
Qed.

Lemma matchAll_match (m s : text) (caps : list text) :
  m <> [] ->
  match_seq r (m ++ s) = Some (caps, length m) ->
  matchAll (m ++ s) r = caps :: matchAll s r.
Proof.
  intros Hm H. destruct m as [|c m]; [congruence|].
  unfold matchAll. simpl app in *. simpl matchAll_go. rewrite H.
  simpl length. simpl pred. now rewrite matchAll_go_skip.
Qed.

Variable c0 : N.
Hypothesis r_head : hd_error r = Some (Chr c0).

Lemma matchAll_plain_app (p s : text) :
  Forall (fun x => x <> c0) p -> matchAll (p ++ s) r = matchAll s r.
Proof.
  induction 1 as [|x p Hx _ IH]; [reflexivity|].
  simpl app. rewrite matchAll_nomatch_cons; [exact IH|].
  now apply (@match_head_ne r c0).
Qed.

Lemma matchAll_plain (p : text) :
  Forall (fun x => x <> c0) p -> matchAll p r = [].
Proof.
  intros H. rewrite <- (app_nil_r p). now rewrite matchAll_plain_app.
Qed.

End MatchAllFacts.

(** The counterpart of [bracket_rule] for [matchAll]. *)
Lemma bracket_found (R K : regex) (o c : text) :
  (forall s, match_seq R (o ++ s) =
             Nat.iter (length o) advance (match_seq (Group Dot :: K) s)) ->
  (forall rest, plus (cls_test Dot) (match_seq K) (c ++ NL :: rest) = None) ->
  (forall rest, match_seq K (c ++ NL :: rest) = Some ([], length c)) ->
  forall g rest,
    g <> [] -> Forall (fun x => isLineTerminator x = false) g ->
    matchAll (o ++ g ++ c ++ NL :: rest) R = [g] :: matchAll (NL :: rest) R.
Proof.
  intros Ho Hp Hk g rest Hg Hline.
  replace (o ++ g ++ c ++ NL :: rest) with ((o ++ g ++ c) ++ NL :: rest)
    by now rewrite <- !app_assoc.
  apply matchAll_match.
  - destruct o; [destruct g; [congruence|discriminate]|discriminate].
  - rewrite <- !app_assoc, Ho. cbn [match_seq].
    rewrite (@plus_stop (cls_test Dot) _ g (c ++ NL :: rest) [] (length c)).
    + rewrite iter_advance, !length_app. reflexivity.
    + exact Hg.
    + eapply Forall_impl; [|exact Hline]. intros x Hx. simpl. now rewrite Hx.
    + apply Hp.
    + apply Hk.
Qed.

Lemma lineRef_spec (ref : text) :
  lineRef ref = true ->
  ref <> [] /\ Forall (fun x => isLineTerminator x = false) ref.
Proof.
  destruct ref as [|c ref]; [discriminate|]. unfold lineRef.
  rewrite forallb_forall. intros H. split; [discriminate|].
  apply Forall_forall. intros x Hx. specialize (H x Hx).
  now destruct (isLineTerminator x).
Qed.

Lemma partial_found (g rest : text) :
  lineRef g = true ->
  matchAll (canonicalPartial g ++ NL :: rest) partialRegex
  = [g] :: matchAll (NL :: rest) partialRegex.
Proof.
  intros H. destruct (lineRef_spec _ H) as [Hg Hline].
  unfold canonicalPartial. rewrite <- !app_assoc.
  apply (@bracket_found partialRegex (lit "}}")); try assumption;
    intros; reflexivity.
Qed.

Lemma seed_found (g rest : text) :
  lineRef g = true ->
  matchAll (seedMarker g ++ NL :: rest) seedRegex
  = [g] :: matchAll (NL :: rest) seedRegex.
Proof.
  intros H. destruct (lineRef_spec _ H) as [Hg Hline].
  unfold seedMarker. rewrite <- !app_assoc.
  apply (@bracket_found seedRegex (lit ") -->")); try assumption;
    intros; reflexivity.
Qed.

(** X1: among text that holds no opening unit, partial directives that each
    end their line are extracted in the order of the document and seed
    directives in the reverse order, each with the whole reference of its
    line. *)
Theorem extraction_order (a b t0 t1 t2 : text) :
  lineRef a = true -> lineRef b = true ->
  (Forall (fun x => x <> 123%N) t0 -> Forall (fun x => x <> 123%N) t1 ->
   Forall (fun x => x <> 123%N) t2 ->
   map item1
     (extractPartials
        (t0 ++ canonicalPartial a ++ NL :: t1 ++ canonicalPartial b ++ NL :: t2))
   = [a; b])
  /\ (Forall (fun x => x <> 60%N) t0 -> Forall (fun x => x <> 60%N) t1 ->
      Forall (fun x => x <> 60%N) t2 ->
      map item1
        (extractSeeds
           (t0 ++ seedMarker a ++ NL :: t1 ++ seedMarker b ++ NL :: t2))
      = [b; a]).
Proof.
  intros Ha Hb. split; intros H0 H1 H2.
  - unfold extractPartials.
    rewrite (@matchAll_plain_app partialRegex 123 eq_refl) by assumption.
    rewrite partial_found by assumption.
    rewrite (@matchAll_nomatch_cons partialRegex NL) by reflexivity.
    rewrite (@matchAll_plain_app partialRegex 123 eq_refl) by assumption.
    rewrite partial_found by assumption.
    rewrite (@matchAll_nomatch_cons partialRegex NL) by reflexivity.
    rewrite (@matchAll_plain partialRegex 123 eq_refl) by assumption.
    reflexivity.
  - unfold extractSeeds.
    rewrite (@matchAll_plain_app seedRegex 60 eq_refl) by assumption.
    rewrite seed_found by assumption.
    rewrite (@matchAll_nomatch_cons seedRegex NL) by reflexivity.
    rewrite (@matchAll_plain_app seedRegex 60 eq_refl) by assumption.
    rewrite seed_found by assumption.
    rewrite (@matchAll_nomatch_cons seedRegex NL) by reflexivity.
    rewrite (@matchAll_plain seedRegex 60 eq_refl) by assumption.
    reflexivity.
Qed.

Lemma extraction_order_witness :
  map item1
    (extractSeeds
       (str "# Doc" ++ seedMarker (str "a.json") ++ NL :: str "text"
            ++ seedMarker (str "b.json") ++ NL :: str "end"))
  = [str "b.json"; str "a.json"].
Proof.
  refine (proj2 (extraction_order (str "a.json") (str "b.json") (str "# Doc")
                   (str "text") (str "end") eq_refl eq_refl) _ _ _);
    vm_compute; repeat constructor; discriminate.
Defined.

(** ** The seed helper *)

Lemma subst_tpl_seed (g : text) :
  subst tpl_seed [g] = str "<!-- seed(" ++ g ++ str ") -->".
Proof.
  unfold tpl_seed, subst. cbn [flat_map nth pred].
  now rewrite app_nil_r.
Qed.

Lemma rule_helper_seed tpl g rest :
  g <> [] -> Forall (fun x => isLineTerminator x = false) g ->
  replace re_helper_seed tpl (strq "{{seed '" ++ g ++ strq "'}}" ++ NL :: rest)
  = subst tpl [g] ++ replace re_helper_seed tpl (NL :: rest).
Proof.
  apply (@bracket_rule re_helper_seed (litq "'" ++ OptSpace :: lit "}}"));
    intros; reflexivity.
Qed.

Ltac fire_seed E :=
  let F := fresh "F" in
  pose proof E as F; rewrite ?subst_tpl_seed in F; norm_text_in F;
  rewrite F; clear F.

Lemma helper_seed_rewritten (ref : text) :
  plainRef ref = true ->
  rewriteSource (helperSeed ref) = seedMarker ref ++ [NL].
Proof.
  intros H. destruct (plainRef_spec _ H) as (Hne & Hline & H60 & H123).
  open_rules. unfold helperSeed, seedMarker. norm_text.
  pass_rule.
  fire_seed (@rule_helper_seed tpl_seed ref [] Hne Hline).
  pass_rule. reflexivity.
Qed.

Lemma plainRef_lineRef (ref : text) : plainRef ref = true -> lineRef ref = true.
Proof.
  destruct ref as [|c ref]; [discriminate|]. unfold plainRef, lineRef.
  rewrite !forallb_forall. intros H x Hx. specialize (H x Hx).
  unfold plainUnit in H. apply andb_prop in H. destruct H as [H _].
  apply andb_prop in H. now destruct H.
Qed.

Lemma single_partial_found (ref : text) :
  lineRef ref = true ->
  map item1 (extractPartials (canonicalPartial ref ++ [NL])) = [ref].
Proof.
  intros H. unfold extractPartials. rewrite partial_found by assumption.
  reflexivity.
Qed.

(** X2: each legacy spelling of a partial directive, once normalized, is
    found by [extractPartials] with the reference string it was written
    with (for a reference string that holds no directive markup). *)
Theorem legacy_partial_extracted (ref : text) :
  plainRef ref = true ->
  map item1 (extractPartials (rewriteSource (commentPartial ref))) = [ref]
  /\ map item1 (extractPartials (rewriteSource (commentInclude ref))) = [ref]
  /\ map item1 (extractPartials (rewriteSource (helperPartial ref))) = [ref]
  /\ map item1 (extractPartials (rewriteSource (helperInclude ref))) = [ref].
Proof.
  intros H. pose proof (plainRef_lineRef _ H) as Hl.
  rewrite comment_partial_rewritten, comment_include_rewritten,
    helper_partial_rewritten, helper_include_rewritten by assumption.
  repeat split; now apply single_partial_found.
Qed.

Lemma legacy_partial_extracted_witness :
  map item1
    (extractPartials (rewriteSource (helperInclude (str "shared/auth.md"))))
  = [str "shared/auth.md"].
Proof.
  exact (proj2 (proj2 (proj2
           (legacy_partial_extracted (str "shared/auth.md") eq_refl)))).
Defined.

(** X3: the quoted-helper spelling of a seed directive is normalized to the
    seed comment; [extractSeeds] then finds its reference, and
    [cleanupSource] leaves nothing of it but the appended newline. *)
Theorem helper_seed_normalized (ref : text) :
  plainRef ref = true ->
  rewriteSource (helperSeed ref) = seedMarker ref ++ [NL]
  /\ map item1 (extractSeeds (rewriteSource (helperSeed ref))) = [ref]
  /\ cleanupSource (rewriteSource (helperSeed ref)) = [NL].
Proof.
  intros H. pose proof (plainRef_lineRef _ H) as Hl.
  destruct (lineRef_spec _ Hl) as [Hne Hline].
  rewrite helper_seed_rewritten by assumption. repeat split.
  - unfold extractSeeds. rewrite seed_found by assumption. reflexivity.
  - unfold cleanupSource, seedMarker. rewrite <- !app_assoc.
    rewrite (@bracket_rule seedRegex (lit ") -->") (str "<!-- seed(")
               (str ") -->")); try assumption; try (intros; reflexivity).
Qed.

Lemma helper_seed_normalized_witness :
  rewriteSource (helperSeed (str "data/users.json"))
  = seedMarker (str "data/users.json") ++ [NL].
Proof.
  exact (proj1 (helper_seed_normalized (str "data/users.json") eq_refl)).
Defined.

(** ** Sources without directives, missing files, endless walks *)

Section WalkFacts.

Variable h : Host.

(** X4: a source whose normalized text holds no seed and no partial
    directive is rendered from that text with an empty context and no
    partial, without any file being read; its only dependency is
    itself. *)
Theorem plain_source_rendered (fuel : nat) (source inputDir : text) :
  occurs seedRegex (rewriteSource source) = false ->
  occurs partialRegex (rewriteSource source) = false ->
  rewriteInput h (S fuel) source inputDir
  = template h (rewriteSource source) [] []
  /\ forall children,
       extractChildren h (S fuel) source inputDir children = Ok children.
Proof.
  intros Hs Hp. split.
  - unfold rewriteInput, resolveInput, loadSeeds, extractSeeds.
    rewrite (matchAll_no_occurrence _ _ Hs). cbn [rev forEach bind].
    cbn [loadPartials]. unfold extractPartials.
    rewrite (matchAll_no_occurrence _ _ Hp). cbn [forEach bind fold_left].
    cbn [f_partials w_seeds]. unfold cleanupSource.
    now rewrite replace_no_occurrence.
  - intros children. cbn [extractChildren].
    unfold extractPartials, extractSeeds.
    rewrite (matchAll_no_occurrence _ _ Hs), (matchAll_no_occurrence _ _ Hp).
    cbn. now rewrite !app_nil_r.
Qed.

(** X5: a missing file is a not-found error of the whole operation, with
    the path that was looked up: the root for [read] and [extractPaths],
    the file of the first partial directive for [loadPartials] and
    [extractChildren]. *)
Theorem missing_file_aborts :
  (forall fuel input,
      fs_read h input = None ->
      read h fuel input = Throw (NotFound input)
      /\ extractPaths h fuel input = Throw (NotFound input))
  /\ (forall fuel data w inputDir item rest,
        extractPartials data = item :: rest ->
        fs_read h (path_resolve h inputDir (item1 item)) = None ->
        loadPartials h (S fuel) data w inputDir
        = Throw (NotFound (path_resolve h inputDir (item1 item))))
  /\ (forall fuel source inputDir children item rest,
        extractPartials (rewriteSource source) = item :: rest ->
        fs_read h (path_resolve h inputDir (item1 item)) = None ->
        extractChildren h (S fuel) source inputDir children
        = Throw (NotFound (path_resolve h inputDir (item1 item)))).
Proof.
  repeat split.
  - unfold read, readInput, readFileSync. now rewrite H.
  - unfold extractPaths, readInput, readFileSync. now rewrite H.
  - intros fuel data w inputDir item rest Hi Hf.
    cbn [loadPartials]. rewrite Hi. cbn [forEach].
    unfold readFileSync at 1. now rewrite Hf.
  - intros fuel source inputDir children item rest Hi Hf.
    cbn [extractChildren]. rewrite Hi. cbn [forEach].
    unfold resolveFile, readFileSync. now rewrite Hf.
Qed.

(** X6: a file whose first partial directive names the file itself is
    reached again by its own walk, so its partials are nested deeper than
    every bound: the recursion of [loadPartials] and of [extractChildren]
    has no end of its own, and whatever the bound on its depth the walk
    uses it up.  (In the running program the walk ends with the
    RangeError of the engine's call stack, whatever the size of that
    stack, and never with a result or with another error.) *)
Theorem self_inclusion_unbounded (file dir content : text)
        (item : list text) (rest : list (list text)) :
  fs_read h file = Some content ->
  path_dirname h file = dir ->
  path_resolve h dir (item1 item) = file ->
  (extractPartials (rewriteSource content) = item :: rest ->
   reaches h (rewriteSource content) dir content dir
   /\ (forall d, ~ nested h d (rewriteSource content) dir)
   /\ ((exists seeds, loadSeeds h content dir = Ok seeds) ->
       forall fuel w,
         loadPartials h fuel (rewriteSource content) w dir = OutOfFuel))
  /\ (extractPartials (rewriteSource (rewriteSource content)) = item :: rest ->
      forall fuel children,
        extractChildren h fuel (rewriteSource content) dir children
        = OutOfFuel).
Proof.
  intros Hf Hd Hr. split.
  - intros Hi.
    assert (Hin : In item (extractPartials (rewriteSource content)))
      by (rewrite Hi; now left).
    assert (Hread : fs_read h (path_resolve h dir (item1 item))
                    = Some content) by now rewrite Hr.
    split; [|split].
    + pose proof (reaches_direct h _ _ _ Hin Hread) as R.
      now rewrite Hr, Hd in R.
    + intros d. induction d as [|d IH]; intros Hn.
      * exact (Hn item content Hin Hread).
      * apply IH. pose proof (Hn item content Hin Hread) as Hn'.
        now rewrite Hr, Hd in Hn'.
    + intros [seeds Hs] fuel. induction fuel as [|fuel IH]; intros w;
        [reflexivity|].
      cbn [loadPartials]. rewrite Hi. cbn [forEach].
      rewrite Hr. unfold readFileSync at 1. rewrite Hf. cbn [bind].
      rewrite Hd, Hs. cbn [bind]. now rewrite IH.
  - intros Hi fuel. induction fuel as [|fuel IH]; intros children;
      [reflexivity|].
    cbn [extractChildren]. rewrite Hi. cbn [forEach].
    unfold resolveFile, readFileSync. rewrite Hr, Hf. cbn [bind].
    rewrite Hd. now rewrite IH.
Qed.

(** X7: a seed declared with the quoted-helper spelling in a partial file
    is never loaded, because [loadPartials] gives the file as read, not
    its normalized text, to [loadSeeds]; the same spelling in the root is
    normalized first, and its file is read and merged. *)
Theorem helper_seed_only_in_root (ref inputDir : text) :
  plainRef ref = true ->
  loadSeeds h (helperSeed ref) inputDir = Ok []
  /\ loadSeeds h (rewriteSource (helperSeed ref)) inputDir
     = (content <- readFileSync h (path_resolve h inputDir ref) ;;
        data <- parse h content ;;
        Ok (merge [] data)).
Proof.
  intros H. split.
  - destruct (plainRef_spec _ H) as (Hne & Hline & H60 & H123).
    unfold loadSeeds, extractSeeds, helperSeed.
    assert (E : matchAll (strq "{{seed '" ++ ref ++ strq "'}}") seedRegex
                = []).
    { norm_text.
      repeat first
        [ rewrite (@matchAll_nomatch_cons seedRegex) by reflexivity
        | rewrite (@matchAll_plain_app seedRegex 60 eq_refl) by assumption ].
      reflexivity. }
    fold (matchAll (strq "{{seed '" ++ ref ++ strq "'}}") seedRegex).
    now rewrite E.
  - rewrite helper_seed_rewritten by assumption.
    unfold loadSeeds, extractSeeds.
    rewrite seed_found by now apply plainRef_lineRef.
    change (matchAll [NL] seedRegex) with (@nil (list text)).
    cbn [rev app forEach item1 nth].
    destruct (readFileSync h (path_resolve h inputDir ref)); cbn [bind];
      try reflexivity.
    destruct (parse h a); reflexivity.
Qed.

End WalkFacts.

Lemma plain_source_rendered_witness :
  rewriteInput Scenario.ht 1 (str "no references") (str ".")
  = template Scenario.ht (rewriteSource (str "no references")) [] [].
Proof.
  refine (proj1 (@plain_source_rendered Scenario.ht 0 (str "no references")
                   (str ".") _ _)); vm_compute; reflexivity.
Defined.

Lemma missing_file_aborts_witness :
  read Scenario.ht 3 (str "nothing.txt") = Throw (NotFound (str "nothing.txt"))
  /\ loadPartials Scenario.ht 3 (str "{{> gone.txt}}" ++ [NL])
       Scenario.emptyWalk (str ".")
     = Throw (NotFound (str "/doc/gone.txt")).
Proof.
  split.
  - refine (proj1 (proj1 (missing_file_aborts Scenario.ht) 3
                     (str "nothing.txt") _)).
    vm_compute. reflexivity.
  - refine (proj1 (proj2 (missing_file_aborts Scenario.ht)) 2
              (str "{{> gone.txt}}" ++ [NL]) Scenario.emptyWalk (str ".")
              [str "gone.txt"] [] _ _); vm_compute; reflexivity.
Defined.

Lemma self_inclusion_unbounded_witness :
  reaches Loop.h (rewriteSource (str "again {{> loop.txt}}")) (str "/doc")
    (str "again {{> loop.txt}}") (str "/doc")
  /\ (forall fuel children,
        extractChildren Loop.h fuel (rewriteSource (str "again {{> loop.txt}}"))
          (str "/doc") children = OutOfFuel).
Proof.
  assert (H := @self_inclusion_unbounded Loop.h (str "/doc/loop.txt")
                 (str "/doc") (str "again {{> loop.txt}}") [str "loop.txt"] []
                 eq_refl eq_refl eq_refl).
  split.
  - apply (proj1 H). vm_compute. reflexivity.
  - apply (proj2 H). vm_compute. reflexivity.
Defined.

Lemma helper_seed_only_in_root_witness :
  loadSeeds Loop.h (helperSeed (str "a.json")) (str "/doc") = Ok []
  /\ loadSeeds Loop.h (rewriteSource (helperSeed (str "a.json"))) (str "/doc")
     = Ok [(str "x", JNum 1)].
Proof.
  destruct (@helper_seed_only_in_root Loop.h (str "a.json") (str "/doc")
              eq_refl) as [H1 H2].
  split; [exact H1|]. rewrite H2. vm_compute. reflexivity.
Defined.

Section SiblingFacts.

Variable h : Host.


End SiblingFacts.


(** * The helpers of the winter template *)

Section FilterFacts.

Import Winter.

Variable matches : text -> bool.

Lemma compact_in {A} (l : list (option A)) (x : A) :
  In x (compact l) <-> In (Some x) l.
Proof.
  unfold compact. rewrite in_flat_map. split.
  - intros ([y|] & Hin & Hx); simpl in Hx; [|contradiction].
    destruct Hx as [->|[]]. exact Hin.
  - intros H. exists (Some x). split; [exact H|now left].
Qed.

Lemma filteredItem_some {A B} (make : text -> list A -> B) title items b :
  filteredItem make title items = Some b ->
  items <> [] /\ b = make title items.
Proof.
  destruct items; simpl; [discriminate|]. intros [= <-].
  split; [discriminate|reflexivity].
Qed.

Lemma filterActions_in (tagActions : list tag) (t : tag) :
  In t (filterActions tagActions matches) ->
  exists t0,
    In t0 tagActions /\ tag_title t = tag_title t0
    /\ tag_children t <> []
    /\ forall c, In c (tag_children t) ->
         exists c0,
           In c0 (tag_children t0) /\ child_title c = child_title c0
           /\ child_actions c <> []
           /\ child_actions c
              = filter (actionFilter matches) (child_actions c0).
Proof.
  unfold filterActions, keepTag, keepChild. rewrite compact_in, in_map_iff.
  intros (t0 & Ht & Hin). apply filteredItem_some in Ht.
  destruct Ht as [Hne ->]. exists t0. cbn [tag_title tag_children].
  repeat split; auto.
  intros c Hc. rewrite compact_in, in_map_iff in Hc.
  destruct Hc as (c0 & Hc & Hc0). apply filteredItem_some in Hc.
  destruct Hc as [Hne' ->]. exists c0. cbn. auto.
Qed.

(** X9: every tag that [filterActions] returns comes from a tag of the
    input with the same title and has at least one child; every child
    comes from a child of that tag with the same title, has at least one
    action, and holds exactly the actions of that child whose path,
    method or title matches, in their order. *)
Theorem filterActions_sound (tagActions : list tag) (t : tag) :
  In t (filterActions tagActions matches) ->
  tag_children t <> []
  /\ (exists t0, In t0 tagActions /\ tag_title t = tag_title t0
        /\ forall c, In c (tag_children t) ->
             exists c0,
               In c0 (tag_children t0) /\ child_title c = child_title c0
               /\ child_actions c
                  = filter (actionFilter matches) (child_actions c0))
  /\ (forall c, In c (tag_children t) ->
        child_actions c <> []
        /\ forall act, In act (child_actions c) ->
             matches (act_path act) = true
             \/ matches (act_method act) = true
             \/ matches (act_title act) = true).
Proof.
  intros H. apply filterActions_in in H.
  destruct H as (t0 & Hin & Ht & Hne & Hc). repeat split; auto.
  - exists t0. repeat split; auto. intros c Hcin.
    destruct (Hc c Hcin) as (c0 & H0 & H1 & _ & H2). eauto.
  - destruct (Hc c H) as (c0 & _ & _ & H1 & _). exact H1.
  - intros act Hact. destruct (Hc c H) as (c0 & _ & _ & _ & H2).
    rewrite H2 in Hact. apply filter_In in Hact. destruct Hact as [_ Hm].
    unfold actionFilter in Hm. rewrite !orb_true_iff in Hm. tauto.
Qed.

(** X10: an action that matches is never lost: it is found in the
    result under the titles of its tag and of its child. *)
Theorem filterActions_complete (tagActions : list tag) (t0 : tag)
        (c0 : child) (act : action) :
  In t0 tagActions -> In c0 (tag_children t0) ->
  In act (child_actions c0) -> actionFilter matches act = true ->
  exists t c,
    In t (filterActions tagActions matches)
    /\ tag_title t = tag_title t0
    /\ In c (tag_children t) /\ child_title c = child_title c0
    /\ In act (child_actions c).
Proof.
  intros Ht Hc Ha Hm.
  assert (Hact : In act (filter (actionFilter matches) (child_actions c0)))
    by (apply filter_In; auto).
  set (c := {| child_title := child_title c0;
               child_actions :=
                 filter (actionFilter matches) (child_actions c0) |}).
  set (cs := compact (map (keepChild matches) (tag_children t0))).
  assert (Hcin : In c cs).
  { unfold cs. rewrite compact_in, in_map_iff. exists c0. split; [|exact Hc].
    unfold keepChild, filteredItem, c.
    destruct (filter (actionFilter matches) (child_actions c0));
      [contradiction|reflexivity]. }
  exists {| tag_title := tag_title t0; tag_children := cs |}, c.
  repeat split; auto.
  unfold filterActions. rewrite compact_in, in_map_iff. exists t0.
  split; [|exact Ht]. unfold keepTag. fold cs. unfold filteredItem.
  destruct cs; [contradiction|reflexivity].
Qed.

Lemma filter_idem {A} (p : A -> bool) (l : list A) :
  filter p (filter p l) = filter p l.
Proof.
  induction l as [|x l IH]; [reflexivity|]. simpl.
  destruct (p x) eqn:E; simpl; [rewrite E|]; now rewrite ?IH.
Qed.

Lemma compact_map_idem {A} (F : A -> option A) (l : list A) :
  (forall x y, F x = Some y -> F y = Some y) ->
  compact (map F (compact (map F l))) = compact (map F l).
Proof.
  intros HF. induction l as [|x l IH]; [reflexivity|].
  cbn [map compact flat_map]. destruct (F x) as [y|] eqn:E; cbn [app].
  - cbn [map flat_map]. rewrite (HF _ _ E). cbn [app]. f_equal. exact IH.
  - exact IH.
Qed.

Lemma keepChild_fixed (c c' : child) :
  keepChild matches c = Some c' -> keepChild matches c' = Some c'.
Proof.
  unfold keepChild. intros H. apply filteredItem_some in H.
  destruct H as [Hne ->]. cbn [child_title child_actions].
  rewrite filter_idem.
  destruct (filter (actionFilter matches) (child_actions c));
    [congruence|reflexivity].
Qed.

Lemma keepTag_fixed (t t' : tag) :
  keepTag matches t = Some t' -> keepTag matches t' = Some t'.
Proof.
  unfold keepTag. intros H. apply filteredItem_some in H.
  destruct H as [Hne ->]. cbn [tag_title tag_children].
  rewrite (compact_map_idem (keepChild matches) _ keepChild_fixed).
  destruct (compact (map (keepChild matches) (tag_children t)));
    [congruence|reflexivity].
Qed.

(** X11: filtering twice with the same pattern gives what filtering once
    gives. *)
Theorem filterActions_idempotent (tagActions : list tag) :
  filterActions (filterActions tagActions matches) matches
  = filterActions tagActions matches.
Proof.
  unfold filterActions. apply compact_map_idem. exact keepTag_fixed.
Qed.

End FilterFacts.

Lemma filterActions_sound_witness :
  In {| Winter.tag_title := str "Accounts";
        Winter.tag_children :=
          [ {| Winter.child_title := str "Users";
               Winter.child_actions := [WinterExample.getUsers] |} ] |}
     (Winter.filterActions WinterExample.tags WinterExample.user)
  /\ [ {| Winter.child_title := str "Users";
          Winter.child_actions := [WinterExample.getUsers] |} ] <> [].
Proof.
  assert (H : In {| Winter.tag_title := str "Accounts";
                    Winter.tag_children :=
                      [ {| Winter.child_title := str "Users";
                           Winter.child_actions := [WinterExample.getUsers] |} ] |}
                 (Winter.filterActions WinterExample.tags WinterExample.user))
    by (vm_compute; now left).
  split; [exact H|].
  exact (proj1 (@filterActions_sound WinterExample.user WinterExample.tags _ H)).
Defined.

Lemma filterActions_complete_witness :
  exists t c,
    In t (Winter.filterActions WinterExample.tags WinterExample.user)
    /\ Winter.tag_title t = str "Accounts"
    /\ In c (Winter.tag_children t) /\ Winter.child_title c = str "Users"
    /\ In WinterExample.getUsers (Winter.child_actions c).
Proof.
  refine (@filterActions_complete WinterExample.user WinterExample.tags
            (nth 0 WinterExample.tags (Winter.Build_tag [] []))
            {| Winter.child_title := str "Users";
               Winter.child_actions := [WinterExample.getUsers] |}
            WinterExample.getUsers _ _ _ _).
  - now left.
  - now left.
  - now left.
  - vm_compute. reflexivity.
Defined.

(** ** populate, basePath, alias, toc *)

Section PopulateFacts.

Import Winter.

Context {V : Type}.

Lemma find_append {A} (p : A -> bool) (l1 l2 : list A) :
  find p (l1 ++ l2)
  = match find p l1 with Some x => Some x | None => find p l2 end.
Proof.
  induction l1 as [|x l1 IH]; [reflexivity|]. simpl.
  now destruct (p x).
Qed.

Lemma populate_fold (l : list (entry V)) (acc : Obj.t V) (n : text) :
  Obj.get n (fold_left (fun prev cur => Obj.set (name cur) (value cur) prev)
               l acc)
  = match find (fun e => text_eqb (name e) n) (rev l) with
    | Some e => Some (value e)
    | None => Obj.get n acc
    end.
Proof.
  revert acc. induction l as [|e l IH]; intros acc; [reflexivity|].
  cbn [fold_left rev]. rewrite IH, find_append.
  destruct (find (fun e0 => text_eqb (name e0) n) (rev l)); [reflexivity|].
  cbn [find]. destruct (text_eqb_spec (name e) n) as [<-|Hne].
  - now rewrite get_set_same.
  - apply get_set_other. congruence.
Qed.

Lemma find_rev_filter (p q : entry V -> bool) (l : list (entry V)) :
  find q (rev (filter p l)) = find (fun e => p e && q e) (rev l).
Proof.
  induction l as [|e l IH]; [reflexivity|]. cbn [filter rev].
  destruct (p e) eqn:E.
  - cbn [rev]. rewrite !find_append, IH.
    destruct (find (fun e0 => p e0 && q e0) (rev l)); [reflexivity|].
    cbn [find]. now rewrite E.
  - rewrite find_append, <- IH.
    destruct (find q (rev (filter p l))); [reflexivity|].
    cbn [find]. now rewrite E.
Qed.

Lemma populate_plain (l : list (entry V)) (acc : Obj.t V) :
  Forall (fun e => name e <> protoName) l ->
  fold_left (fun prev cur => Obj.assign (name cur) (value cur) prev) l acc
  = fold_left (fun prev cur => Obj.set (name cur) (value cur) prev) l acc.
Proof.
  intros H. revert acc. induction H as [|e l He _ IH]; intros acc;
    [reflexivity|].
  cbn [fold_left]. unfold Obj.assign at 2.
  destruct (text_eqb_spec (name e) protoName); [contradiction|]. apply IH.
Qed.

(** X12: when no entry in use is named [__proto__], the object built by
    [populate] holds, under each name, the value of the last entry of
    that name that is in use; a name that only unused entries carry is
    not in it. *)
Theorem populate_last_used (arr : list (entry V)) (n : text) :
  Forall (fun e => used e = true -> name e <> protoName) arr ->
  Obj.get n (populate arr)
  = option_map value
      (find (fun e => used e && text_eqb (name e) n) (rev arr)).
Proof.
  intros H. unfold populate. rewrite populate_plain.
  - rewrite populate_fold, find_rev_filter.
    now destruct (find _ (rev arr)).
  - apply Forall_forall. intros e He. apply filter_In in He.
    destruct He as [Hin Hu]. rewrite Forall_forall in H. now apply H.
Qed.

End PopulateFacts.

Lemma populate_last_used_witness :
  Obj.get (str "Accept") (Winter.populate WinterExample.headers)
  = Some (str "application/json").
Proof.
  rewrite (@populate_last_used text WinterExample.headers (str "Accept"));
    [reflexivity|].
  repeat constructor; intros _; vm_compute; discriminate.
Defined.

Section TextFacts.

Import Winter.

Lemma strip_app (p s : text) : MiniJson.strip p (p ++ s) = Some s.
Proof.
  induction p as [|c p IH]; [reflexivity|]. simpl.
  now rewrite N.eqb_refl.
Qed.

Lemma strip_some (p s rest : text) :
  MiniJson.strip p s = Some rest -> s = p ++ rest.
Proof.
  revert s. induction p as [|c p IH]; intros s; simpl.
  - now intros [= ->].
  - destruct s as [|x s]; [discriminate|].
    destruct (N.eqb_spec c x) as [->|]; [|discriminate].
    intros H. now rewrite (IH _ H).
Qed.

Lemma endsWith_spec (s suffix : text) :
  endsWith s suffix = true <-> exists pre, s = pre ++ suffix.
Proof.
  unfold endsWith. split.
  - destruct (MiniJson.strip (rev suffix) (rev s)) as [rest|] eqn:E;
      [|discriminate].
    intros _. apply strip_some in E. exists (rev rest).
    rewrite <- (rev_involutive s), E, rev_app_distr.
    now rewrite rev_involutive.
  - intros [pre ->]. now rewrite rev_app_distr, strip_app.
Qed.

(** X13: the base path returned always ends with a slash, a path that
    ends with a slash is returned as it is, so the function applied twice
    is the function applied once; the packer's [htmlBasePath] is the same
    function. *)
Theorem basePath_slash (p : text) :
  endsWith (basePath p) (str "/") = true
  /\ (endsWith p (str "/") = true -> basePath p = p)
  /\ basePath (basePath p) = basePath p
  /\ htmlBasePath p = basePath p.
Proof.
  assert (H1 : endsWith (basePath p) (str "/") = true).
  { unfold basePath. destruct (endsWith p (str "/")) eqn:E; [exact E|].
    apply endsWith_spec. now exists p. }
  repeat split; auto.
  - intros H. unfold basePath. now rewrite H.
  - unfold basePath at 1. now rewrite H1.
Qed.

Lemma basePath_slash_witness :
  basePath (str "/docs/") = str "/docs/"
  /\ basePath (str "/docs") = str "/docs/".
Proof.
  split; [|vm_compute; reflexivity].
  apply (proj1 (proj2 (basePath_slash (str "/docs/")))).
  vm_compute. reflexivity.
Defined.

Lemma match_lit_exact (l s : text) :
  match_seq (map Chr l) s <> None -> exists post, s = l ++ post.
Proof.
  revert s. induction l as [|c l IH]; intros s; simpl.
  - intros _. now exists s.
  - destruct s as [|x s]; [congruence|].
    destruct (N.eqb_spec x c) as [->|]; [|congruence].
    intros H. destruct (IH s) as [post ->].
    + destruct (match_seq (map Chr l) s); [discriminate|]. exact H.
    + now exists post.
Qed.

Lemma occurs_lit_iff (l s : text) :
  l <> [] ->
  occurs (map Chr l) s = true <-> exists pre post, s = pre ++ l ++ post.
Proof.
  intros Hl. split.
  - induction s as [|x s IH]; [discriminate|]. simpl occurs.
    destruct (match_seq (map Chr l) (x :: s)) eqn:E.
    + intros _. destruct (match_lit_exact l (x :: s)) as [post Hp];
        [congruence|]. exists [], post. exact Hp.
    + intros H. destruct (IH H) as (pre & post & ->).
      now exists (x :: pre), post.
  - intros (pre & post & ->). induction pre as [|x pre IH].
    + destruct l as [|c l]; [congruence|]. cbn [app occurs].
      change (c :: l ++ post) with ((c :: l) ++ post).
      now rewrite match_lit.
    + cbn [app occurs].
      destruct (match_seq (map Chr l) (x :: pre ++ l ++ post));
        [reflexivity|exact IH].
Qed.

(** X14: [alias] answers json exactly for the texts that hold the letters
    json somewhere, in lower case, and markup for every other argument,
    the undefined one and the empty text included. *)
Theorem alias_json_iff (s : option text) :
  (alias s = str "json"
   <-> exists pre post, s = Some (pre ++ str "json" ++ post))
  /\ (alias s = str "json" \/ alias s = str "markup").
Proof.
  unfold alias. destruct s as [[|c t]|].
  - split; [|now right]. split; [discriminate|].
    intros (pre & post & H). injection H as H. destruct pre; discriminate.
  - destruct (occurs (lit "json") (c :: t)) eqn:E.
    + split; [|now left]. split; [|reflexivity]. intros _.
      apply (@occurs_lit_iff (str "json") (c :: t)) in E; [|discriminate].
      destruct E as (pre & post & ->). now exists pre, post.
    + split; [|now right]. split; [discriminate|].
      intros (pre & post & H). injection H as H.
      assert (E' : occurs (lit "json") (c :: t) = true).
      { apply (@occurs_lit_iff (str "json") (c :: t)); [discriminate|].
        now exists pre, post. }
      congruence.
  - split; [|now right]. split; [discriminate|].
    intros (pre & post & H). discriminate.
Qed.

Lemma minDepth_spec (depths : list Z) :
  match minDepth depths with
  | Some m => In m depths /\ forall d, In d depths -> (m <= d)%Z
  | None => depths = []
  end.
Proof.
  induction depths as [|d depths IH]; [reflexivity|]. cbn [minDepth].
  destruct (minDepth depths) as [m|].
  - destruct IH as [Hin Hle]. split.
    + destruct (Z.min_spec d m) as [[_ ->]|[_ ->]]; [now left|now right].
    + intros d' [<-|Hd]; [apply Z.le_min_l|].
      specialize (Hle _ Hd). pose proof (Z.le_min_r d m). lia.
  - subst. split; [now left|]. intros d' [<-|[]]. lia.
Qed.

(** X15: [toc] lists the headings of the lexer in their order, with
    levels counted from the shallowest heading: no level is negative, the
    level of some heading is 0 when there is a heading, and two headings
    differ in level as they differ in depth. *)
Theorem toc_levels (lexer : text -> list token) (source : text) :
  source <> [] ->
  let headings :=
    filter (fun elem => text_eqb (tok_type elem) (str "heading"))
           (lexer source) in
  map head_text (toc lexer (Some source)) = map tok_text headings
  /\ (forall hd, In hd (toc lexer (Some source)) -> (0 <= head_level hd)%Z)
  /\ (headings <> [] ->
      exists hd, In hd (toc lexer (Some source)) /\ head_level hd = 0%Z)
  /\ (exists m, map head_level (toc lexer (Some source))
                = map (fun t => (tok_depth t - m)%Z) headings).
Proof.
  intros Hs headings. unfold toc. destruct source as [|c s]; [congruence|].
  fold headings. pose proof (minDepth_spec (map tok_depth headings)) as Hm.
  destruct (minDepth (map tok_depth headings)) as [m|].
  - destruct Hm as [Hin Hle]. repeat split.
    + now rewrite !map_map.
    + intros hd Hhd. apply in_map_iff in Hhd.
      destruct Hhd as (t & <- & Ht). cbn.
      assert (m <= tok_depth t)%Z by (apply Hle; now apply in_map). lia.
    + intros _. apply in_map_iff in Hin. destruct Hin as (t & Ht & Hin).
      exists {| head_text := tok_text t; head_level := tok_depth t - m |}.
      split; [|cbn; lia]. apply in_map_iff. now exists t.
    + exists m. now rewrite map_map.
  - apply map_eq_nil in Hm. rewrite Hm. repeat split; try reflexivity.
    + intros hd [].
    + congruence.
    + now exists 0%Z.
Qed.

Lemma toc_levels_witness :
  map head_level (toc WinterExample.lexer (Some (str "## API")))
  = [0%Z; 1%Z]
  /\ map head_text (toc WinterExample.lexer (Some (str "## API")))
     = [str "API"; str "Users"].
Proof.
  split; [vm_compute; reflexivity|].
  refine (proj1 (@toc_levels WinterExample.lexer (str "## API") _)).
  discriminate.
Defined.

End TextFacts.

(** * Legacy template expressions *)

Lemma plus_cons_none (test : N -> bool) (k : text -> option found)
      (x : N) (s : text) :
  plus test k s = None -> k s = None -> plus test k (x :: s) = None.
Proof.
  intros Hp Hk. simpl. rewrite Hp, Hk. now destruct (test x).
Qed.

(** A group cannot end inside or after a chunk none of whose units starts
    the continuation. *)
Lemma plus_chunk_none (test : N -> bool) (K : regex) (c0 : N) (g s : text) :
  hd_error K = Some (Chr c0) ->
  Forall (fun x => x <> c0) g ->
  plus test (match_seq K) s = None ->
  match_seq K s = None ->
  plus test (match_seq K) (g ++ s) = None.
Proof.
  intros Hh Hg Hp Hk. induction Hg as [|x g Hx Hg IH]; [exact Hp|].
  simpl app. apply plus_cons_none; [exact IH|].
  destruct Hg as [|y g Hy Hg]; [exact Hk|].
  simpl app. now apply (@match_head_ne K c0).
Qed.

Lemma chunk_blocks (K : regex) (c0 : N) (g s : text) :
  hd_error K = Some (Chr c0) ->
  Forall (fun x => x <> c0) g ->
  match_seq K s = None ->
  match_seq K (g ++ s) = None.
Proof.
  intros Hh Hg Hk. destruct Hg as [|x g Hx Hg]; [exact Hk|].
  simpl app. now apply (@match_head_ne K c0).
Qed.

Lemma group_match (k : cls) (K : regex) (g t : text) (caps : list text)
      (n : nat) :
  g <> [] -> Forall (fun x => cls_test k x = true) g ->
  plus (cls_test k) (match_seq K) t = None ->
  match_seq K t = Some (caps, n) ->
  match_seq (Group k :: K) (g ++ t) = Some (g :: caps, length g + n).
Proof.
  intros Hg Hall Hp Hk. cbn [match_seq].
  now rewrite (@plus_stop (cls_test k) _ g t caps n).
Qed.

Lemma group_dead (k : cls) (K : regex) (s : text) :
  plus (cls_test k) (match_seq K) s = None ->
  match_seq (Group k :: K) s = None.
Proof. intros H. cbn [match_seq]. now rewrite H. Qed.

Lemma not_space_not_terminator (x : N) :
  isWhiteSpace x = false -> isLineTerminator x = false.
Proof.
  intros H. unfold isLineTerminator.
  destruct (N.eqb_spec x 10) as [E|_];
    [rewrite E in H; vm_compute in H; discriminate|].
  destruct (N.eqb_spec x 13) as [E|_];
    [rewrite E in H; vm_compute in H; discriminate|].
  destruct (N.eqb_spec x 8232) as [E|_];
    [rewrite E in H; vm_compute in H; discriminate|].
  destruct (N.eqb_spec x 8233) as [E|_];
    [rewrite E in H; vm_compute in H; discriminate|].
  reflexivity.
Qed.

Lemma plainName_spec (a : text) :
  plainName a = true ->
  a <> [] /\ hd 0%N a <> 46%N
  /\ Forall (fun x => isLineTerminator x = false) a
  /\ Forall (fun x => x <> 32%N) a
  /\ Forall (fun x => x <> 60%N) a /\ Forall (fun x => x <> 123%N) a.
Proof.
  destruct a as [|c a]; [discriminate|]. unfold plainName.
  intros H. apply andb_prop in H. destruct H as [Hc H].
  rewrite forallb_forall in H. split; [discriminate|]. split.
  { simpl. destruct (N.eqb_spec c 46); [discriminate|assumption]. }
  repeat split; apply Forall_forall; intros x Hx; specialize (H x Hx);
    unfold nameUnit in H; apply andb_prop in H; destruct H as [H H3];
    apply andb_prop in H; destruct H as [H1 H2].
  - apply not_space_not_terminator. now destruct (isWhiteSpace x).
  - intros E. rewrite E in H1. vm_compute in H1. discriminate.
  - destruct (N.eqb_spec x 60); [discriminate|assumption].
  - destruct (N.eqb_spec x 123); [discriminate|assumption].
Qed.

(** After the literal [l] the pattern wants a unit that the text does not
    have there. *)
Lemma lit_then_other (l : text) (c x : N) (r : regex) (s : text) :
  x <> c -> match_seq (map Chr l ++ Chr c :: r) (l ++ x :: s) = None.
Proof.
  intros Hx. rewrite match_lit_app.
  now rewrite (@match_head_ne (Chr c :: r) c eq_refl x s Hx).
Qed.

(** A pattern that goes on with a word and a space cannot match a text
    that goes on with a name and a unit which is neither a space nor in the
    word. *)
Lemma word_blocked (word : text) (r : regex) (d : N) :
  d <> 32%N -> ~ In d word ->
  forall a s,
    Forall (fun x => x <> 32%N) a ->
    match_seq (map Chr word ++ Chr 32 :: r) (a ++ d :: s) = None.
Proof.
  intros Hd. induction word as [|w word IH]; intros Hw a s Ha.
  - destruct Ha as [|x a Hx Ha]; simpl app.
    + now apply (@match_head_ne (Chr 32 :: r) 32).
    + now apply (@match_head_ne (Chr 32 :: r) 32).
  - destruct Ha as [|x a Hx Ha]; cbn [map app match_seq].
    + destruct (N.eqb_spec d w) as [->|]; [|reflexivity].
      exfalso. apply Hw. now left.
    + destruct (x =? w)%N; [|reflexivity].
      rewrite IH; auto. intros Hin. apply Hw. now right.
Qed.

Lemma subst_tpl_upcase (g : text) :
  subst tpl_upcase [g] = str "{{upcase " ++ g ++ str "}}".
Proof.
  unfold tpl_upcase, subst. cbn [flat_map nth pred]. now rewrite app_nil_r.
Qed.

Lemma subst_tpl_join (g : text) :
  subst tpl_join [g] = str "{{join " ++ g ++ str "}}".
Proof.
  unfold tpl_join, subst. cbn [flat_map nth pred]. now rewrite app_nil_r.
Qed.

Lemma rule_upcase tpl g rest :
  g <> [] -> Forall (fun x => isLineTerminator x = false) g ->
  replace re_upcase tpl (str "{{." ++ g ++ str " | upcase}}" ++ NL :: rest)
  = subst tpl [g] ++ replace re_upcase tpl (NL :: rest).
Proof.
  apply (@bracket_rule re_upcase (lit " | upcase}}")); intros; reflexivity.
Qed.

Lemma rule_join_tight tpl g rest :
  g <> [] -> Forall (fun x => isLineTerminator x = false) g ->
  replace re_join tpl (str "{{join ." ++ g ++ strq " ','}}" ++ NL :: rest)
  = subst tpl [g] ++ replace re_join tpl (NL :: rest).
Proof.
  apply (@bracket_rule re_join (litq " '," ++ OptSpace :: litq "'}}"));
    intros; reflexivity.
Qed.

Lemma rule_join_spaced tpl g rest :
  g <> [] -> Forall (fun x => isLineTerminator x = false) g ->
  replace re_join tpl (str "{{join ." ++ g ++ strq " ', '}}" ++ NL :: rest)
  = subst tpl [g] ++ replace re_join tpl (NL :: rest).
Proof.
  apply (@bracket_rule re_join (litq " '," ++ OptSpace :: litq "'}}"));
    intros; reflexivity.
Qed.

(** The upcase rule does not match a leading-dot access that is not
    followed by the pipe. *)
Lemma upcase_dead (a : text) :
  Forall (fun x => x <> 32%N) a ->
  match_seq re_upcase (str "{{." ++ a ++ str "}}" ++ [NL]) = None.
Proof.
  intros Ha.
  change (match_seq re_upcase (str "{{." ++ a ++ str "}}" ++ [NL]))
    with (Nat.iter 3 advance
            (match_seq (Group Dot :: lit " | upcase}}")
               (a ++ str "}}" ++ [NL]))).
  rewrite group_dead; [reflexivity|].
  apply (@plus_chunk_none _ (lit " | upcase}}") 32); auto; reflexivity.
Qed.

Lemma rule_dot (s : text) :
  replace re_dot tpl_open (str "{{." ++ s)
  = str "{{" ++ replace re_dot tpl_open s.
Proof.
  rewrite (@replace_match re_dot tpl_open (str "{{.") s []);
    [|discriminate|reflexivity].
  unfold tpl_open, subst. cbn [flat_map]. now rewrite app_nil_r.
Qed.

Ltac fire_with L E :=
  let F := fresh "F" in
  pose proof E as F; rewrite ?L in F; norm_text_in F; rewrite F; clear F.

Ltac dead E :=
  let F := fresh "F" in
  pose proof E as F; norm_text_in F;
  rewrite (@replace_nomatch_cons _ _ _ _ F); clear F.

(** X16: a leading-dot field access, an upcase pipe and an old join call
    with its separator are normalized to the bare field access, the upcase
    helper call and the join helper call without separator. *)
Theorem simple_expressions_rewritten (a : text) :
  plainName a = true ->
  rewriteSource (leadingDot a) = str "{{" ++ a ++ str "}}" ++ [NL]
  /\ rewriteSource (upcasePipe a) = str "{{upcase " ++ a ++ str "}}" ++ [NL]
  /\ rewriteSource (joinSeparator a false)
     = str "{{join " ++ a ++ str "}}" ++ [NL]
  /\ rewriteSource (joinSeparator a true)
     = str "{{join " ++ a ++ str "}}" ++ [NL].
Proof.
  intros H.
  destruct (plainName_spec _ H) as (Hne & Hdot & Hline & H32 & H60 & H123).
  repeat split.
  - open_rules. unfold leadingDot. norm_text. pass_rule.
    dead (upcase_dead H32). pass_rule.
    fire_with subst_tpl_upcase (rule_dot (a ++ str "}}" ++ [NL])).
    pass_rule. reflexivity.
  - open_rules. unfold upcasePipe. norm_text. pass_rule.
    fire_with subst_tpl_upcase (@rule_upcase tpl_upcase a [] Hne Hline).
    pass_rule. reflexivity.
  - open_rules. unfold joinSeparator. norm_text. pass_rule.
    fire_with subst_tpl_join (@rule_join_tight tpl_join a [] Hne Hline).
    pass_rule. reflexivity.
  - open_rules. unfold joinSeparator. norm_text. pass_rule.
    fire_with subst_tpl_join (@rule_join_spaced tpl_join a [] Hne Hline).
    pass_rule. reflexivity.
Qed.

Lemma simple_expressions_rewritten_witness :
  rewriteSource (upcasePipe (str "title")) = str "{{upcase title}}" ++ [NL].
Proof.
  exact (proj1 (proj2 (simple_expressions_rewritten (str "title") eq_refl))).
Defined.

(** ** Indexed lookups *)

Lemma digitRun_spec (n : text) :
  digitRun n = true ->
  n <> [] /\ Forall (fun x => cls_test Digit x = true) n
  /\ Forall (fun x => x <> 32%N) n /\ Forall (fun x => x <> 34%N) n
  /\ Forall (fun x => x <> 60%N) n /\ Forall (fun x => x <> 123%N) n.
Proof.
  destruct n as [|d n]; [discriminate|]. unfold digitRun.
  rewrite forallb_forall. intros H. split; [discriminate|].
  repeat split; apply Forall_forall; intros x Hx; specialize (H x Hx);
    try exact H; intros E; rewrite E in H; vm_compute in H; discriminate.
Qed.

Lemma lit_then_name (l : text) (c : N) (r : regex) (a s : text) :
  a <> [] -> hd 0%N a <> c ->
  match_seq (map Chr l ++ Chr c :: r) (l ++ a ++ s) = None.
Proof.
  intros Ha Hc. destruct a as [|x a]; [congruence|].
  simpl app. now apply lit_then_other.
Qed.

Lemma forall_hd (P : N -> Prop) (a : text) :
  a <> [] -> Forall P a -> P (hd 0%N a).
Proof. intros Ha H. destruct H; [congruence|assumption]. Qed.

(** Goals [plus test (match_seq K) s = None] for a continuation [K] that
    starts with the literal [c0], on a text made of units and of chunks
    without [c0]. *)
Ltac plus_dead c0 :=
  repeat first
    [ reflexivity
    | apply plus_cons_none;
      [ | first
            [ reflexivity
            | apply (@chunk_blocks _ c0);
              [ reflexivity | assumption | reflexivity ] ] ]
    | apply (@plus_chunk_none _ _ c0);
      [ reflexivity | assumption | | reflexivity ] ].

Section Index1.

Variables a n c : text.
Hypothesis Ha : plainName a = true.
Hypothesis Hn : digitRun n = true.
Hypothesis Hc : plainName c = true.

Lemma index1_later :
  plus (cls_test Dot) (match_seq Tail.digits1)
       (strq " '" ++ n ++ strq "'}}{{." ++ c ++ str "}}{{end}}" ++ [NL])
  = None.
Proof.
  destruct (plainName_spec _ Hc) as (_ & _ & _ & Hc32 & _ & _).
  destruct (digitRun_spec _ Hn) as (_ & _ & Hn32 & _ & _ & _).
  norm_text. plus_dead 32%N.
Qed.

Lemma index1_field :
  match_seq Tail.field1 (strq "'}}{{." ++ c ++ str "}}{{end}}" ++ [NL])
  = Some ([c], 6 + (length c + 9)).
Proof.
  destruct (plainName_spec _ Hc) as (Hcne & _ & Hcl & _ & _ & _).
  change (match_seq Tail.field1
            (strq "'}}{{." ++ c ++ str "}}{{end}}" ++ [NL]))
    with (Nat.iter 6 advance
            (match_seq (Group Dot :: Tail.end1)
               (c ++ str "}}{{end}}" ++ [NL]))).
  rewrite (@group_match Dot Tail.end1 c (str "}}{{end}}" ++ [NL]) [] 9 Hcne);
    try reflexivity.
  eapply Forall_impl; [|exact Hcl]. intros x Hx. simpl. now rewrite Hx.
Qed.

Lemma index1_digits :
  match_seq Tail.digits1
    (strq " '" ++ n ++ strq "'}}{{." ++ c ++ str "}}{{end}}" ++ [NL])
  = Some ([n; c], 2 + (length n + (6 + (length c + 9)))).
Proof.
  destruct (digitRun_spec _ Hn) as (Hnne & Hnd & _ & _ & _ & _).
  unfold Tail.digits1, litq. rewrite match_lit_app.
  rewrite (@group_match Digit Tail.field1 n
             (strq "'}}{{." ++ c ++ str "}}{{end}}" ++ [NL]) [c] _
             Hnne Hnd eq_refl index1_field).
  reflexivity.
Qed.

Lemma index1_match :
  match_seq re_index1 (withIndex a n c ++ [NL])
  = Some ([a; n; c], length (withIndex a n c)).
Proof.
  destruct (plainName_spec _ Ha) as (Hane & _ & Hal & _ & _ & _).
  unfold withIndex. rewrite <- !app_assoc.
  change re_index1
    with (map Chr (str "{{with index .") ++ Group Dot :: Tail.digits1).
  rewrite match_lit_app.
  rewrite (@group_match Dot Tail.digits1 a
             (strq " '" ++ n ++ strq "'}}{{." ++ c ++ str "}}{{end}}"
                   ++ [NL])
             [n; c] (2 + (length n + (6 + (length c + 9)))) Hane).
  - do 2 f_equal. rewrite !length_app. simpl. lia.
  - eapply Forall_impl; [|exact Hal]. intros x Hx. simpl. now rewrite Hx.
  - exact index1_later.
  - exact index1_digits.
Qed.

(** The two-level rule does not match a one-level lookup. *)
Lemma index2_dead :
  match_seq re_index2 (withIndex a n c ++ [NL]) = None.
Proof.
  destruct (plainName_spec _ Ha) as (_ & _ & _ & Ha32 & _ & _).
  destruct (plainName_spec _ Hc) as (_ & _ & _ & Hc32 & _ & _).
  destruct (digitRun_spec _ Hn) as (_ & _ & Hn32 & Hn34 & _ & _).
  unfold withIndex. rewrite <- !app_assoc.
  change re_index2
    with (map Chr (str "{{with index .") ++ Group Dot :: Tail.first2).
  rewrite match_lit_app, group_dead; [reflexivity|].
  apply (@plus_chunk_none _ _ 32%N); [reflexivity|assumption| |].
  - norm_text. plus_dead 32%N.
  - unfold Tail.first2, litq. rewrite match_lit_app, group_dead;
      [reflexivity|].
    apply (@plus_chunk_none _ _ 34%N); [reflexivity|assumption| |];
      reflexivity.
Qed.

End Index1.

Lemma subst_tpl_path3 (a n c : text) :
  subst tpl_path3 [a; n; c]
  = str "{{" ++ a ++ str "." ++ n ++ str "." ++ c ++ str "}}".
Proof.
  unfold tpl_path3, subst. cbn [flat_map nth pred].
  now rewrite app_nil_r.
Qed.

(** What the later rules make of a rewritten path [{{a. ...]: nothing. *)
Section PathOutput.

Variable a : text.
Hypothesis Ha : plainName a = true.

Lemma out_word (word : text) (r : regex) (s : text) :
  ~ In 46%N word ->
  match_seq (map Chr (str "{{") ++ map Chr word ++ Chr 32 :: r)
    (str "{{" ++ a ++ 46%N :: s) = None.
Proof.
  intros Hw. destruct (plainName_spec _ Ha) as (_ & _ & _ & H32 & _ & _).
  rewrite match_lit_app, word_blocked; auto. discriminate.
Qed.

Lemma out_dot (r : regex) (s : text) :
  match_seq (map Chr (str "{{") ++ Chr 46 :: r) (str "{{" ++ a ++ s) = None.
Proof.
  destruct (plainName_spec _ Ha) as (Hne & Hdot & _).
  now apply lit_then_name.
Qed.

Lemma out_brace (r : regex) (s : text) :
  match_seq (map Chr [123%N] ++ Chr 123 :: r) ([123%N] ++ a ++ s) = None.
Proof.
  destruct (plainName_spec _ Ha) as (Hne & _ & _ & _ & _ & H123).
  apply lit_then_name; [assumption|]. now apply forall_hd.
Qed.

End PathOutput.

Ltac dead_as R E :=
  let F := fresh "F" in
  let T := type of E in
  match T with
  | match_seq _ ?s = None => assert (F : match_seq R s = None) by exact E
  end;
  unfold withIndex, withIndexJoin, withIndex2, joinEnd in F;
  norm_text_in F; rewrite (@replace_nomatch_cons R _ _ _ F); clear F.

Ltac in_word := vm_compute; intros E; repeat (destruct E as [E|E]; [discriminate E|]); exact E.

(** The rules after the indexed lookups leave a rewritten path alone. *)
Ltac rest_of k R := eval vm_compute in (skipn k R).

(** A rule that starts with [{{word ] or with [{{.] finds nothing in a
    rewritten path [{{a.s]. *)
Ltac pass_word R word a Ha s :=
  let w := rest_of 7%nat R in
  let b := rest_of 2%nat R in
  dead_as R (@out_word a Ha word w s ltac:(in_word));
  dead_as R (@out_brace a Ha b (46%N :: s));
  pass_rule.

Ltac pass_dot R a Ha s :=
  let w := rest_of 3%nat R in
  let b := rest_of 2%nat R in
  dead_as R (@out_dot a Ha w (46%N :: s));
  dead_as R (@out_brace a Ha b (46%N :: s));
  pass_rule.

Ltac pass_tail a Ha s :=
  pass_word re_join (str "join") a Ha s;
  pass_dot re_upcase a Ha s;
  pass_dot re_dot a Ha s.

Ltac pass_path a Ha s :=
  pass_word re_index_join (str "with") a Ha s;
  pass_tail a Ha s.

(** X17: a one-level indexed lookup is flattened to the dotted path of its
    object, index and field. *)
Theorem index_lookup_flattened (a n c : text) :
  plainName a = true -> digitRun n = true -> plainName c = true ->
  rewriteSource (withIndex a n c)
  = str "{{" ++ a ++ str "." ++ n ++ str "." ++ c ++ str "}}" ++ [NL].
Proof.
  intros Ha Hn Hc.
  destruct (plainName_spec _ Ha) as (Hane & _ & Hal & Ha32 & Ha60 & Ha123).
  destruct (plainName_spec _ Hc) as (Hcne & _ & Hcl & Hc32 & Hc60 & Hc123).
  destruct (digitRun_spec _ Hn) as (Hnne & Hnd & Hn32 & Hn34 & Hn60 & Hn123).
  open_rules. unfold withIndex. norm_text. pass_rule.
  dead_as re_index2 (@index2_dead a n c Ha Hn Hc). pass_rule.
  assert (M := @index1_match a n c Ha Hn Hc).
  assert (R7 : replace re_index1 tpl_path3 (withIndex a n c ++ [NL])
               = subst tpl_path3 [a; n; c] ++ replace re_index1 tpl_path3 [NL]).
  { apply replace_match; [|exact M]. unfold withIndex. discriminate. }
  rewrite subst_tpl_path3 in R7. unfold withIndex in R7. norm_text_in R7.
  rewrite R7. clear R7 M. pass_rule.
  pass_path a Ha (n ++ str "." ++ c ++ str "}}" ++ [NL]).
  reflexivity.
Qed.

Lemma index_lookup_flattened_witness :
  rewriteSource (withIndex (str "users") (str "0") (str "name"))
  = str "{{users.0.name}}" ++ [NL].
Proof.
  exact (index_lookup_flattened (str "users") (str "0") (str "name")
           eq_refl eq_refl eq_refl).
Defined.

(** ** Indexed joins *)

Section IndexJoin.

Variables a n c : text.
Variable spaced : bool.
Hypothesis Ha : plainName a = true.
Hypothesis Hn : digitRun n = true.
Hypothesis Hc : plainName c = true.

Lemma join_end :
  match_seq Tail.endJoin (joinEnd spaced ++ [NL])
  = Some ([], length (joinEnd spaced))
  /\ plus (cls_test Dot) (match_seq Tail.endJoin) (joinEnd spaced ++ [NL])
     = None.
Proof. destruct spaced; split; vm_compute; reflexivity. Qed.

Lemma indexJoin_field :
  match_seq Tail.fieldJoin
    (strq "'}}{{join ." ++ c ++ joinEnd spaced ++ [NL])
  = Some ([c], 11 + (length c + length (joinEnd spaced))).
Proof.
  destruct (plainName_spec _ Hc) as (Hcne & _ & Hcl & _ & _ & _).
  destruct join_end as [E P].
  change (match_seq Tail.fieldJoin
            (strq "'}}{{join ." ++ c ++ joinEnd spaced ++ [NL]))
    with (Nat.iter 11 advance
            (match_seq (Group Dot :: Tail.endJoin)
               (c ++ joinEnd spaced ++ [NL]))).
  rewrite (@group_match Dot Tail.endJoin c (joinEnd spaced ++ [NL]) []
             (length (joinEnd spaced)) Hcne);
    [reflexivity| |exact P|exact E].
  eapply Forall_impl; [|exact Hcl]. intros x Hx. simpl. now rewrite Hx.
Qed.

Lemma indexJoin_later :
  plus (cls_test Dot) (match_seq Tail.digitsJoin)
       (strq " '" ++ n ++ strq "'}}{{join ." ++ c ++ joinEnd spaced ++ [NL])
  = None.
Proof.
  destruct (plainName_spec _ Hc) as (_ & _ & _ & Hc32 & _ & _).
  destruct (digitRun_spec _ Hn) as (_ & _ & Hn32 & _ & _ & _).
  destruct spaced; unfold joinEnd; norm_text; plus_dead 32%N.
Qed.

Lemma indexJoin_digits :
  match_seq Tail.digitsJoin
    (strq " '" ++ n ++ strq "'}}{{join ." ++ c ++ joinEnd spaced ++ [NL])
  = Some ([n; c],
          2 + (length n + (11 + (length c + length (joinEnd spaced))))).
Proof.
  destruct (digitRun_spec _ Hn) as (Hnne & Hnd & _ & _ & _ & _).
  unfold Tail.digitsJoin, litq. rewrite match_lit_app.
  rewrite (@group_match Digit Tail.fieldJoin n
             (strq "'}}{{join ." ++ c ++ joinEnd spaced ++ [NL]) [c] _
             Hnne Hnd eq_refl indexJoin_field).
  reflexivity.
Qed.

Lemma indexJoin_match :
  match_seq re_index_join (withIndexJoin a n c spaced ++ [NL])
  = Some ([a; n; c], length (withIndexJoin a n c spaced)).
Proof.
  destruct (plainName_spec _ Ha) as (Hane & _ & Hal & _ & _ & _).
  unfold withIndexJoin. rewrite <- !app_assoc.
  change re_index_join
    with (map Chr (str "{{with index .") ++ Group Dot :: Tail.digitsJoin).
  rewrite match_lit_app.
  rewrite (@group_match Dot Tail.digitsJoin a
             (strq " '" ++ n ++ strq "'}}{{join ." ++ c ++ joinEnd spaced
                   ++ [NL])
             [n; c]
             (2 + (length n + (11 + (length c + length (joinEnd spaced)))))
             Hane).
  - do 2 f_equal. rewrite !length_app. simpl. lia.
  - eapply Forall_impl; [|exact Hal]. intros x Hx. simpl. now rewrite Hx.
  - exact indexJoin_later.
  - exact indexJoin_digits.
Qed.

(** Neither rule for a plain indexed lookup matches an indexed join. *)
Lemma join_index2_dead :
  match_seq re_index2 (withIndexJoin a n c spaced ++ [NL]) = None.
Proof.
  destruct (plainName_spec _ Ha) as (_ & _ & _ & Ha32 & _ & _).
  destruct (plainName_spec _ Hc) as (_ & _ & _ & Hc32 & _ & _).
  destruct (digitRun_spec _ Hn) as (_ & _ & Hn32 & Hn34 & _ & _).
  unfold withIndexJoin. rewrite <- !app_assoc.
  change re_index2
    with (map Chr (str "{{with index .") ++ Group Dot :: Tail.first2).
  rewrite match_lit_app, group_dead; [reflexivity|].
  apply (@plus_chunk_none _ _ 32%N); [reflexivity|assumption| |].
  - destruct spaced; unfold joinEnd; norm_text; plus_dead 32%N.
  - unfold Tail.first2, litq. rewrite match_lit_app, group_dead;
      [reflexivity|].
    apply (@plus_chunk_none _ _ 34%N); [reflexivity|assumption| |];
      reflexivity.
Qed.

Lemma join_index1_dead :
  match_seq re_index1 (withIndexJoin a n c spaced ++ [NL]) = None.
Proof.
  destruct (plainName_spec _ Ha) as (_ & _ & _ & Ha32 & _ & _).
  destruct (plainName_spec _ Hc) as (_ & _ & _ & Hc32 & _ & _).
  destruct (digitRun_spec _ Hn) as (_ & _ & Hn32 & Hn34 & _ & _).
  unfold withIndexJoin. rewrite <- !app_assoc.
  change re_index1
    with (map Chr (str "{{with index .") ++ Group Dot :: Tail.digits1).
  rewrite match_lit_app, group_dead; [reflexivity|].
  apply (@plus_chunk_none _ _ 32%N); [reflexivity|assumption| |].
  - destruct spaced; unfold joinEnd; norm_text; plus_dead 32%N.
  - unfold Tail.digits1, litq. rewrite match_lit_app, group_dead;
      [reflexivity|].
    apply (@plus_chunk_none _ _ 34%N); [reflexivity|assumption| |];
      reflexivity.
Qed.

End IndexJoin.

(** X18: an indexed lookup around a join is flattened to the dotted path of
    its object, index and field, with or without a space in the separator;
    the join itself is dropped. *)
Theorem index_join_flattened (a n c : text) (spaced : bool) :
  plainName a = true -> digitRun n = true -> plainName c = true ->
  rewriteSource (withIndexJoin a n c spaced)
  = str "{{" ++ a ++ str "." ++ n ++ str "." ++ c ++ str "}}" ++ [NL].
Proof.
  intros Ha Hn Hc.
  destruct (plainName_spec _ Ha) as (Hane & _ & Hal & Ha32 & Ha60 & Ha123).
  destruct (plainName_spec _ Hc) as (Hcne & _ & Hcl & Hc32 & Hc60 & Hc123).
  destruct (digitRun_spec _ Hn) as (Hnne & Hnd & Hn32 & Hn34 & Hn60 & Hn123).
  assert (M := @indexJoin_match a n c spaced Ha Hn Hc).
  assert (D2 := @join_index2_dead a n c spaced Ha Hn Hc).
  assert (D1 := @join_index1_dead a n c spaced Ha Hn Hc).
  assert (R8 : replace re_index_join tpl_path3
                 (withIndexJoin a n c spaced ++ [NL])
               = subst tpl_path3 [a; n; c]
                   ++ replace re_index_join tpl_path3 [NL]).
  { apply replace_match; [|exact M]. unfold withIndexJoin. discriminate. }
  rewrite subst_tpl_path3 in R8. clear M.
  open_rules. unfold withIndexJoin in *.
  destruct spaced; unfold joinEnd in *; norm_text_in R8; norm_text; pass_rule;
    dead_as re_index2 D2; pass_rule;
    dead_as re_index1 D1; pass_rule;
    rewrite R8; clear R8 D1 D2; pass_rule;
    pass_tail a Ha (n ++ str "." ++ c ++ str "}}" ++ [NL]);
    reflexivity.
Qed.

Lemma index_join_flattened_witness :
  rewriteSource (withIndexJoin (str "users") (str "0") (str "roles") true)
  = str "{{users.0.roles}}" ++ [NL].
Proof.
  exact (index_join_flattened (str "users") (str "0") (str "roles") true
           eq_refl eq_refl eq_refl).
Defined.

(** ** Nested indexed lookups *)

Lemma subst_tpl_path5 (a n b m c : text) :
  subst tpl_path5 [a; n; b; m; c]
  = str "{{" ++ a ++ str "." ++ n ++ str "." ++ b ++ str "." ++ m
        ++ str "." ++ c ++ str "}}".
Proof.
  unfold tpl_path5, subst. cbn [flat_map nth pred].
  now rewrite app_nil_r.
Qed.

Section Index2.

Variables a n b m c : text.
Hypothesis Ha : plainName a = true.
Hypothesis Hn : digitRun n = true.
Hypothesis Hb : plainName b = true.
Hypothesis Hm : digitRun m = true.
Hypothesis Hc : plainName c = true.

Lemma index2_field :
  match_seq Tail.field2 (strq "'}}{{." ++ c ++ str "}}{{end}}{{end}}" ++ [NL])
  = Some ([c], 6 + (length c + 16)).
Proof.
  destruct (plainName_spec _ Hc) as (Hcne & _ & Hcl & _ & _ & _).
  change (match_seq Tail.field2
            (strq "'}}{{." ++ c ++ str "}}{{end}}{{end}}" ++ [NL]))
    with (Nat.iter 6 advance
            (match_seq (Group Dot :: Tail.end2)
               (c ++ str "}}{{end}}{{end}}" ++ [NL]))).
  rewrite (@group_match Dot Tail.end2 c (str "}}{{end}}{{end}}" ++ [NL])
             [] 16 Hcne);
    try reflexivity.
  eapply Forall_impl; [|exact Hcl]. intros x Hx. simpl. now rewrite Hx.
Qed.

Lemma index2_digits :
  match_seq Tail.digits2
    (strq " '" ++ m ++ strq "'}}{{." ++ c ++ str "}}{{end}}{{end}}" ++ [NL])
  = Some ([m; c], 2 + (length m + (6 + (length c + 16)))).
Proof.
  destruct (digitRun_spec _ Hm) as (Hmne & Hmd & _ & _ & _ & _).
  unfold Tail.digits2, litq. rewrite match_lit_app.
  rewrite (@group_match Digit Tail.field2 m
             (strq "'}}{{." ++ c ++ str "}}{{end}}{{end}}" ++ [NL]) [c] _
             Hmne Hmd eq_refl index2_field).
  reflexivity.
Qed.

Lemma index2_digits_later :
  plus (cls_test Dot) (match_seq Tail.digits2)
    (strq " '" ++ m ++ strq "'}}{{." ++ c ++ str "}}{{end}}{{end}}" ++ [NL])
  = None.
Proof.
  destruct (plainName_spec _ Hc) as (_ & _ & _ & Hc32 & _ & _).
  destruct (digitRun_spec _ Hm) as (_ & _ & Hm32 & _ & _ & _).
  norm_text. plus_dead 32%N.
Qed.

Lemma index2_second :
  match_seq Tail.second2
    (strq "'}}{{with index ." ++ b ++ strq " '" ++ m ++ strq "'}}{{." ++ c
          ++ str "}}{{end}}{{end}}" ++ [NL])
  = Some ([b; m; c],
          17 + (length b + (2 + (length m + (6 + (length c + 16)))))).
Proof.
  destruct (plainName_spec _ Hb) as (Hbne & _ & Hbl & _ & _ & _).
  unfold Tail.second2, litq. rewrite match_lit_app.
  rewrite (@group_match Dot Tail.digits2 b
             (strq " '" ++ m ++ strq "'}}{{." ++ c
                   ++ str "}}{{end}}{{end}}" ++ [NL])
             [m; c] (2 + (length m + (6 + (length c + 16)))) Hbne);
    [reflexivity| |exact index2_digits_later|exact index2_digits].
  eapply Forall_impl; [|exact Hbl]. intros x Hx. simpl. now rewrite Hx.
Qed.

Lemma index2_first :
  match_seq Tail.first2
    (strq " '" ++ n ++ strq "'}}{{with index ." ++ b ++ strq " '" ++ m
          ++ strq "'}}{{." ++ c ++ str "}}{{end}}{{end}}" ++ [NL])
  = Some ([n; b; m; c],
          2 + (length n
               + (17 + (length b
                        + (2 + (length m + (6 + (length c + 16)))))))).
Proof.
  destruct (digitRun_spec _ Hn) as (Hnne & Hnd & _ & _ & _ & _).
  unfold Tail.first2, litq. rewrite match_lit_app.
  rewrite (@group_match Digit Tail.second2 n
             (strq "'}}{{with index ." ++ b ++ strq " '" ++ m
                   ++ strq "'}}{{." ++ c ++ str "}}{{end}}{{end}}" ++ [NL])
             [b; m; c] _ Hnne Hnd eq_refl index2_second).
  reflexivity.
Qed.

(** The outer lookup cannot start at the inner one's index. *)
Lemma index2_inner_dead :
  match_seq Tail.first2
    (strq " '" ++ m ++ strq "'}}{{." ++ c ++ str "}}{{end}}{{end}}" ++ [NL])
  = None.
Proof.
  destruct (digitRun_spec _ Hm) as (_ & _ & _ & Hm34 & _ & _).
  unfold Tail.first2, litq. rewrite match_lit_app, group_dead;
    [reflexivity|].
  apply (@plus_chunk_none _ _ 34%N); [reflexivity|assumption| |];
    reflexivity.
Qed.

Lemma index2_later :
  plus (cls_test Dot) (match_seq Tail.first2)
    (strq " '" ++ n ++ strq "'}}{{with index ." ++ b ++ strq " '" ++ m
          ++ strq "'}}{{." ++ c ++ str "}}{{end}}{{end}}" ++ [NL])
  = None.
Proof.
  destruct (plainName_spec _ Hb) as (_ & _ & _ & Hb32 & _ & _).
  destruct (plainName_spec _ Hc) as (_ & _ & _ & Hc32 & _ & _).
  destruct (digitRun_spec _ Hn) as (_ & _ & Hn32 & _ & _ & _).
  destruct (digitRun_spec _ Hm) as (_ & _ & Hm32 & _ & _ & _).
  norm_text. plus_dead 32%N.
  apply plus_cons_none;
    [|apply (@chunk_blocks _ 32%N);
      [reflexivity|assumption|exact index2_inner_dead]].
  apply (@plus_chunk_none _ _ 32%N);
    [reflexivity|assumption| |exact index2_inner_dead].
  plus_dead 32%N.
Qed.

Lemma index2_match :
  match_seq re_index2 (withIndex2 a n b m c ++ [NL])
  = Some ([a; n; b; m; c], length (withIndex2 a n b m c)).
Proof.
  destruct (plainName_spec _ Ha) as (Hane & _ & Hal & _ & _ & _).
  unfold withIndex2. rewrite <- !app_assoc.
  change re_index2
    with (map Chr (str "{{with index .") ++ Group Dot :: Tail.first2).
  rewrite match_lit_app.
  rewrite (@group_match Dot Tail.first2 a
             (strq " '" ++ n ++ strq "'}}{{with index ." ++ b ++ strq " '"
                   ++ m ++ strq "'}}{{." ++ c ++ str "}}{{end}}{{end}}"
                   ++ [NL])
             [n; b; m; c]
             (2 + (length n
                   + (17 + (length b
                            + (2 + (length m + (6 + (length c + 16)))))))) Hane);
    [| |exact index2_later|exact index2_first].
  - do 2 f_equal. rewrite !length_app. simpl. lia.
  - eapply Forall_impl; [|exact Hal]. intros x Hx. simpl. now rewrite Hx.
Qed.

End Index2.

(** X19: a lookup by index inside a lookup by index is flattened to one
    dotted path of five parts. *)
Theorem nested_index_lookup_flattened (a n b m c : text) :
  plainName a = true -> digitRun n = true ->
  plainName b = true -> digitRun m = true -> plainName c = true ->
  rewriteSource (withIndex2 a n b m c)
  = str "{{" ++ a ++ str "." ++ n ++ str "." ++ b ++ str "." ++ m
        ++ str "." ++ c ++ str "}}" ++ [NL].
Proof.
  intros Ha Hn Hb Hm Hc.
  destruct (plainName_spec _ Ha) as (Hane & _ & Hal & Ha32 & Ha60 & Ha123).
  destruct (plainName_spec _ Hb) as (Hbne & _ & Hbl & Hb32 & Hb60 & Hb123).
  destruct (plainName_spec _ Hc) as (Hcne & _ & Hcl & Hc32 & Hc60 & Hc123).
  destruct (digitRun_spec _ Hn) as (Hnne & Hnd & Hn32 & Hn34 & Hn60 & Hn123).
  destruct (digitRun_spec _ Hm) as (Hmne & Hmd & Hm32 & Hm34 & Hm60 & Hm123).
  assert (M := @index2_match a n b m c Ha Hn Hb Hm Hc).
  assert (R6 : replace re_index2 tpl_path5 (withIndex2 a n b m c ++ [NL])
               = subst tpl_path5 [a; n; b; m; c]
                   ++ replace re_index2 tpl_path5 [NL]).
  { apply replace_match; [|exact M]. unfold withIndex2. discriminate. }
  rewrite subst_tpl_path5 in R6. clear M.
  open_rules. unfold withIndex2 in *. norm_text_in R6. norm_text. pass_rule.
  rewrite R6. clear R6. pass_rule.
  pass_word re_index1 (str "with") a Ha
    (n ++ str "." ++ b ++ str "." ++ m ++ str "." ++ c ++ str "}}" ++ [NL]).
  pass_path a Ha
    (n ++ str "." ++ b ++ str "." ++ m ++ str "." ++ c ++ str "}}" ++ [NL]).
  reflexivity.
Qed.

Lemma nested_index_lookup_flattened_witness :
  rewriteSource
    (withIndex2 (str "groups") (str "1") (str "users") (str "0") (str "name"))
  = str "{{groups.1.users.0.name}}" ++ [NL].
Proof.
  exact (nested_index_lookup_flattened (str "groups") (str "1") (str "users")
           (str "0") (str "name") eq_refl eq_refl eq_refl eq_refl eq_refl).
Defined.

(** ** Canonical text *)

(** A pattern with a literal in it matches only a text that holds the
    unit of the literal. *)
Lemma match_needs_unit (c : N) (r : regex) :
  In (Chr c) r ->
  forall u caps n, match_seq r u = Some (caps, n) -> In c u.
Proof.
  induction r as [|a r IH]; intros Hin u caps n; [contradiction|].
  destruct Hin as [->|Hin].
  - destruct u as [|x u]; simpl; [discriminate|].
    destruct (N.eqb_spec x c) as [->|]; [|discriminate]. now left.
  - specialize (IH Hin). destruct a as [c'| | |k]; simpl.
    + destruct u as [|x u]; [discriminate|].
      destruct (x =? c')%N; [|discriminate].
      destruct (match_seq r u) as [[caps' n']|] eqn:E; [|discriminate].
      intros _. right. eauto.
    + destruct u as [|x u]; [eauto|].
      destruct (isWhiteSpace x); [|eauto].
      destruct (match_seq r u) as [[caps' n']|] eqn:E; [|eauto].
      intros _. right. eauto.
    + destruct u as [|x u]; [discriminate|].
      destruct (negb (isLineTerminator x)); [|discriminate].
      destruct (match_seq r u) as [[caps' n']|] eqn:E; [|discriminate].
      intros _. right. eauto.
    + destruct (plus (cls_test k) (match_seq r) u) as [[g [caps' n']]|] eqn:E;
        [|discriminate].
      intros _. apply plus_some in E. destruct E as (j & m & _ & Hk & _).
      apply IH in Hk. revert Hk. clear. revert u.
      induction j as [|j IHj]; intros [|x u]; simpl; auto.
Qed.

Lemma replace_without_unit (c : N) (r : regex) (tpl : list piece) (s : text) :
  In (Chr c) r -> ~ In c s -> replace r tpl s = s.
Proof.
  intros Hin Hs. apply replace_no_occurrence.
  induction s as [|x s IH]; [reflexivity|]. simpl.
  destruct (match_seq r (x :: s)) as [[caps n]|] eqn:E.
  - exfalso. apply Hs. exact (match_needs_unit _ _ Hin _ E).
  - apply IH. intros H. apply Hs. now right.
Qed.

Lemma textUnit_spec (t : text) :
  forallb textUnit t = true ->
  Forall (fun x => x <> 60%N) t /\ Forall (fun x => x <> 123%N) t
  /\ ~ In 34%N t.
Proof.
  rewrite forallb_forall. intros H. repeat split.
  - apply Forall_forall. intros x Hx E. specialize (H x Hx).
    rewrite E in H. discriminate.
  - apply Forall_forall. intros x Hx E. specialize (H x Hx).
    rewrite E in H. discriminate.
  - intros Hx. specialize (H _ Hx). discriminate.
Qed.

Lemma show_without_quote (g : segment) :
  wellFormed g = true -> ~ In 34%N (show g).
Proof.
  destruct g as [t|ref|ref|path|path|path]; simpl; intros H;
    try (apply andb_prop in H; destruct H as [_ H]);
    apply textUnit_spec in H; destruct H as (_ & _ & H);
    unfold canonicalPartial, seedMarker;
    rewrite ?in_app_iff; simpl; intuition discriminate.
Qed.

Lemma showAll_without_quote (d : list segment) :
  canonicalText d = true -> ~ In 34%N (showAll d ++ [NL]).
Proof.
  unfold canonicalText, showAll. rewrite forallb_forall. intros H.
  rewrite in_app_iff, in_flat_map.
  intros [(g & Hg & Hin)|[E|[]]]; [|discriminate].
  exact (show_without_quote g (H g Hg) Hin).
Qed.

(** The four rules without a double quote pass over each segment. *)
Ltac pass_field R path Hp s :=
  let w := rest_of 3%nat R in
  let b := rest_of 2%nat R in
  dead_as R (@out_dot path Hp w (125%N :: 125%N :: s));
  dead_as R (@out_brace path Hp b (125%N :: 125%N :: s));
  pass_rule.

Lemma segment_passed (g : segment) (s : text) :
  wellFormed g = true ->
  replace re_comment_partial replacement (show g ++ s)
  = show g ++ replace re_comment_partial replacement s
  /\ replace re_comment_include replacement (show g ++ s)
     = show g ++ replace re_comment_include replacement s
  /\ replace re_upcase tpl_upcase (show g ++ s)
     = show g ++ replace re_upcase tpl_upcase s
  /\ replace re_dot tpl_open (show g ++ s)
     = show g ++ replace re_dot tpl_open s.
Proof.
  destruct g as [t|ref|ref|path|path|path]; simpl; intros H;
    try (apply andb_prop in H; destruct H as [Hp H]);
    apply textUnit_spec in H; destruct H as (H60 & H123 & _);
    unfold canonicalPartial, seedMarker.
  - repeat split; pass_rule; reflexivity.
  - repeat split; norm_text; pass_rule; reflexivity.
  - repeat split; norm_text; pass_rule; reflexivity.
  - repeat split; norm_text; pass_rule; try reflexivity.
    + pass_field re_upcase path Hp s. reflexivity.
    + pass_field re_dot path Hp s. reflexivity.
  - repeat split; norm_text; pass_rule; reflexivity.
  - repeat split; norm_text; pass_rule; reflexivity.
Qed.

Lemma showAll_passed (d : list segment) :
  canonicalText d = true ->
  forall rule, In rule rules ->
    replace (fst rule) (snd rule) (showAll d ++ [NL]) = showAll d ++ [NL].
Proof.
  intros Hd rule Hin.
  assert (Hq : In (Chr 34%N) (fst rule) ->
               replace (fst rule) (snd rule) (showAll d ++ [NL])
               = showAll d ++ [NL]).
  { intros Hc. apply (@replace_without_unit 34%N (fst rule) (snd rule) _ Hc).
    now apply showAll_without_quote. }
  assert (Hseg : forall r tpl,
             (forall g s, wellFormed g = true ->
                replace r tpl (show g ++ s) = show g ++ replace r tpl s) ->
             replace r tpl [NL] = [NL] ->
             replace r tpl (showAll d ++ [NL]) = showAll d ++ [NL]).
  { clear Hq. intros r tpl Hg Hnl. unfold canonicalText in Hd.
    unfold showAll. induction d as [|g d IH]; [exact Hnl|].
    simpl in Hd. apply andb_prop in Hd. destruct Hd as [Hw Hd].
    cbn [flat_map]. rewrite <- app_assoc, Hg by exact Hw.
    now rewrite IH. }
  simpl in Hin.
  destruct Hin as [<-|Hin];
    [apply Hseg; [intros g s Hw; apply (segment_passed g s Hw)|reflexivity]|].
  destruct Hin as [<-|Hin];
    [apply Hseg; [intros g s Hw; apply (segment_passed g s Hw)|reflexivity]|].
  do 7 (destruct Hin as [<-|Hin];
        [apply Hq; vm_compute; repeat first [left; reflexivity|right]|]).
  destruct Hin as [<-|Hin];
    [apply Hseg; [intros g s Hw; apply (segment_passed g s Hw)|reflexivity]|].
  destruct Hin as [<-|Hin];
    [apply Hseg; [intros g s Hw; apply (segment_passed g s Hw)|reflexivity]|].
  contradiction.
Qed.

Lemma fold_rules_fixed (rs : list (regex * list piece)) (data : text) :
  (forall rule, In rule rs -> replace (fst rule) (snd rule) data = data) ->
  fold_left apply_rule rs data = data.
Proof.
  induction rs as [|rule rs IH]; intros H; [reflexivity|].
  simpl. unfold apply_rule at 2. rewrite H by now left.
  apply IH. intros rule' Hin. apply H. now right.
Qed.

(** C4, as amended: a text made of ordinary text and of directives in the
    canonical forms of the specification (partial reference, seed comment,
    dotted path, join call, upcase call), with no double quote in it and
    no opening unit outside the directives, is returned by the normalizer
    unchanged but for the newline appended to it; such a text is itself a
    text that the normalizer gives. *)
Theorem canonical_unchanged (d : list segment) :
  canonicalText d = true ->
  rewriteSource (showAll d) = showAll d ++ [NL] /\ normalForm (showAll d).
Proof.
  intros H.
  assert (E : rewriteSource (showAll d) = showAll d ++ [NL]).
  { unfold rewriteSource. apply fold_rules_fixed. now apply showAll_passed. }
  split; [exact E|]. now exists (showAll d).
Qed.

Lemma canonical_unchanged_witness :
  rewriteSource
    (str "# API " ++ canonicalPartial (str "intro.md") ++ str " by "
         ++ (str "{{" ++ str "user.name" ++ str "}}")
         ++ seedMarker (str "data.json")
         ++ (str "{{upcase " ++ str "title" ++ str "}}"))
  = (str "# API " ++ canonicalPartial (str "intro.md") ++ str " by "
         ++ (str "{{" ++ str "user.name" ++ str "}}")
         ++ seedMarker (str "data.json")
         ++ (str "{{upcase " ++ str "title" ++ str "}}")) ++ [NL].
Proof.
  pose proof (proj1 (canonical_unchanged
                       [ Plain (str "# API "); PartialRef (str "intro.md");
                         Plain (str " by "); Field (str "user.name");
                         SeedComment (str "data.json");
                         UpcaseCall (str "title") ] eq_refl)) as H.
  unfold showAll in H. cbn [flat_map show] in H.
  rewrite app_nil_r in H. exact H.
Defined.

(** C4, the claim as stated fails: the text that the normalizer gives for
    a path into the parent context is itself rewritten when it is
    normalized again, so the normalizer does not leave every text in
    canonical syntax as it is. *)
Lemma normalizer_output_rewritten_again :
  normalForm (str "{{./x}}")
  /\ rewriteSource (str "{{./x}}") = str "{{/x}}" ++ [NL]
  /\ rewriteSource (str "{{./x}}") <> str "{{./x}}" ++ [NL].
Proof.
  split; [exists (str "{{../x}}"); vm_compute; reflexivity|].
  split; [vm_compute; reflexivity|vm_compute; discriminate].
Qed.

(** Why the amended claim keeps the double quote out of the text: a join
    call in canonical form, followed on its line by ordinary text that
    holds a quoted comma and two closing braces, is taken for the legacy
    join and rewritten, and loses the first unit of its path. *)
Lemma join_call_before_quoted_comma :
  rewriteSource (strq "{{join tags}} or ', '}}")
  = str "{{join ags}} or}}" ++ [NL].
Proof. vm_compute. reflexivity. Qed.
